(** * Experience replay memory of GVizDoom (src/training/memory.py)

    A shallow embedding of the two classes of the module, [SumTree] and
    [ExperienceReplay], and the properties of the bounded record store
    that they implement; and of the two callers of the store, the
    exploration schedule of [AsynchronousTrainer.train]
    (src/training/trainer.py) and the loop of [Doom.play]
    (src/training/doom.py) that fills it.

    Conventions of the embedding:
    - Python integers are [Z]; sequence indexing follows Python (a negative
      index counts from the end, an index outside the sequence raises
      [IndexError]).
    - Floating point numbers are rationals [Q] with exact arithmetic; the
      real-exponent power [np.power] / [**] is a parameter [np_power].
      Numeric statements are up to [Qeq] where a sum is involved.
    - A method is a state transformer that also yields an outcome: a value,
      a raised exception, or divergence.  The state reached when an
      exception is raised is kept, as in Python.
    - Random draws are read from explicit sources passed to [sample].
    - Outside the embedding: [load], the text printed by [save], the
      narrowing of the returned indices and weights to 32 bits, and the
      [inf] and [nan] that numpy answers to a division by zero (the
      quotient of [Q] is 0 there). *)

From Stdlib Require Import ZArith QArith Qminmax List Bool Lia Lqa.
Import ListNotations.
Open Scope Z_scope.

(** ** Outcomes and the state/exception monad *)

Inductive exn : Type :=
| IndexError
| ValueError
| AttributeError
| TypeError.

Inductive outcome (A : Type) : Type :=
| Ok (a : A)
| Raise (e : exn)
| Diverge.
Arguments Ok {A} a.
Arguments Raise {A} e.
Arguments Diverge {A}.

Definition M (S A : Type) : Type := S -> S * outcome A.

Definition ret {S A : Type} (a : A) : M S A := fun s => (s, Ok a).

Definition bind {S A B : Type} (m : M S A) (k : A -> M S B) : M S B :=
  fun s =>
    match m s with
    | (s', Ok a) => k a s'
    | (s', Raise e) => (s', Raise e)
    | (s', Diverge) => (s', Diverge)
    end.

Definition raise {S A : Type} (e : exn) : M S A := fun s => (s, Raise e).

Definition diverge {S A : Type} : M S A := fun s => (s, Diverge).

Definition gets {S A : Type} (f : S -> A) : M S A := fun s => (s, Ok (f s)).

Definition modify {S : Type} (f : S -> S) : M S unit := fun s => (f s, Ok tt).

Definition lift {S A : Type} (o : outcome A) : M S A := fun s => (s, o).

Declare Scope py_scope.
Delimit Scope py_scope with py.
Notation "x <- m ;; k" := (bind m (fun x => k))
  (at level 61, m at next level, right associativity) : py_scope.
Notation "m ;;; k" := (bind m (fun _ => k))
  (at level 61, right associativity) : py_scope.
Open Scope py_scope.

(** ** Python sequences *)

(** Position denoted by index [i] in a sequence of length [len]. *)
Definition norm_index (len i : Z) : option nat :=
  if (0 <=? i) && (i <? len) then Some (Z.to_nat i)
  else if (- len <=? i) && (i <? 0) then Some (Z.to_nat (i + len))
  else None.

Definition len {A : Type} (l : list A) : Z := Z.of_nat (length l).

(** [l[i]] *)
Definition getitem {A : Type} (l : list A) (i : Z) : outcome A :=
  match norm_index (len l) i with
  | Some n => match nth_error l n with
              | Some x => Ok x
              | None => Raise IndexError
              end
  | None => Raise IndexError
  end.

Fixpoint replace_nth {A : Type} (n : nat) (x : A) (l : list A) : list A :=
  match l, n with
  | [], _ => []
  | _ :: t, O => x :: t
  | h :: t, S n' => h :: replace_nth n' x t
  end.

(** [l[i] = x] *)
Definition setitem {A : Type} (l : list A) (i : Z) (x : A) : outcome (list A) :=
  match norm_index (len l) i with
  | Some n => Ok (replace_nth n x l)
  | None => Raise IndexError
  end.

(** [l[start:]] *)
Definition slice_from {A : Type} (l : list A) (start : Z) : list A :=
  let s := if start <? 0 then Z.max 0 (start + len l) else Z.min start (len l) in
  skipn (Z.to_nat s) l.

(** [itertools.islice(l, start, stop)], consumed into a list. *)
Definition islice {A : Type} (l : list A) (start stop : Z) : outcome (list A) :=
  if (start <? 0) || (stop <? 0) then Raise ValueError
  else Ok (firstn (Z.to_nat (stop - start)) (skipn (Z.to_nat start) l)).

(** [range(0, n)] *)
Definition range (n : Z) : list Z := map Z.of_nat (seq 0 (Z.to_nat n)).

(** [zip] stops at the shorter of its two arguments. *)
Definition zip {A B : Type} (a : list A) (b : list B) : list (A * B) := combine a b.

(** ** numpy reductions on one-dimensional float arrays *)

Definition np_max (a : list Q) : outcome Q :=
  match a with
  | [] => Raise ValueError
  | x :: xs => Ok (fold_left Qmax xs x)
  end.

Definition np_min (a : list Q) : outcome Q :=
  match a with
  | [] => Raise ValueError
  | x :: xs => Ok (fold_left Qmin xs x)
  end.

Definition Qsum (a : list Q) : Q := fold_right Qplus 0%Q a.

(** ** The random module

    [random.sample(population, k)]: [k] elements taken without replacement;
    the draw is driven by a stream of naturals, each reduced modulo the size
    of the pool that is left. *)

Fixpoint remove_nth {A : Type} (n : nat) (l : list A) : list A :=
  match l, n with
  | [], _ => []
  | _ :: t, O => t
  | h :: t, S n' => h :: remove_nth n' t
  end.

Fixpoint draw_pool {A : Type} (k : nat) (pool : list A) (rnd : nat -> nat) : list A :=
  match k with
  | O => []
  | S k' =>
      let j := (rnd O mod length pool)%nat in
      match nth_error pool j with
      | Some x => x :: draw_pool k' (remove_nth j pool) (fun n => rnd (S n))
      | None => []
      end
  end.

Definition random_sample {A : Type} (population : list A) (k : Z) (rnd : nat -> nat)
  : outcome (list A) :=
  if (k <? 0) || (len population <? k) then Raise ValueError
  else Ok (draw_pool (Z.to_nat k) population rnd).

(** [np.random.uniform(a, b)] with the underlying draw [u] from [[0, 1)]. *)
Definition np_random_uniform (a b u : Q) : Q := (a + (b - a) * u)%Q.

(** ** class SumTree *)

Module SumTree.

(** A cell of [np.zeros(capacity, dtype = object)]: the integer 0 until an
    experience is stored in it. *)
Inductive slot (R : Type) : Type :=
| Zero
| Item (r : R).
Arguments Zero {R}.
Arguments Item {R} r.

Record t (R : Type) : Type := mk {
  capacity : Z;
  tree : list Q;
  data : list (slot R);
  data_pointer : Z
}.
Arguments mk {R}.
Arguments capacity {R}.
Arguments tree {R}.
Arguments data {R}.
Arguments data_pointer {R}.

Section Methods.
Context {R : Type}.

Definition set_tree (l : list Q) (s : t R) : t R :=
  mk (capacity s) l (data s) (data_pointer s).
Definition set_data (d : list (slot R)) (s : t R) : t R :=
  mk (capacity s) (tree s) d (data_pointer s).
Definition set_data_pointer (p : Z) (s : t R) : t R :=
  mk (capacity s) (tree s) (data s) p.

(** [self.tree[i]] and [self.tree[i] = x] *)
Definition tree_get (i : Z) : M (t R) Q := fun s => (s, getitem (tree s) i).
Definition tree_set (i : Z) (x : Q) : M (t R) unit :=
  fun s =>
    match setitem (tree s) i x with
    | Ok l => (set_tree l s, Ok tt)
    | Raise e => (s, Raise e)
    | Diverge => (s, Diverge)
    end.
Definition data_get (i : Z) : M (t R) (slot R) := fun s => (s, getitem (data s) i).
Definition data_set (i : Z) (x : slot R) : M (t R) unit :=
  fun s =>
    match setitem (data s) i x with
    | Ok d => (set_data d s, Ok tt)
    | Raise e => (s, Raise e)
    | Diverge => (s, Diverge)
    end.

(** [__init__]: [np.zeros] refuses a negative length. *)
Definition init (capacity : Z) : outcome (t R) :=
  if 2 * capacity - 1 <? 0 then Raise ValueError
  else Ok (mk capacity
              (repeat 0%Q (Z.to_nat (2 * capacity - 1)))
              (repeat Zero (Z.to_nat capacity))
              0).

(** The loop of [update]: [while tree_index != 0]. *)
Fixpoint propagate (fuel : nat) (tree_index : Z) (change : Q) : M (t R) unit :=
  if tree_index =? 0 then ret tt
  else
    match fuel with
    | O => diverge
    | S fuel' =>
        let tree_index := (tree_index - 1) / 2 in
        x <- tree_get tree_index ;;
        tree_set tree_index (x + change)%Q ;;;
        propagate fuel' tree_index change
    end.

(** Every index of the array is below its length, so [length tree]
    iterations exhaust the walk to the root from any non-negative index
    (walks from a negative index never end, see [propagate_negative]). *)
Definition update (tree_index : Z) (priority : Q) : M (t R) unit :=
  old <- tree_get tree_index ;;
  let change := (priority - old)%Q in
  tree_set tree_index priority ;;;
  fuel <- gets (fun s => length (tree s)) ;;
  propagate fuel tree_index change.

Definition add (priority : Q) (record : R) : M (t R) unit :=
  dp <- gets data_pointer ;;
  c <- gets capacity ;;
  let tree_index := dp + c - 1 in
  data_set dp (Item record) ;;;
  update tree_index priority ;;;
  modify (fun s => set_data_pointer (data_pointer s + 1) s) ;;;
  dp' <- gets data_pointer ;;
  c' <- gets capacity ;;
  if c' <=? dp' then modify (set_data_pointer 0) else ret tt.

(** The loop of [get_leaf]: [while True], left when the left child index
    falls outside the array. *)
Fixpoint descend (fuel : nat) (parent_index : Z) (v : Q) : M (t R) Z :=
  fun s =>
    let left_child_index := 2 * parent_index + 1 in
    let right_child_index := left_child_index + 1 in
    if len (tree s) <=? left_child_index then (s, Ok parent_index)
    else
      match fuel with
      | O => (s, Diverge)
      | S fuel' =>
          (x <- tree_get left_child_index ;;
           if Qle_bool v x then descend fuel' left_child_index v
           else descend fuel' right_child_index (v - x)%Q) s
      end.

Definition get_leaf (v : Q) : M (t R) (Z * Q * slot R) :=
  fuel <- gets (fun s => length (tree s)) ;;
  leaf_index <- descend fuel 0 v ;;
  c <- gets capacity ;;
  let data_index := leaf_index - c + 1 in
  p <- tree_get leaf_index ;;
  d <- data_get data_index ;;
  ret (leaf_index, p, d).

Definition total_priority : M (t R) Q := tree_get 0.

End Methods.
End SumTree.

(** ** class ExperienceReplay *)

Module ExperienceReplay.

(** Class-level tuning constants. *)
Definition PER_e : Q := 1 # 100.
Definition PER_a : Q := 6 # 10.
Definition PER_b0 : Q := 4 # 10.
Definition PER_b_increment : Q := 1 # 1000.
Definition absolute_error_upper : Q := 1.
(** The literal [1e-7] of [sample]. *)
Definition weight_floor : Q := 1 # 10000000.

(** [self.buffer]: a [deque(maxlen = capacity)] or a [SumTree]. *)
Inductive buffer_t (R : Type) : Type :=
| Deque (items : list R) (maxlen : Z)
| Tree (st : SumTree.t R).
Arguments Deque {R} items maxlen.
Arguments Tree {R} st.

Record t (R : Type) : Type := mk {
  capacity : Z;
  storage_size : Z;
  include_last : Z;
  prioritized : bool;
  save_experience : bool;
  buffer : buffer_t R;
  PER_b : Q
}.
Arguments mk {R}.
Arguments capacity {R}.
Arguments storage_size {R}.
Arguments include_last {R}.
Arguments prioritized {R}.
Arguments save_experience {R}.
Arguments buffer {R}.
Arguments PER_b {R}.

(** What [pickle.dump] writes to [experience_path]. *)
Inductive pickled (R : Type) : Type :=
| PList (l : list R)
| PBuffer (b : buffer_t R).
Arguments PList {R} l.
Arguments PBuffer {R} b.

(** What [sample] returns as its batch: plain records, traces of
    consecutive records, or the data cells of the drawn leaves. *)
Inductive batch_t (R : Type) : Type :=
| Flat (l : list R)
| Traces (l : list (list R))
| Cells (l : list (SumTree.slot R)).
Arguments Flat {R} l.
Arguments Traces {R} l.
Arguments Cells {R} l.

(** The store together with what its methods reach outside it: the numpy
    arrays of the caller, by location, and the file at [experience_path]. *)
Record world (R : Type) : Type := mkw {
  self : t R;
  heap : list (list Q);
  disk : option (pickled R)
}.
Arguments mkw {R}.
Arguments self {R}.
Arguments heap {R}.
Arguments disk {R}.

Section Methods.
Context {R : Type}.
Variable np_power : Q -> Q -> Q.

Definition set_buffer (b : buffer_t R) (s : t R) : t R :=
  mk (capacity s) (storage_size s) (include_last s) (prioritized s)
     (save_experience s) b (PER_b s).
Definition set_PER_b (b : Q) (s : t R) : t R :=
  mk (capacity s) (storage_size s) (include_last s) (prioritized s)
     (save_experience s) (buffer s) b.
Definition set_self (s : t R) (w : world R) : world R := mkw s (heap w) (disk w).
Definition set_heap (h : list (list Q)) (w : world R) : world R := mkw (self w) h (disk w).
Definition set_disk (d : option (pickled R)) (w : world R) : world R := mkw (self w) (heap w) d.

(** [__init__]: [deque] refuses a negative [maxlen]. *)
Definition init (save prioritized : bool) (capacity storage_size n_last_samples_included : Z)
  : outcome (t R) :=
  if prioritized then
    match SumTree.init capacity with
    | Ok st => Ok (mk capacity storage_size n_last_samples_included prioritized save
                      (Tree st) PER_b0)
    | Raise e => Raise e
    | Diverge => Diverge
    end
  else if capacity <? 0 then Raise ValueError
  else Ok (mk capacity storage_size n_last_samples_included prioritized save
              (Deque [] capacity) PER_b0).

(** A method call on [self.buffer] when it is a SumTree. *)
Definition on_tree {A : Type} (m : M (SumTree.t R) A) : M (world R) A :=
  fun w =>
    match buffer (self w) with
    | Tree st => let (st', r) := m st in (set_self (set_buffer (Tree st') (self w)) w, r)
    | Deque _ _ => (w, Raise AttributeError)
    end.

(** [deque.append] and [deque.popleft]. *)
Definition deque_append (x : R) : M (world R) unit :=
  fun w =>
    match buffer (self w) with
    | Deque items maxlen =>
        let items' := items ++ [x] in
        let items'' := if maxlen <? len items' then tl items' else items' in
        (set_self (set_buffer (Deque items'' maxlen) (self w)) w, Ok tt)
    | Tree _ => (w, Raise AttributeError)
    end.

Definition deque_popleft : M (world R) unit :=
  fun w =>
    match buffer (self w) with
    | Deque [] _ => (w, Raise IndexError)
    | Deque (_ :: items) maxlen =>
        (set_self (set_buffer (Deque items maxlen) (self w)) w, Ok tt)
    | Tree _ => (w, Raise AttributeError)
    end.

(** The sequence view of the buffer, for [random.sample], [islice] and
    indexing; a SumTree is not a sequence. *)
Definition as_sequence : M (world R) (list R) :=
  fun w =>
    match buffer (self w) with
    | Deque items _ => (w, Ok items)
    | Tree _ => (w, Raise TypeError)
    end.

(** Property [buffer_size]. *)
Definition buffer_size_of (s : t R) : Z :=
  match buffer s with
  | Tree st => SumTree.data_pointer st
  | Deque items _ => len items
  end.

Definition buffer_size : M (world R) Z := gets (fun w => buffer_size_of (self w)).

Definition add (experiences : R) : M (world R) unit :=
  p <- gets (fun w => prioritized (self w)) ;;
  if negb p then
    deque_append experiences ;;;
    n <- buffer_size ;;
    c <- gets (fun w => capacity (self w)) ;;
    (if c <? n then deque_popleft else ret tt)
  else
    leaves <- on_tree (gets (fun st => slice_from (SumTree.tree st) (- SumTree.capacity st))) ;;
    max_priority <- lift (np_max leaves) ;;
    let max_priority :=
      if Qeq_bool max_priority 0 then absolute_error_upper else max_priority in
    on_tree (SumTree.add max_priority experiences).

(** The recency loop of uniform sampling:
    [for i in range(include_last): batch[-(i+1)] = buffer[-(i+1)]]. *)
Fixpoint force_last (ixs : list Z) (buf batch : list R) : outcome (list R) :=
  match ixs with
  | [] => Ok batch
  | i :: ixs' =>
      let index := - (i + 1) in
      match getitem buf index with
      | Ok x =>
          match setitem batch index x with
          | Ok batch' => force_last ixs' buf batch'
          | Raise e => Raise e
          | Diverge => Diverge
          end
      | Raise e => Raise e
      | Diverge => Diverge
      end
  end.

(** [[list(islice(buffer, point, point + trace_length)) for point in points]] *)
Fixpoint traces (buf : list R) (trace_length : Z) (points : list Z) : outcome (list (list R)) :=
  match points with
  | [] => Ok []
  | point :: points' =>
      match islice buf point (point + trace_length) with
      | Ok tr =>
          match traces buf trace_length points' with
          | Ok trs => Ok (tr :: trs)
          | Raise e => Raise e
          | Diverge => Diverge
          end
      | Raise e => Raise e
      | Diverge => Diverge
      end
  end.

(** The loop of prioritized sampling, [for i in range(batch_size)], over
    the remaining values of [i]; [b_idx], [memory_b] and [b_ISWeights]
    are returned in order. *)
Fixpoint draw_leaves (ixs : list Z) (batch_size : Z) (priority_segment max_weight : Q)
  (unif : nat -> Q) : M (world R) (list Z * list (SumTree.slot R) * list Q) :=
  match ixs with
  | [] => ret ([], [], [])
  | i :: ixs' =>
      let a := (priority_segment * inject_Z i)%Q in
      let b := (priority_segment * inject_Z (i + 1))%Q in
      let value := np_random_uniform a b (unif (Z.to_nat i)) in
      leaf <- on_tree (SumTree.get_leaf value) ;;
      let '(index, priority, data) := leaf in
      total <- on_tree SumTree.total_priority ;;
      let sampling_probabilities := (priority / total)%Q in
      beta <- gets (fun w => PER_b (self w)) ;;
      let weight :=
        (np_power (inject_Z batch_size * sampling_probabilities) (- beta) / max_weight)%Q in
      rest <- draw_leaves ixs' batch_size priority_segment max_weight unif ;;
      let '(idx, mem, ws) := rest in
      ret (index :: idx, data :: mem, weight :: ws)
  end.

Definition sample (batch_size trace_length : Z) (rnd : nat -> nat) (unif : nat -> Q)
  : M (world R) (option (list Z) * batch_t R * option (list Q)) :=
  p <- gets (fun w => prioritized (self w)) ;;
  if negb p then
    if 1 <? trace_length then
      n <- buffer_size ;;
      points <- lift (random_sample (range (n - trace_length)) batch_size rnd) ;;
      buf <- as_sequence ;;
      batch <- lift (traces buf trace_length points) ;;
      ret (None, Traces batch, None)
    else
      buf <- as_sequence ;;
      batch <- lift (random_sample buf batch_size rnd) ;;
      il <- gets (fun w => include_last (self w)) ;;
      batch <- lift (force_last (range il) buf batch) ;;
      ret (None, Flat batch, None)
  else
    (* np.empty((batch_size,)) refuses a negative dimension *)
    (if batch_size <? 0 then raise ValueError else ret tt) ;;;
    total <- on_tree SumTree.total_priority ;;
    let priority_segment := (total / inject_Z batch_size)%Q in
    modify (fun w => set_self (set_PER_b (Qmin 1 (PER_b (self w) + PER_b_increment)) (self w)) w) ;;;
    leaves <- on_tree (gets (fun st => slice_from (SumTree.tree st) (- SumTree.capacity st))) ;;
    least <- lift (np_min leaves) ;;
    total <- on_tree SumTree.total_priority ;;
    let p_min := (least / total)%Q in
    beta <- gets (fun w => PER_b (self w)) ;;
    let max_weight :=
      if Qeq_bool p_min 0 then weight_floor
      else np_power (p_min * inject_Z batch_size) (- beta) in
    res <- draw_leaves (range batch_size) batch_size priority_segment max_weight unif ;;
    let '(b_idx, memory_b, b_ISWeights) := res in
    ret (Some b_idx, Cells memory_b, Some b_ISWeights).

(** The loop of [batch_update]: [for ti, p in zip(tree_idx, ps)]. *)
Fixpoint update_all (pairs : list (Z * Q)) : M (world R) unit :=
  match pairs with
  | [] => ret tt
  | (ti, p) :: pairs' => on_tree (SumTree.update ti p) ;;; update_all pairs'
  end.

(** [abs_errors] is a numpy array of the caller, passed by reference:
    location [abs_errors] of the heap.  [+=] writes through the reference;
    [np.minimum] and [np.power] build new arrays. *)
Definition batch_update (tree_idx : list Z) (abs_errors : nat) : M (world R) unit :=
  arr <- (fun w => match nth_error (heap w) abs_errors with
                   | Some a => (w, Ok a)
                   | None => (w, Raise TypeError)
                   end) ;;
  let arr' := map (fun e => (e + PER_e)%Q) arr in
  modify (fun w => set_heap (replace_nth abs_errors arr' (heap w)) w) ;;;
  let clipped_errors := map (fun e => Qmin e absolute_error_upper) arr' in
  let ps := map (fun e => np_power e PER_a) clipped_errors in
  update_all (zip tree_idx ps).

Definition save : M (world R) unit :=
  se <- gets (fun w => save_experience (self w)) ;;
  if negb se then ret tt
  else
    (* os.path.exists / os.remove *)
    modify (set_disk None) ;;;
    p <- gets (fun w => prioritized (self w)) ;;
    stored_experience <-
      (if p then b <- gets (fun w => buffer (self w)) ;; ret (PBuffer b)
       else
         n <- buffer_size ;;
         ss <- gets (fun w => storage_size (self w)) ;;
         buf <- as_sequence ;;
         l <- lift (islice buf (n - ss) n) ;;
         ret (PList l)) ;;
    modify (set_disk (Some stored_experience)).

End Methods.
End ExperienceReplay.

(** ** Vocabulary of the properties *)

Section Vocabulary.
Context {R : Type}.
Variable np_power : Q -> Q -> Q.

(** Priority stored at index [i] of the tree array (0 outside it). *)
Definition prio (tr : list Q) (i : Z) : Q := nth (Z.to_nat i) tr 0%Q.

(** Every node that has two children holds the sum of their values. *)
Definition sum_invariant (tr : list Q) : Prop :=
  forall i, 0 <= i -> 2 * i + 2 < len tr ->
    (prio tr i == prio tr (2 * i + 1) + prio tr (2 * i + 2))%Q.

(** The invariant while [update] walks up from [idx]: the parent of [idx]
    has not received [change] yet. *)
Definition pending_invariant (tr : list Q) (idx : Z) (change : Q) : Prop :=
  forall i, 0 <= i -> 2 * i + 2 < len tr ->
    (prio tr i + (if (i =? (idx - 1) / 2) && (0 <? idx) then change else 0)
     == prio tr (2 * i + 1) + prio tr (2 * i + 2))%Q.

(** Shape of a constructed SumTree. *)
Definition wf_tree (st : SumTree.t R) : Prop :=
  1 <= SumTree.capacity st /\
  len (SumTree.tree st) = 2 * SumTree.capacity st - 1 /\
  len (SumTree.data st) = SumTree.capacity st /\
  0 <= SumTree.data_pointer st < SumTree.capacity st.

Definition is_leaf (st : SumTree.t R) (i : Z) : Prop :=
  SumTree.capacity st - 1 <= i <= 2 * SumTree.capacity st - 2.

(** The leaf priorities, as the code reads them: [tree[-capacity:]]. *)
Definition leaf_priorities (st : SumTree.t R) : list Q :=
  slice_from (SumTree.tree st) (- SumTree.capacity st).

(** Indices of the leaves below [node], from left to right, in an array of
    [n] nodes. *)
Fixpoint inorder_leaves (fuel : nat) (n node : Z) : list Z :=
  if n <=? 2 * node + 1 then [node]
  else
    match fuel with
    | O => []
    | S fuel' =>
        inorder_leaves fuel' n (2 * node + 1) ++ inorder_leaves fuel' n (2 * node + 2)
    end.

Definition leaves_left_to_right (tr : list Q) : list Z :=
  inorder_leaves (length tr) (len tr) 0.

(** Total priority of a list of nodes. *)
Definition mass (tr : list Q) (nodes : list Z) : Q := Qsum (map (prio tr) nodes).

(** A sequence of [update] calls; the first failure stops it. *)
Fixpoint update_seq (calls : list (Z * Q)) : M (SumTree.t R) unit :=
  match calls with
  | [] => ret tt
  | (i, p) :: calls' => SumTree.update i p ;;; update_seq calls'
  end.

(** A sequence of [add] calls on a store. *)
Fixpoint add_seq (records : list R) : M (ExperienceReplay.world R) unit :=
  match records with
  | [] => ret tt
  | r :: records' => ExperienceReplay.add r ;;; add_seq records'
  end.

(** The world around a new store: no arrays yet, no snapshot on disk. *)
Definition new_world (s : ExperienceReplay.t R) : ExperienceReplay.world R :=
  ExperienceReplay.mkw s [] None.

(** The priorities of the leaves whose data cell received a record. *)
Fixpoint active_priorities (ps : list Q) (cells : list (SumTree.slot R)) : list Q :=
  match ps, cells with
  | p :: ps', SumTree.Item _ :: cells' => p :: active_priorities ps' cells'
  | _ :: ps', SumTree.Zero :: cells' => active_priorities ps' cells'
  | _, _ => []
  end.

(** [p_min] as the code computes it: over all [capacity] leaves. *)
Definition p_min_code (st : SumTree.t R) : outcome Q :=
  match np_min (leaf_priorities st) with
  | Ok least => Ok (least / prio (SumTree.tree st) 0)%Q
  | Raise e => Raise e
  | Diverge => Diverge
  end.

(** [p_min] as the specification words it: the least selection probability
    over the active leaves only. *)
Definition p_min_active_spec (st : SumTree.t R) : outcome Q :=
  match np_min (active_priorities (leaf_priorities st) (SumTree.data st)) with
  | Ok least => Ok (least / prio (SumTree.tree st) 0)%Q
  | Raise e => Raise e
  | Diverge => Diverge
  end.

(** [max_weight] of [sample], from [p_min], the batch size and beta. *)
Definition max_weight_of (p_min : Q) (batch_size : Z) (beta : Q) : Q :=
  if Qeq_bool p_min 0 then ExperienceReplay.weight_floor
  else np_power (p_min * inject_Z batch_size) (- beta).

(** The importance-sampling weight of a drawn leaf. *)
Definition weight_of (st : SumTree.t R) (batch_size : Z) (beta max_weight : Q) (leaf : Z) : Q :=
  (np_power (inject_Z batch_size * (prio (SumTree.tree st) leaf / prio (SumTree.tree st) 0))
            (- beta) / max_weight)%Q.

(** The calls a store receives over its lifetime.  [Caller h] stands for
    the caller preparing its arrays between two calls. *)
Inductive call : Type :=
| CallAdd (r : R)
| CallSample (batch_size trace_length : Z) (rnd : nat -> nat) (unif : nat -> Q)
| CallBatchUpdate (tree_idx : list Z) (abs_errors : nat)
| CallSave
| Caller (h : list (list Q)).

(** The world after a call, whatever its outcome: an exception leaves the
    store as it was when raised. *)
Definition after_call (c : call) (w : ExperienceReplay.world R) : ExperienceReplay.world R :=
  match c with
  | CallAdd r => fst (ExperienceReplay.add r w)
  | CallSample bs tl rnd unif => fst (ExperienceReplay.sample np_power bs tl rnd unif w)
  | CallBatchUpdate idx loc => fst (ExperienceReplay.batch_update np_power idx loc w)
  | CallSave => fst (ExperienceReplay.save w)
  | Caller h => ExperienceReplay.set_heap h w
  end.

Definition after_calls (cs : list call) (w : ExperienceReplay.world R)
  : ExperienceReplay.world R :=
  fold_left (fun w c => after_call c w) cs w.

Definition beta (w : ExperienceReplay.world R) : Q :=
  ExperienceReplay.PER_b (ExperienceReplay.self w).

(** Total priority of the [n] consecutive nodes from position [lo]. *)
Definition span_mass (tr : list Q) (lo n : nat) : Q :=
  Qsum (map (fun k => nth k tr 0%Q) (seq lo n)).

(** Shape of a constructed store: the buffer agrees with the mode. *)
Definition wf_store (s : ExperienceReplay.t R) : Prop :=
  match ExperienceReplay.buffer s with
  | ExperienceReplay.Tree st =>
      ExperienceReplay.prioritized s = true /\ wf_tree st /\
      SumTree.capacity st = ExperienceReplay.capacity s
  | ExperienceReplay.Deque items maxlen =>
      ExperienceReplay.prioritized s = false /\
      maxlen = ExperienceReplay.capacity s /\
      len items <= ExperienceReplay.capacity s
  end.

(** The last [k] elements of a list. *)
Definition lastn {A : Type} (k : nat) (l : list A) : list A := skipn (length l - k) l.

End Vocabulary.

(** A computation that leaves the observation [f] of the state unchanged,
    whatever its outcome. *)
Definition preserves {S A X : Type} (f : S -> X) (m : M S A) : Prop :=
  forall s, f (fst (m s)) = f s.

(** The priority [batch_update] derives from an absolute error. *)
Definition priority_of_error (np_power : Q -> Q -> Q) (e : Q) : Q :=
  np_power (Qmin (e + ExperienceReplay.PER_e) ExperienceReplay.absolute_error_upper)
           ExperienceReplay.PER_a.

(** The value [sample] draws in segment [i] of width [seg]. *)
Definition segment_value (seg : Q) (unif : nat -> Q) (i : Z) : Q :=
  np_random_uniform (seg * inject_Z i) (seg * inject_Z (i + 1)) (unif (Z.to_nat i)).

(** What [update] never changes in a SumTree. *)
Definition shape {R : Type} (st : SumTree.t R) : Z * Z * list (SumTree.slot R) * Z :=
  (SumTree.capacity st, len (SumTree.tree st), SumTree.data st, SumTree.data_pointer st).

(** The store without its annealed parameter. *)
Definition config {R : Type} (w : ExperienceReplay.world R)
  : Z * Z * Z * bool * bool * ExperienceReplay.buffer_t R :=
  let s := ExperienceReplay.self w in
  (ExperienceReplay.capacity s, ExperienceReplay.storage_size s,
   ExperienceReplay.include_last s, ExperienceReplay.prioritized s,
   ExperienceReplay.save_experience s, ExperienceReplay.buffer s).

(** What holds of a store in mode [p] throughout its lifetime. *)
Definition lifetime_invariant {R : Type} (p : bool) (w : ExperienceReplay.world R) : Prop :=
  wf_store (ExperienceReplay.self w) /\
  ExperienceReplay.prioritized (ExperienceReplay.self w) = p /\
  (ExperienceReplay.PER_b0 <= beta w)%Q /\ (beta w <= 1)%Q.

(** A prioritized store whose tree has capacity [c] and holds the sums. *)
Definition summed {R : Type} (c : Z) (w : ExperienceReplay.world R) : Prop :=
  exists st,
    ExperienceReplay.prioritized (ExperienceReplay.self w) = true /\
    ExperienceReplay.buffer (ExperienceReplay.self w) = ExperienceReplay.Tree st /\
    wf_tree st /\ SumTree.capacity st = c /\ sum_invariant (SumTree.tree st).

(** The calls whose [batch_update] names leaves of a tree of capacity [c]. *)
Definition on_leaves {R : Type} (c : Z) (cl : call (R := R)) : Prop :=
  match cl with
  | CallBatchUpdate idx _ => Forall (fun i => c - 1 <= i <= 2 * c - 2) idx
  | _ => True
  end.

(** A tree that insertions alone have filled: every leaf either has the
    priority [absolute_error_upper] and a record of [rs] in its data
    cell, or has priority 0. *)
Definition stored_only {R : Type} (rs : list R) (st : SumTree.t R) : Prop :=
  forall j, is_leaf st j ->
    (prio (SumTree.tree st) j = ExperienceReplay.absolute_error_upper /\
     exists r, In r rs /\
       nth (Z.to_nat (j - SumTree.capacity st + 1)) (SumTree.data st) SumTree.Zero
       = SumTree.Item r) \/
    prio (SumTree.tree st) j = 0%Q.

(** ** class AsynchronousTrainer (src/training/trainer.py)

    The exploration schedule of [train]: the update of [agent.epsilon]
    that opens every iteration of the training loop.  The agent's own
    [train], the reports and the saving of the model are the environment
    of the schedule. *)

Module AsynchronousTrainer.

(** The outcome of a step of the schedule: Python's [/] raises
    [ZeroDivisionError] on a zero divisor. *)
Inductive result (A : Type) : Type :=
| Returns (a : A)
| ZeroDivisionError.

Arguments Returns {A} a.
Arguments ZeroDivisionError {A}.

(** The fields of the trainer, and of its agent, that the schedule reads
    and writes. *)
Record t : Type := mk {
  initial_epsilon : Q;
  final_epsilon : Q;
  agent_explore : Q;
  agent_epsilon : Q
}.

Definition set_agent_epsilon (e : Q) (s : t) : t :=
  mk (initial_epsilon s) (final_epsilon s) (agent_explore s) e.

(** [__init__], for an agent whose [explore] is [explore]. *)
Definition init (explore : Q) (decay_epsilon : bool) (initial_epsilon final_epsilon : Q) : t :=
  mk initial_epsilon final_epsilon
     (if negb decay_epsilon then 0%Q else explore)
     (if decay_epsilon then initial_epsilon else final_epsilon).

Definition py_div (a b : Q) : result Q :=
  if Qeq_bool b 0 then ZeroDivisionError else Returns (a / b)%Q.

(** "Update epsilon", the first statement of the loop body of [train]. *)
Definition update_epsilon (s : t) : result t :=
  if negb (Qle_bool (agent_epsilon s) (final_epsilon s)) then
    match py_div (initial_epsilon s - final_epsilon s) (agent_explore s) with
    | Returns step =>
        let new_epsilon := (agent_epsilon s - step)%Q in
        Returns (set_agent_epsilon (Qmax (final_epsilon s) new_epsilon) s)
    | ZeroDivisionError => ZeroDivisionError
    end
  else Returns s.

(** The update over [iterations] consecutive iterations of the loop. *)
Fixpoint schedule (iterations : nat) (s : t) : result t :=
  match iterations with
  | O => Returns s
  | S iterations' =>
      match update_epsilon s with
      | Returns s' => schedule iterations' s'
      | ZeroDivisionError => ZeroDivisionError
      end
  end.

End AsynchronousTrainer.

(** ** class Doom (src/training/doom.py)

    The bookkeeping of [play], the loop that fills the replay memory.
    The game, the policy of the agent and the scenario are the
    environment of the loop: each iteration receives from them the
    transition tuple it appends, with its shaped reward and its
    termination flag.  Timing and the writing of statistics files are
    outside the embedding; the arguments of [statistics.append_episode]
    are kept as a log. *)

Module Doom.

Section Play.
Context {X : Type}.

(** The tuple [(current_state, action_idx, reward, new_state,
    measurements, terminated, task_id)]; [rest] holds the five components
    the loop does not look at. *)
Record transition : Type := mkt {
  rest : X;
  reward : Q;
  terminated : bool
}.

(** What stops the loop before [max_epochs] is reached. *)
Inductive failure : Type :=
| ZeroDivisionError
| MemoryRaises (e : exn)
| MemoryDiverges.

Record t : Type := mk {
  train : bool;
  n_steps : Z;
  max_epochs : Z
}.

(** The local variables of [play], the replay memory of the agent, and
    the episodes reported so far: [(n_game, time_step, frames_alive,
    total_reward)] of each [statistics.append_episode] call. *)
Record locals : Type := mkl {
  time_step : Z;
  n_game : Z;
  total_reward : Q;
  frames_alive : Z;
  transitions : list transition;
  memory : ExperienceReplay.world (list transition);
  reported : list (Z * Z * Z * Q)
}.

(** The state before the loop: [deque] refuses a negative [maxlen]. *)
Definition start (self : t) (mem : ExperienceReplay.world (list transition)) : outcome locals :=
  if n_steps self <? 0 then Raise ValueError
  else Ok (mkl 0 0 0 0 [] mem []).

(** [a % b] on integers. *)
Definition py_mod (a b : Z) : option Z := if b =? 0 then None else Some (a mod b).

(** [transitions.append] on [deque(maxlen = n_steps)]. *)
Definition append (n_steps : Z) (items : list transition) (x : transition) : list transition :=
  let items' := items ++ [x] in
  if n_steps <? len items' then tl items' else items'.

(** One iteration of the loop body. *)
Definition step (self : t) (ev : transition) (s : locals) : locals * option failure :=
  let s1 :=
    if terminated ev then
      let n_game' := n_game s + 1 in
      mkl (time_step s) n_game' 0 0 (transitions s) (memory s)
          (reported s ++ [(n_game', time_step s, frames_alive s, total_reward s)])
    else
      mkl (time_step s) (n_game s) (total_reward s) (frames_alive s + 1)
          (transitions s) (memory s) (reported s) in
  let s2 :=
    mkl (time_step s1 + 1) (n_game s1) (total_reward s1 + reward ev)%Q (frames_alive s1)
        (transitions s1) (memory s1) (reported s1) in
  if train self then
    let s3 :=
      mkl (time_step s2) (n_game s2) (total_reward s2) (frames_alive s2)
          (append (n_steps self) (transitions s2) ev) (memory s2) (reported s2) in
    match py_mod (frames_alive s3) (n_steps self) with
    | None => (s3, Some ZeroDivisionError)
    | Some m =>
        if (m =? 0) && negb (frames_alive s3 =? 0) then
          let (mem', r) := ExperienceReplay.add (transitions s3) (memory s3) in
          let s4 :=
            mkl (time_step s3) (n_game s3) (total_reward s3) (frames_alive s3)
                (transitions s3) mem' (reported s3) in
          match r with
          | Ok _ => (s4, None)
          | Raise e => (s4, Some (MemoryRaises e))
          | Diverge => (s4, Some MemoryDiverges)
          end
        else (s3, None)
    end
  else (s2, None).

(** [while n_game < self.max_epochs], over the steps the environment
    produces. *)
Fixpoint play_loop (self : t) (events : list transition) (s : locals)
  : locals * option failure :=
  if n_game s <? max_epochs self then
    match events with
    | [] => (s, None)
    | ev :: events' =>
        match step self ev s with
        | (s', None) => play_loop self events' s'
        | (s', Some f) => (s', Some f)
        end
    end
  else (s, None).

End Play.

Arguments transition X : clear implicits.
Arguments locals X : clear implicits.

End Doom.

(** A window of [n] consecutive transitions of [hist], none of them
    terminal. *)
Definition live_window {X : Type} (n : Z) (hist : list (Doom.transition X))
  (wdw : list (Doom.transition X)) : Prop :=
  len wdw = n /\
  Forall (fun tr => Doom.terminated tr = false) wdw /\
  exists before after, hist = before ++ wdw ++ after.

(** What [play] keeps, iteration after iteration, while it trains with
    windows of [n] steps: [hist] is the sequence of transitions appended
    so far and [ws] the windows handed to the memory [mem0] so far. *)
Definition play_invariant {X : Type} (n : Z)
  (mem0 : ExperienceReplay.world (list (Doom.transition X)))
  (s : Doom.locals X) (hist : list (Doom.transition X))
  (ws : list (list (Doom.transition X))) : Prop :=
  Doom.transitions s = lastn (Z.to_nat n) hist /\
  0 <= Doom.frames_alive s <= len hist /\
  Forall (fun tr => Doom.terminated tr = false)
    (lastn (Z.to_nat (Doom.frames_alive s)) hist) /\
  wf_store (ExperienceReplay.self (Doom.memory s)) /\
  add_seq ws mem0 = (Doom.memory s, Ok tt) /\
  Forall (live_window n hist) ws.

(** The number of transitions of [hist] that end an episode. *)
Definition terminal_count {X : Type} (hist : list (Doom.transition X)) : Z :=
  len (filter Doom.terminated hist).

(** What the counters of [play] hold after the transitions [hist]. *)
Definition play_accounts {X : Type} (max_epochs : Z) (s : Doom.locals X)
  (hist : list (Doom.transition X)) : Prop :=
  Doom.time_step s = len hist /\
  Doom.n_game s = terminal_count hist /\
  Doom.n_game s <= Z.max 0 max_epochs /\
  len (Doom.reported s) = terminal_count hist /\
  (Forall (fun tr => Doom.terminated tr = false) hist ->
   Doom.frames_alive s = len hist /\
   (Doom.total_reward s == Qsum (map Doom.reward hist))%Q) /\
  (forall before t1 live,
     hist = before ++ t1 :: live ->
     Doom.terminated t1 = true ->
     Forall (fun tr => Doom.terminated tr = false) live ->
     Doom.frames_alive s = len live /\
     (Doom.total_reward s == Doom.reward t1 + Qsum (map Doom.reward live))%Q) /\
  (forall live t2,
     hist = live ++ [t2] ->
     Forall (fun tr => Doom.terminated tr = false) live ->
     Doom.terminated t2 = true ->
     exists r,
       last (Doom.reported s) (0, 0, 0, 0%Q) = (Doom.n_game s, len live, len live, r) /\
       (r == Qsum (map Doom.reward live))%Q) /\
  (forall before t1 live t2,
     hist = before ++ t1 :: live ++ [t2] ->
     Doom.terminated t1 = true ->
     Forall (fun tr => Doom.terminated tr = false) live ->
     Doom.terminated t2 = true ->
     exists r,
       last (Doom.reported s) (0, 0, 0, 0%Q)
       = (Doom.n_game s, len (before ++ t1 :: live), len live, r) /\
       (r == Doom.reward t1 + Qsum (map Doom.reward live))%Q).

(** ** Stores and trees of the examples *)

(** A power function for the examples; any function will do there. *)
Definition sample_power (x y : Q) : Q := x.

(** A SumTree of capacity 2 whose two leaves have priority 1. *)
Definition tree_1_1 : SumTree.t nat :=
  SumTree.mk 2 [2; 1; 1]%Q [SumTree.Item 10%nat; SumTree.Item 11%nat] 0.

(** A uniform store of capacity 5 and [include_last = 2] holding [items]. *)
Definition uniform_world (items : list nat) : ExperienceReplay.world nat :=
  ExperienceReplay.mkw
    (ExperienceReplay.mk 5 5000 2 false false (ExperienceReplay.Deque items 5)
       ExperienceReplay.PER_b0)
    [] None.

(** A uniform store that saves: capacity 10, [storage_size = 5], holding
    [items], with [snapshot] on disk. *)
Definition saving_world (items : list nat) (snapshot : option (ExperienceReplay.pickled nat))
  : ExperienceReplay.world nat :=
  ExperienceReplay.mkw
    (ExperienceReplay.mk 10 5 3 false true (ExperienceReplay.Deque items 10)
       ExperienceReplay.PER_b0)
    [] snapshot.

(** A prioritized store of capacity 2 holding two records, and the array
    [[0.5, 0.3]] of the caller at location 0. *)
Definition prioritized_world : ExperienceReplay.world nat :=
  ExperienceReplay.mkw
    (ExperienceReplay.mk 2 5000 3 true false (ExperienceReplay.Tree tree_1_1)
       ExperienceReplay.PER_b0)
    [[1 # 2; 3 # 10]%Q] None.

(** A prioritized store of capacity 2 holding one record. *)
Definition one_record_world : ExperienceReplay.world nat :=
  ExperienceReplay.mkw
    (ExperienceReplay.mk 2 5000 3 true false
       (ExperienceReplay.Tree
          (SumTree.mk 2 [1; 1; 0]%Q [SumTree.Item 7%nat; SumTree.Zero] 1))
       ExperienceReplay.PER_b0)
    [] None.

(** A new prioritized store of capacity 2, as [__init__] builds it. *)
Definition new_prioritized_store : ExperienceReplay.t nat :=
  ExperienceReplay.mk 2 5000 3 true false
    (ExperienceReplay.Tree (SumTree.mk 2 [0; 0; 0]%Q [SumTree.Zero; SumTree.Zero] 0))
    ExperienceReplay.PER_b0.

(** Two calls of the lifetime of a store: an insertion, then a draw. *)
Definition add_then_sample : list (call (R := nat)) :=
  [CallAdd 7%nat; CallSample 1 1 (fun n => n) (fun _ => 0%Q)].

(** * Properties *)

(** ** Sequences *)

Lemma norm_index_nonneg (n i : Z) :
  0 <= i < n -> norm_index n i = Some (Z.to_nat i).
Proof.
  intros H. unfold norm_index.
  destruct (Z.leb_spec 0 i); [| lia].
  destruct (Z.ltb_spec i n); [| lia].
  reflexivity.
Qed.

Lemma norm_index_negative (n i : Z) :
  - n <= i < 0 -> norm_index n i = Some (Z.to_nat (i + n)).
Proof.
  intros H. unfold norm_index.
  destruct (Z.leb_spec 0 i); [lia |]. cbn [andb].
  destruct (Z.leb_spec (- n) i); [| lia].
  destruct (Z.ltb_spec i 0); [| lia].
  reflexivity.
Qed.

Lemma norm_index_outside (n i : Z) :
  i < - n \/ n <= i -> norm_index n i = None.
Proof.
  intros H. unfold norm_index.
  destruct (Z.leb_spec 0 i), (Z.ltb_spec i n), (Z.leb_spec (- n) i), (Z.ltb_spec i 0);
    cbn [andb]; try reflexivity; lia.
Qed.

Lemma norm_index_bound (n i : Z) (k : nat) :
  norm_index n i = Some k -> (Z.of_nat k < n).
Proof.
  unfold norm_index.
  destruct (Z.leb_spec 0 i), (Z.ltb_spec i n), (Z.leb_spec (- n) i), (Z.ltb_spec i 0);
    cbn [andb]; intros E; inversion E; lia.
Qed.

Lemma getitem_nonneg {A : Type} (l : list A) (i : Z) (d : A) :
  0 <= i < len l -> getitem l i = Ok (nth (Z.to_nat i) l d).
Proof.
  intros H. unfold getitem. rewrite norm_index_nonneg by assumption.
  assert (Hn : (Z.to_nat i < length l)%nat) by (unfold len in H; lia).
  rewrite (nth_error_nth' l d Hn). reflexivity.
Qed.

Lemma getitem_negative {A : Type} (l : list A) (i : Z) (d : A) :
  - len l <= i < 0 -> getitem l i = Ok (nth (Z.to_nat (i + len l)) l d).
Proof.
  intros H. unfold getitem. rewrite norm_index_negative by assumption.
  assert (Hn : (Z.to_nat (i + len l) < length l)%nat) by (unfold len in *; lia).
  rewrite (nth_error_nth' l d Hn). reflexivity.
Qed.

Lemma setitem_nonneg {A : Type} (l : list A) (i : Z) (x : A) :
  0 <= i < len l -> setitem l i x = Ok (replace_nth (Z.to_nat i) x l).
Proof.
  intros H. unfold setitem. rewrite norm_index_nonneg by assumption. reflexivity.
Qed.

Lemma setitem_negative {A : Type} (l : list A) (i : Z) (x : A) :
  - len l <= i < 0 -> setitem l i x = Ok (replace_nth (Z.to_nat (i + len l)) x l).
Proof.
  intros H. unfold setitem. rewrite norm_index_negative by assumption. reflexivity.
Qed.

Lemma replace_nth_length {A : Type} (n : nat) (x : A) (l : list A) :
  length (replace_nth n x l) = length l.
Proof.
  revert n. induction l as [| h t IH]; intros [| n]; simpl; auto.
Qed.

Lemma replace_nth_len {A : Type} (n : nat) (x : A) (l : list A) :
  len (replace_nth n x l) = len l.
Proof. unfold len. now rewrite replace_nth_length. Qed.

Lemma nth_replace_nth_same {A : Type} (n : nat) (x d : A) (l : list A) :
  (n < length l)%nat -> nth n (replace_nth n x l) d = x.
Proof.
  revert n. induction l as [| h t IH]; intros [| n] H; simpl in *; try lia; auto.
  apply IH. lia.
Qed.

Lemma nth_replace_nth_other {A : Type} (n m : nat) (x d : A) (l : list A) :
  n <> m -> nth m (replace_nth n x l) d = nth m l d.
Proof.
  revert n m. induction l as [| h t IH]; intros [| n] [| m] H; simpl; auto; try lia.
Qed.

Lemma prio_replace (tr : list Q) (i j : Z) (x : Q) :
  0 <= i < len tr -> 0 <= j ->
  prio (replace_nth (Z.to_nat i) x tr) j = if j =? i then x else prio tr j.
Proof.
  intros Hi Hj. unfold prio.
  destruct (Z.eqb_spec j i) as [-> | Hne].
  - apply nth_replace_nth_same. unfold len in Hi. lia.
  - apply nth_replace_nth_other. lia.
Qed.

Lemma len_nonneg {A : Type} (l : list A) : 0 <= len l.
Proof. unfold len. lia. Qed.

Lemma len_app {A : Type} (l1 l2 : list A) : len (l1 ++ l2) = len l1 + len l2.
Proof. unfold len. rewrite length_app. lia. Qed.

Lemma len_repeat {A : Type} (x : A) (n : nat) : len (repeat x n) = Z.of_nat n.
Proof. unfold len. now rewrite repeat_length. Qed.

(** ** SumTree.update *)

Section SumTreeUpdate.
Context {R : Type}.
Implicit Types (s : SumTree.t R) (tr : list Q).

Lemma tree_get_in s (i : Z) :
  0 <= i < len (SumTree.tree s) ->
  SumTree.tree_get i s = (s, Ok (prio (SumTree.tree s) i)).
Proof.
  intros H. unfold SumTree.tree_get, prio.
  now rewrite (getitem_nonneg _ _ 0%Q H).
Qed.

Lemma tree_set_in s (i : Z) (x : Q) :
  0 <= i < len (SumTree.tree s) ->
  SumTree.tree_set i x s =
  (SumTree.set_tree (replace_nth (Z.to_nat i) x (SumTree.tree s)) s, Ok tt).
Proof.
  intros H. unfold SumTree.tree_set. now rewrite setitem_nonneg.
Qed.

Lemma parent_bounds (i : Z) : 0 < i -> 0 <= (i - 1) / 2 < i.
Proof. intros H. split; [apply Z.div_pos; lia | apply Z.div_lt_upper_bound; lia]. Qed.

Lemma parent_child (i k : Z) :
  0 < i -> (k = (i - 1) / 2 <-> (i = 2 * k + 1 \/ i = 2 * k + 2)).
Proof.
  intros H.
  pose proof (Z.div_mod (i - 1) 2 ltac:(lia)) as E.
  pose proof (Z.mod_pos_bound (i - 1) 2 ltac:(lia)) as B.
  split; intros; subst; lia.
Qed.

(** One step of the walk moves the pending change one level up. *)
Lemma pending_step tr (idx : Z) (change : Q) :
  0 < idx < len tr ->
  pending_invariant tr idx change ->
  pending_invariant
    (replace_nth (Z.to_nat ((idx - 1) / 2)) (prio tr ((idx - 1) / 2) + change)%Q tr)
    ((idx - 1) / 2) change.
Proof.
  intros Hidx Hinv i Hi Hch.
  rewrite replace_nth_len in Hch.
  pose proof (parent_bounds idx ltac:(lia)) as Hp.
  specialize (Hinv i Hi Hch).
  assert (Hpar : forall k, k = (idx - 1) / 2 <-> idx = 2 * k + 1 \/ idx = 2 * k + 2)
    by (intros; apply parent_child; lia).
  remember ((idx - 1) / 2) as p eqn:Ep.
  assert (Hgp : 0 < p -> forall k, k = (p - 1) / 2 <-> p = 2 * k + 1 \/ p = 2 * k + 2)
    by (intros; apply parent_child; lia).
  remember ((p - 1) / 2) as q eqn:Eq.
  pose proof (proj1 (Hpar p) eq_refl) as Hidx'.
  clear Ep Eq.
  rewrite !(prio_replace tr p) by lia.
  revert Hinv.
  destruct (Z.ltb_spec 0 idx); [| lia].
  destruct (Z.eqb_spec i p), (Z.eqb_spec (2 * i + 1) p), (Z.eqb_spec (2 * i + 2) p),
    (Z.eqb_spec i q), (Z.ltb_spec 0 p);
    cbn [andb]; intros Hinv; subst; try lra; exfalso; try lia;
    try (specialize (Hgp ltac:(lia)));
    try (pose proof (proj1 (Hgp q) eq_refl); lia);
    try (match goal with n : _ <> q |- _ => apply n, Hgp; lia end).
Qed.

Lemma pending_done tr (change : Q) :
  pending_invariant tr 0 change -> sum_invariant tr.
Proof.
  intros H i Hi Hc. specialize (H i Hi Hc).
  rewrite andb_false_r in H. lra.
Qed.

(** The walk from a non-negative index ends within [idx] iterations; it
    changes no node whose children lie after [idx] and settles the
    pending change. *)
Lemma propagate_ok (fuel : nat) : forall (idx : Z) (change : Q) s,
  0 <= idx < len (SumTree.tree s) ->
  (Z.to_nat idx <= fuel)%nat ->
  exists tr',
    SumTree.propagate fuel idx change s = (SumTree.set_tree tr' s, Ok tt) /\
    len tr' = len (SumTree.tree s) /\
    (forall j, 0 <= j -> idx < 2 * j + 1 -> prio tr' j = prio (SumTree.tree s) j) /\
    (pending_invariant (SumTree.tree s) idx change -> sum_invariant tr').
Proof.
  induction fuel as [| fuel IH]; intros idx change s Hidx Hfuel.
  - assert (idx = 0) by lia. subst idx. cbn.
    exists (SumTree.tree s). destruct s; cbn. repeat split; auto.
    apply pending_done.
  - cbn [SumTree.propagate].
    destruct (Z.eqb_spec idx 0) as [-> | Hne].
    + exists (SumTree.tree s). destruct s; cbn. repeat split; auto.
      apply pending_done.
    + pose proof (parent_bounds idx ltac:(lia)) as Hp.
      pose proof (proj1 (parent_child idx _ ltac:(lia)) eq_refl) as Hpc.
      set (p := (idx - 1) / 2) in *.
      unfold bind at 1. rewrite tree_get_in by lia.
      unfold bind at 1. rewrite tree_set_in by lia.
      set (tr1 := replace_nth (Z.to_nat p) (prio (SumTree.tree s) p + change)%Q (SumTree.tree s)).
      destruct (IH p change (SumTree.set_tree tr1 s)) as (tr' & E & L & U & I).
      * cbn. unfold tr1. rewrite replace_nth_len. lia.
      * lia.
      * change (SumTree.tree (SumTree.set_tree tr1 s)) with tr1 in *.
        assert (Ltr1 : len tr1 = len (SumTree.tree s)) by (unfold tr1; apply replace_nth_len).
        exists tr'. rewrite E.
        split; [reflexivity |]. split; [lia |]. split.
        -- intros j Hj Hj0. rewrite U by lia. unfold tr1.
           rewrite prio_replace by lia.
           destruct (Z.eqb_spec j p); [lia | reflexivity].
        -- intros PI. apply I. apply pending_step; [lia | exact PI].
Qed.

(** A walk from a negative index never reaches the root. *)
Lemma propagate_negative (fuel : nat) : forall (idx : Z) (change : Q) s,
  - len (SumTree.tree s) <= idx < 0 ->
  snd (SumTree.propagate fuel idx change s) = Diverge.
Proof.
  induction fuel as [| fuel IH]; intros idx change s Hidx; cbn [SumTree.propagate].
  - destruct (Z.eqb_spec idx 0); [lia | reflexivity].
  - destruct (Z.eqb_spec idx 0); [lia |].
    assert (Hp : idx <= (idx - 1) / 2 < 0).
    { split; [apply Z.div_le_lower_bound; lia | apply Z.div_lt_upper_bound; lia]. }
    set (p := (idx - 1) / 2) in *.
    unfold bind at 1. unfold SumTree.tree_get.
    rewrite (getitem_negative _ _ 0%Q) by lia.
    unfold bind at 1. unfold SumTree.tree_set.
    rewrite setitem_negative by lia.
    apply IH. cbn. rewrite replace_nth_len. lia.
Qed.

(** [update] on a node without children: the call returns, the node holds
    the new priority, no other childless node changes, and the sums of the
    inner nodes are restored. *)
Lemma update_ok (idx : Z) (p : Q) s :
  0 <= idx < len (SumTree.tree s) ->
  exists tr',
    SumTree.update idx p s = (SumTree.set_tree tr' s, Ok tt) /\
    len tr' = len (SumTree.tree s) /\
    prio tr' idx = p /\
    (forall j, 0 <= j -> idx < 2 * j + 1 -> j <> idx ->
       prio tr' j = prio (SumTree.tree s) j) /\
    (sum_invariant (SumTree.tree s) -> len (SumTree.tree s) <= 2 * idx + 2 ->
       sum_invariant tr').
Proof.
  intros Hidx. unfold SumTree.update.
  unfold bind at 1. rewrite tree_get_in by assumption.
  unfold bind at 1. rewrite tree_set_in by assumption.
  unfold bind at 1. unfold gets at 1.
  set (tr0 := replace_nth (Z.to_nat idx) p (SumTree.tree s)).
  assert (L0 : len tr0 = len (SumTree.tree s)) by apply replace_nth_len.
  change (SumTree.tree (SumTree.set_tree tr0 s)) with tr0.
  destruct (propagate_ok (length tr0) idx (p - prio (SumTree.tree s) idx)%Q
              (SumTree.set_tree tr0 s)) as (tr' & E & L & U & I).
  - change (SumTree.tree (SumTree.set_tree tr0 s)) with tr0. lia.
  - unfold len in *. lia.
  - change (SumTree.tree (SumTree.set_tree tr0 s)) with tr0 in *.
    exists tr'. rewrite E. split; [reflexivity |]. split; [lia |]. split; [| split].
    + rewrite U by lia. unfold tr0. rewrite prio_replace by lia.
      now rewrite Z.eqb_refl.
    + intros j Hj Hj1 Hne. rewrite U by lia. unfold tr0.
      rewrite prio_replace by lia.
      destruct (Z.eqb_spec j idx); [lia | reflexivity].
    + intros SI Hleaf. apply I. intros i Hi Hc. rewrite L0 in Hc.
      specialize (SI i Hi Hc). unfold tr0.
      rewrite !prio_replace by lia.
      destruct (Z.eqb_spec i idx); [lia |].
      destruct (Z.ltb_spec 0 idx) as [Hpos | Hz].
      * pose proof (parent_child idx i Hpos) as PC.
        destruct (Z.eqb_spec i ((idx - 1) / 2)) as [E1 | NE]; cbn [andb].
        -- apply PC in E1.
           destruct (Z.eqb_spec (2 * i + 1) idx), (Z.eqb_spec (2 * i + 2) idx);
             subst; try lra; lia.
        -- destruct (Z.eqb_spec (2 * i + 1) idx); [exfalso; apply NE, PC; lia |].
           destruct (Z.eqb_spec (2 * i + 2) idx); [exfalso; apply NE, PC; lia |].
           lra.
      * rewrite andb_false_r.
        destruct (Z.eqb_spec (2 * i + 1) idx); [lia |].
        destruct (Z.eqb_spec (2 * i + 2) idx); [lia |]. lra.
Qed.

(** [update] with a negative index inside the array does not return. *)
Lemma update_negative (idx : Z) (p : Q) s :
  - len (SumTree.tree s) <= idx < 0 ->
  snd (SumTree.update idx p s) = Diverge.
Proof.
  intros Hidx. unfold SumTree.update.
  unfold bind at 1. unfold SumTree.tree_get.
  rewrite (getitem_negative _ _ 0%Q) by lia.
  unfold bind at 1. unfold SumTree.tree_set.
  rewrite setitem_negative by lia.
  unfold bind at 1. unfold gets at 1.
  apply propagate_negative. cbn. rewrite replace_nth_len. lia.
Qed.

End SumTreeUpdate.

(** ** The root holds the total of the leaves *)

Lemma Qsum_app (a b : list Q) : (Qsum (a ++ b) == Qsum a + Qsum b)%Q.
Proof.
  unfold Qsum. induction a as [| x a IH]; cbn [app fold_right]; [lra |]. rewrite IH. lra.
Qed.

Lemma span_mass_split (tr : list Q) (lo a b : nat) :
  (span_mass tr lo (a + b) == span_mass tr lo a + span_mass tr (lo + a) b)%Q.
Proof.
  unfold span_mass. rewrite seq_app, map_app. apply Qsum_app.
Qed.

Lemma span_mass_one (tr : list Q) (lo : nat) :
  (span_mass tr lo 1 == nth lo tr 0)%Q.
Proof. unfold span_mass, Qsum. cbn [seq map fold_right]. lra. Qed.

Lemma map_nth_seq {A : Type} (l : list A) (d : A) :
  map (fun k => nth k l d) (seq 0 (length l)) = l.
Proof.
  induction l as [| x l IH]; cbn; [reflexivity |].
  f_equal. rewrite <- seq_shift, map_map. exact IH.
Qed.

Lemma Qsum_skipn (tr : list Q) (m : nat) :
  Qsum (skipn m tr) = span_mass tr m (length tr - m).
Proof.
  unfold span_mass.
  rewrite <- (map_nth_seq tr 0%Q) at 1.
  rewrite skipn_map, skipn_seq. reflexivity.
Qed.

(** Summing the defining equations of the first [m] inner nodes: their
    total is the total of the nodes 1 .. 2m, their children. *)
Lemma inner_nodes_telescope (tr : list Q) (m : nat) :
  (forall k, (k < m)%nat ->
     (nth k tr 0 == nth (2 * k + 1) tr 0 + nth (2 * k + 2) tr 0)%Q) ->
  (span_mass tr 0 m == span_mass tr 1 (2 * m))%Q.
Proof.
  induction m as [| m IH]; intros H.
  - reflexivity.
  - replace (S m) with (m + 1)%nat by lia.
    replace (2 * (m + 1))%nat with (2 * m + 1 + 1)%nat by lia.
    rewrite (span_mass_split tr 0 m 1).
    rewrite (span_mass_split tr 1 (2 * m + 1) 1), (span_mass_split tr 1 (2 * m) 1).
    rewrite !span_mass_one.
    rewrite IH by (intros k Hk; apply H; lia).
    replace (1 + 2 * m)%nat with (2 * m + 1)%nat by lia.
    replace (1 + (2 * m + 1))%nat with (2 * m + 2)%nat by lia.
    cbn [Nat.add]. rewrite (H m) by lia. lra.
Qed.

Lemma sum_invariant_nat (tr : list Q) (k : nat) :
  sum_invariant tr -> (2 * k + 2 < length tr)%nat ->
  (nth k tr 0 == nth (2 * k + 1) tr 0 + nth (2 * k + 2) tr 0)%Q.
Proof.
  intros SI Hk. specialize (SI (Z.of_nat k) ltac:(lia) ltac:(unfold len; lia)).
  unfold prio in SI.
  replace (Z.to_nat (Z.of_nat k)) with k in SI by lia.
  replace (Z.to_nat (2 * Z.of_nat k + 1)) with (2 * k + 1)%nat in SI by lia.
  replace (Z.to_nat (2 * Z.of_nat k + 2)) with (2 * k + 2)%nat in SI by lia.
  exact SI.
Qed.

Lemma slice_last (tr : list Q) (c : Z) :
  1 <= c -> c <= len tr + 1 ->
  slice_from tr (- c) = skipn (Z.to_nat (len tr - c)) tr.
Proof.
  intros H1 H2. unfold slice_from.
  destruct (Z.ltb_spec (- c) 0); [| lia].
  f_equal. lia.
Qed.

Lemma root_is_leaf_total (tr : list Q) (c : Z) :
  1 <= c -> len tr = 2 * c - 1 -> sum_invariant tr ->
  (prio tr 0 == Qsum (slice_from tr (- c)))%Q.
Proof.
  intros Hc Hlen SI.
  rewrite slice_last by lia.
  rewrite Qsum_skipn.
  remember (Z.to_nat (c - 1)) as m eqn:Em.
  assert (Hl : length tr = (2 * m + 1)%nat) by (unfold len in Hlen; lia).
  replace (Z.to_nat (len tr - c)) with m by lia.
  replace (length tr - m)%nat with (m + 1)%nat by lia.
  assert (T : (span_mass tr 0 m == span_mass tr 1 (2 * m))%Q).
  { apply inner_nodes_telescope. intros k Hk.
    apply sum_invariant_nat; [assumption | lia]. }
  unfold prio. cbn [Z.to_nat]. clear Em.
  destruct m as [| m'].
  - cbn [Nat.add]. rewrite span_mass_one. reflexivity.
  - revert T.
    replace (S m') with (1 + m')%nat by lia.
    replace (2 * (1 + m'))%nat with (m' + (1 + m' + 1))%nat by lia.
    rewrite (span_mass_split tr 0 1 m'), (span_mass_split tr 1 m' (1 + m' + 1)).
    rewrite span_mass_one. cbn [Nat.add]. lra.
Qed.

(** ** Sequences of updates *)

Ltac st_simpl :=
  cbn [SumTree.capacity SumTree.tree SumTree.data SumTree.data_pointer
       SumTree.set_tree SumTree.set_data SumTree.set_data_pointer fst snd] in *.

Section SumTreeSequences.
Context {R : Type}.
Implicit Types (s st : SumTree.t R).

Lemma init_wf (c : Z) st :
  SumTree.init c = Ok st ->
  wf_tree st /\ SumTree.capacity st = c /\ sum_invariant (SumTree.tree st) /\
  SumTree.tree st = repeat 0%Q (Z.to_nat (2 * c - 1)) /\
  SumTree.data st = repeat SumTree.Zero (Z.to_nat c) /\
  SumTree.data_pointer st = 0.
Proof.
  unfold SumTree.init. destruct (Z.ltb_spec (2 * c - 1) 0); [discriminate |].
  intros E.
  assert (Est : st = SumTree.mk c (repeat 0%Q (Z.to_nat (2 * c - 1)))
                       (repeat SumTree.Zero (Z.to_nat c)) 0) by congruence.
  subst st. clear E. unfold wf_tree. st_simpl.
  rewrite !len_repeat. repeat split; try lia; try reflexivity.
  intros i Hi Hc. unfold prio. rewrite !nth_repeat. lra.
Qed.

Lemma set_tree_wf st (tr : list Q) :
  wf_tree st -> len tr = len (SumTree.tree st) -> wf_tree (SumTree.set_tree tr st).
Proof. unfold wf_tree. intros (? & ? & ? & ?) L. st_simpl. rewrite L. auto. Qed.

Lemma is_leaf_set_tree st (tr : list Q) (i : Z) :
  is_leaf (SumTree.set_tree tr st) i <-> is_leaf st i.
Proof. unfold is_leaf. st_simpl. tauto. Qed.

(** [update] on a leaf of a well-formed tree. *)
Lemma update_leaf st (idx : Z) (p : Q) :
  wf_tree st -> is_leaf st idx ->
  exists st',
    SumTree.update idx p st = (st', Ok tt) /\
    wf_tree st' /\
    SumTree.capacity st' = SumTree.capacity st /\
    SumTree.data st' = SumTree.data st /\
    SumTree.data_pointer st' = SumTree.data_pointer st /\
    prio (SumTree.tree st') idx = p /\
    (forall j, is_leaf st j -> j <> idx ->
       prio (SumTree.tree st') j = prio (SumTree.tree st) j) /\
    (sum_invariant (SumTree.tree st) -> sum_invariant (SumTree.tree st')).
Proof.
  intros WF L. pose proof WF as (Hc & Hlen & Hd & Hp). unfold is_leaf in L.
  destruct (update_ok idx p st ltac:(lia)) as (tr' & E & Ln & Pi & U & I).
  exists (SumTree.set_tree tr' st). rewrite E. st_simpl.
  split; [reflexivity |]. split; [now apply set_tree_wf |].
  repeat split; auto.
  - intros j Hj Hne. unfold is_leaf in Hj. apply U; lia.
  - intros SI. apply I; [assumption | lia].
Qed.

Lemma update_seq_leaves (calls : list (Z * Q)) : forall st,
  wf_tree st -> sum_invariant (SumTree.tree st) ->
  Forall (fun call => is_leaf st (fst call)) calls ->
  exists st',
    update_seq calls st = (st', Ok tt) /\
    wf_tree st' /\ SumTree.capacity st' = SumTree.capacity st /\
    sum_invariant (SumTree.tree st').
Proof.
  induction calls as [| [i p] calls IH]; intros st WF SI F.
  - exists st. cbn [update_seq]. unfold ret. auto.
  - inversion F as [| ? ? Hi F']; subst. cbn [fst] in Hi.
    destruct (update_leaf st i p WF Hi) as (st1 & E & WF1 & C1 & _ & _ & _ & _ & I1).
    destruct (IH st1 WF1 (I1 SI)) as (st' & E' & WF' & C' & SI').
    { eapply Forall_impl; [| exact F']. intros [j q]. unfold is_leaf. now rewrite C1. }
    exists st'. cbn [update_seq]. unfold bind. rewrite E, E'.
    split; [reflexivity |]. split; [assumption |]. split; [congruence | assumption].
Qed.

Lemma total_priority_wf st :
  wf_tree st ->
  SumTree.total_priority st = (st, Ok (prio (SumTree.tree st) 0)).
Proof.
  intros (Hc & Hlen & _). unfold SumTree.total_priority.
  apply tree_get_in. lia.
Qed.

End SumTreeSequences.

(** C4.  After any sequence of [update] calls on the leaves of a newly
    built SumTree (the same leaf may be updated many times), every call has
    returned, [total_priority] is the sum of the [capacity] leaf
    priorities, and every inner node is the sum of its two children. *)
Theorem update_seq_keeps_sums (R : Type) (c : Z) (st0 : SumTree.t R)
  (calls : list (Z * Q)) :
  SumTree.init c = Ok st0 ->
  Forall (fun call => is_leaf st0 (fst call)) calls ->
  exists st total,
    update_seq calls st0 = (st, Ok tt) /\
    SumTree.total_priority st = (st, Ok total) /\
    (total == Qsum (leaf_priorities st))%Q /\
    sum_invariant (SumTree.tree st).
Proof.
  intros Hinit Hleaves.
  destruct (init_wf c st0 Hinit) as (WF0 & C0 & SI0 & _).
  destruct (update_seq_leaves calls st0 WF0 SI0 Hleaves) as (st & E & WF & C & SI).
  exists st, (prio (SumTree.tree st) 0).
  split; [exact E |]. split; [now apply total_priority_wf |]. split; [| exact SI].
  destruct WF as (Hc & Hlen & _).
  unfold leaf_priorities. now apply root_is_leaf_total.
Qed.

Lemma update_seq_keeps_sums_witness :
  exists st total,
    update_seq [(1, (1 # 2)%Q); (2, (3 # 10)%Q); (1, (7 # 10)%Q)]
      (SumTree.mk 2 [0; 0; 0]%Q [@SumTree.Zero nat; SumTree.Zero] 0) = (st, Ok tt) /\
    SumTree.total_priority st = (st, Ok total) /\
    (total == Qsum (leaf_priorities st))%Q /\
    sum_invariant (SumTree.tree st).
Proof.
  apply (update_seq_keeps_sums nat 2).
  - reflexivity.
  - repeat constructor; cbn; lia.
Defined.

(** ** SumTree.get_leaf *)

Section SumTreeGetLeaf.
Context {R : Type}.
Implicit Types (s st : SumTree.t R).

(** The descent always reaches a node without children, whatever [v]. *)
Lemma descend_total (fuel : nat) : forall (node : Z) (v : Q) s (c : Z),
  len (SumTree.tree s) = 2 * c - 1 ->
  0 <= node < len (SumTree.tree s) ->
  (Z.to_nat (len (SumTree.tree s) - node) <= fuel)%nat ->
  exists leaf,
    SumTree.descend fuel node v s = (s, Ok leaf) /\
    node <= leaf < len (SumTree.tree s) /\
    len (SumTree.tree s) <= 2 * leaf + 1.
Proof.
  induction fuel as [| fuel IH]; intros node v s c Hlen Hnode Hfuel.
  - lia.
  - cbn [SumTree.descend].
    destruct (Z.leb_spec (len (SumTree.tree s)) (2 * node + 1)) as [Hleaf | Hinner].
    + exists node. repeat split; lia.
    + unfold bind. rewrite tree_get_in by lia.
      destruct (Qle_bool v (prio (SumTree.tree s) (2 * node + 1))).
      * destruct (IH (2 * node + 1) v s c Hlen) as (leaf & E & B1 & B2); try lia.
        exists leaf. rewrite E. repeat split; lia.
      * destruct (IH (2 * node + 1 + 1)
                    (v - prio (SumTree.tree s) (2 * node + 1))%Q s c Hlen)
          as (leaf & E & B1 & B2); try lia.
        exists leaf. rewrite E. repeat split; lia.
Qed.

(** Under the sum invariant a node holds the total of the leaves below. *)
Lemma subtree_mass (tr : list Q) (c : Z) (fuel : nat) : forall (node : Z),
  len tr = 2 * c - 1 -> sum_invariant tr ->
  0 <= node < len tr ->
  (Z.to_nat (len tr - node) <= fuel)%nat ->
  (prio tr node == mass tr (inorder_leaves fuel (len tr) node))%Q.
Proof.
  induction fuel as [| fuel IH]; intros node Hlen SI Hnode Hfuel.
  - lia.
  - cbn [inorder_leaves].
    destruct (Z.leb_spec (len tr) (2 * node + 1)) as [Hleaf | Hinner].
    + unfold mass, Qsum. cbn [map fold_right]. lra.
    + unfold mass. rewrite map_app, Qsum_app.
      fold (mass tr (inorder_leaves fuel (len tr) (2 * node + 1))).
      fold (mass tr (inorder_leaves fuel (len tr) (2 * node + 2))).
      rewrite <- !IH by (auto; lia).
      apply SI; lia.
Qed.

(** The descent from [node] with [0 <= v <= prio node]: the leaf reached
    brackets [v] between the mass to its left and that mass plus its own. *)
Lemma descend_brackets (fuel : nat) : forall (node : Z) (v : Q) s (c : Z),
  len (SumTree.tree s) = 2 * c - 1 ->
  sum_invariant (SumTree.tree s) ->
  0 <= node < len (SumTree.tree s) ->
  (Z.to_nat (len (SumTree.tree s) - node) <= fuel)%nat ->
  (0 <= v)%Q -> (v <= prio (SumTree.tree s) node)%Q ->
  exists leaf before after,
    SumTree.descend fuel node v s = (s, Ok leaf) /\
    inorder_leaves fuel (len (SumTree.tree s)) node = before ++ leaf :: after /\
    (mass (SumTree.tree s) before <= v)%Q /\
    (v <= mass (SumTree.tree s) before + prio (SumTree.tree s) leaf)%Q /\
    ((0 < v)%Q -> (mass (SumTree.tree s) before < v)%Q).
Proof.
  induction fuel as [| fuel IH]; intros node v s c Hlen SI Hnode Hfuel Hv0 Hv1.
  - lia.
  - cbn [SumTree.descend inorder_leaves].
    destruct (Z.leb_spec (len (SumTree.tree s)) (2 * node + 1)) as [Hleaf | Hinner].
    + exists node, [], []. unfold mass, Qsum. cbn [map fold_right app].
      repeat split; auto; lra.
    + unfold bind. rewrite tree_get_in by lia.
      pose proof (SI node ltac:(lia) ltac:(lia)) as Hsum.
      destruct (Qle_bool v (prio (SumTree.tree s) (2 * node + 1))) eqn:Hcmp.
      * apply Qle_bool_iff in Hcmp.
        destruct (IH (2 * node + 1) v s c Hlen SI) as (leaf & l1 & l2 & E & EL & B1 & B2 & B3);
          try lia; auto.
        exists leaf, l1, (l2 ++ inorder_leaves fuel (len (SumTree.tree s)) (2 * node + 2)).
        rewrite E, EL, <- app_assoc. cbn [app]. repeat split; auto.
      * assert (Hgt : (prio (SumTree.tree s) (2 * node + 1) < v)%Q).
        { apply Qnot_le_lt. intros Hle. apply Qle_bool_iff in Hle. congruence. }
        replace (2 * node + 1 + 1) with (2 * node + 2) by lia.
        destruct (IH (2 * node + 2) (v - prio (SumTree.tree s) (2 * node + 1))%Q s c Hlen SI)
          as (leaf & l1 & l2 & E & EL & B1 & B2 & B3); try lia; try lra.
        pose proof (subtree_mass (SumTree.tree s) c fuel (2 * node + 1) Hlen SI
                      ltac:(lia) ltac:(lia)) as Hleft.
        exists leaf, (inorder_leaves fuel (len (SumTree.tree s)) (2 * node + 1) ++ l1), l2.
        rewrite E, EL, <- app_assoc.
        assert (Hm : (mass (SumTree.tree s)
                        (inorder_leaves fuel (len (SumTree.tree s)) (2 * node + 1) ++ l1)
                      == prio (SumTree.tree s) (2 * node + 1) + mass (SumTree.tree s) l1)%Q).
        { unfold mass at 1. rewrite map_app, Qsum_app. fold (mass (SumTree.tree s) l1).
          rewrite Hleft. reflexivity. }
        specialize (B3 ltac:(lra)).
        repeat split; auto; rewrite Hm; lra.
Qed.

(** On a well-formed tree [get_leaf] returns for every [v], and what it
    returns is a leaf with its priority and its data cell. *)
Lemma get_leaf_total (v : Q) st :
  wf_tree st ->
  exists leaf d,
    SumTree.get_leaf v st = (st, Ok (leaf, prio (SumTree.tree st) leaf, d)) /\
    is_leaf st leaf /\
    getitem (SumTree.data st) (leaf - SumTree.capacity st + 1) = Ok d /\
    SumTree.descend (length (SumTree.tree st)) 0 v st = (st, Ok leaf).
Proof.
  intros (Hc & Hlen & Hd & Hp).
  destruct (descend_total (length (SumTree.tree st)) 0 v st (SumTree.capacity st) Hlen)
    as (leaf & E & B1 & B2); try (unfold len in *; lia).
  assert (Hdi : 0 <= leaf - SumTree.capacity st + 1 < len (SumTree.data st)) by lia.
  destruct (SumTree.data st) as [| d0 ds] eqn:Ed; [unfold len in Hdi; cbn in Hdi; lia |].
  rewrite <- Ed in *.
  exists leaf, (nth (Z.to_nat (leaf - SumTree.capacity st + 1)) (SumTree.data st) d0).
  unfold SumTree.get_leaf.
  unfold bind at 1. unfold gets at 1.
  unfold bind at 1. rewrite E.
  unfold bind at 1. unfold gets at 1.
  unfold bind at 1. rewrite tree_get_in by lia.
  unfold bind at 1. unfold SumTree.data_get.
  rewrite (getitem_nonneg _ _ d0 Hdi). unfold ret.
  repeat split; auto; unfold is_leaf; lia.
Qed.

End SumTreeGetLeaf.

(** ** The left-to-right order of the leaves *)

(** Every index listed by [inorder_leaves] is a node without children,
    inside the array. *)
Lemma inorder_leaves_childless (n c : Z) (fuel : nat) : forall (node : Z),
  n = 2 * c - 1 -> 0 <= node < n ->
  (Z.to_nat (n - node) <= fuel)%nat ->
  Forall (fun l => node <= l < n /\ n <= 2 * l + 1) (inorder_leaves fuel n node).
Proof.
  induction fuel as [| fuel IH]; intros node Hn Hnode Hfuel.
  - lia.
  - cbn [inorder_leaves].
    destruct (Z.leb_spec n (2 * node + 1)) as [Hleaf | Hinner].
    + constructor; [lia | constructor].
    + apply Forall_app. split.
      * eapply Forall_impl; [| apply (IH (2 * node + 1)); lia].
        cbv beta. intros l Hl. lia.
      * eapply Forall_impl; [| apply (IH (2 * node + 2)); lia].
        cbv beta. intros l Hl. lia.
Qed.

(** The leaves listed from left to right are leaves of the tree, and their
    total priority is the value at the root. *)
Lemma leaves_left_to_right_total {R : Type} (st : SumTree.t R) :
  wf_tree st -> sum_invariant (SumTree.tree st) ->
  Forall (is_leaf st) (leaves_left_to_right (SumTree.tree st)) /\
  (prio (SumTree.tree st) 0 == mass (SumTree.tree st) (leaves_left_to_right (SumTree.tree st)))%Q.
Proof.
  intros (Hc & Hlen & _) SI. unfold leaves_left_to_right. split.
  - eapply Forall_impl;
      [| apply (inorder_leaves_childless (len (SumTree.tree st)) (SumTree.capacity st));
         try (unfold len in *; lia)].
    cbv beta. intros l Hl. unfold is_leaf. lia.
  - apply (subtree_mass (SumTree.tree st) (SumTree.capacity st)); auto;
      unfold len in *; lia.
Qed.

(** C3, as the code has it.  For a well-formed SumTree whose inner nodes
    hold the sums of their children and for every [v] in
    [[0, total_priority)], [get_leaf v] returns a leaf such that, [before]
    being the leaves to its left in the tree, the mass of [before] is at
    most [v] and [v] is at most that mass plus the priority of the leaf
    (the upper bound is not strict: the comparison of the descent is [<=]).
    When [0 < v] the lower bound is strict and the leaf has a positive
    priority: a leaf of priority 0 is never drawn by a positive [v]. *)
Theorem get_leaf_brackets (R : Type) (st : SumTree.t R) (v : Q) :
  wf_tree st ->
  sum_invariant (SumTree.tree st) ->
  (0 <= v)%Q -> (v < prio (SumTree.tree st) 0)%Q ->
  exists leaf p d before after,
    SumTree.get_leaf v st = (st, Ok (leaf, p, d)) /\
    is_leaf st leaf /\
    p = prio (SumTree.tree st) leaf /\
    leaves_left_to_right (SumTree.tree st) = before ++ leaf :: after /\
    (mass (SumTree.tree st) before <= v)%Q /\
    (v <= mass (SumTree.tree st) before + p)%Q /\
    ((0 < v)%Q -> (mass (SumTree.tree st) before < v)%Q /\ (0 < p)%Q).
Proof.
  intros WF SI Hv0 Hv1.
  destruct (get_leaf_total v st WF) as (leaf & d & E & L & _ & Ed).
  destruct WF as (Hc & Hlen & _).
  destruct (descend_brackets (length (SumTree.tree st)) 0 v st (SumTree.capacity st)
              Hlen SI) as (leaf' & before & after & Ed' & EL & B1 & B2 & B3);
    try (unfold len in *; lia); try lra.
  assert (leaf' = leaf) by congruence. subst leaf'.
  exists leaf, (prio (SumTree.tree st) leaf), d, before, after.
  split; [exact E |]. split; [exact L |]. split; [reflexivity |].
  split; [exact EL |]. split; [exact B1 |]. split; [exact B2 |].
  intros Hpos. specialize (B3 Hpos). split; lra.
Qed.

Lemma get_leaf_brackets_witness :
  exists leaf p d before after,
    SumTree.get_leaf (3 # 2) tree_1_1 = (tree_1_1, Ok (leaf, p, d)) /\
    is_leaf tree_1_1 leaf /\
    p = prio (SumTree.tree tree_1_1) leaf /\
    leaves_left_to_right (SumTree.tree tree_1_1) = before ++ leaf :: after /\
    (mass (SumTree.tree tree_1_1) before <= 3 # 2)%Q /\
    (3 # 2 <= mass (SumTree.tree tree_1_1) before + p)%Q /\
    ((0 < 3 # 2)%Q -> (mass (SumTree.tree tree_1_1) before < 3 # 2)%Q /\ (0 < p)%Q).
Proof.
  apply (get_leaf_brackets nat tree_1_1 (3 # 2)).
  - unfold wf_tree, len, tree_1_1.
    cbn [SumTree.capacity SumTree.tree SumTree.data SumTree.data_pointer length]. lia.
  - intros i Hi Hc. unfold len, tree_1_1 in Hc. cbn [SumTree.tree length] in Hc.
    assert (i = 0) by lia. subst i. reflexivity.
  - discriminate.
  - reflexivity.
Defined.

(** C3, as stated, fails on the boundary between two leaves: in the tree
    with leaf priorities 1 and 1 (total 2), [get_leaf 1] returns the first
    leaf; no leaf lies before it, and [1 < 0 + 1] does not hold. *)
Lemma get_leaf_boundary_counterexample :
  fst (update_seq [(1, 1%Q); (2, 1%Q)]
         (SumTree.mk 2 [0; 0; 0]%Q [SumTree.Item 10%nat; SumTree.Item 11%nat] 0))
    = tree_1_1 /\
  (0 <= 1)%Q /\ (1 < prio (SumTree.tree tree_1_1) 0)%Q /\
  SumTree.get_leaf 1 tree_1_1 = (tree_1_1, Ok (1, 1%Q, SumTree.Item 10%nat)) /\
  leaves_left_to_right (SumTree.tree tree_1_1) = [] ++ 1 :: [2] /\
  ~ (1 < mass (SumTree.tree tree_1_1) [] + 1)%Q.
Proof.
  repeat split; try reflexivity; discriminate.
Qed.

(** A leaf that never received a record is drawn by [v = 0] when it is the
    leftmost leaf of the tree: with [capacity = 3] the first record goes to
    tree index 2, and [get_leaf 0] returns index 3, of priority 0, whose
    data cell still holds the initial 0. *)
Lemma get_leaf_draws_empty_leaf :
  let st := SumTree.mk 3 [1; 0; 1; 0; 0]%Q
              [SumTree.Item 10%nat; SumTree.Zero; SumTree.Zero] 1 in
  (exists st0, SumTree.init 3 = Ok st0 /\ fst (SumTree.add 1 10%nat st0) = st) /\
  (0 <= 0)%Q /\ (0 < prio (SumTree.tree st) 0)%Q /\
  SumTree.get_leaf 0 st = (st, Ok (3, 0%Q, SumTree.Zero)).
Proof.
  cbv zeta. split; [eexists; split; reflexivity |].
  repeat split; try reflexivity; discriminate.
Qed.

(** ** ExperienceReplay: the buffer in uniform mode *)

Ltac er_simpl :=
  cbn [ExperienceReplay.capacity ExperienceReplay.storage_size
       ExperienceReplay.include_last ExperienceReplay.prioritized
       ExperienceReplay.save_experience ExperienceReplay.buffer
       ExperienceReplay.PER_b ExperienceReplay.self ExperienceReplay.heap
       ExperienceReplay.disk ExperienceReplay.set_buffer ExperienceReplay.set_PER_b
       ExperienceReplay.set_self ExperienceReplay.set_heap ExperienceReplay.set_disk
       fst snd] in *.

(** The monad laws used to run a method on a given state. *)
Section MonadLaws.
Context {S A B : Type}.
Implicit Types (k : A -> M S B) (s : S).

Lemma bind_gets (f : S -> A) k s : bind (gets f) k s = k (f s) s.
Proof. reflexivity. Qed.

Lemma bind_ret (a : A) k s : bind (ret a) k s = k a s.
Proof. reflexivity. Qed.

Lemma bind_lift_ok (a : A) k s : bind (lift (Ok a)) k s = k a s.
Proof. reflexivity. Qed.

Lemma bind_lift_raise (e : exn) k s : bind (lift (Raise e)) k s = (s, Raise e).
Proof. reflexivity. Qed.

Lemma bind_raise (e : exn) k s : bind (raise e) k s = (s, Raise e).
Proof. reflexivity. Qed.

Lemma bind_modify (f : S -> S) (k' : unit -> M S B) s : bind (modify f) k' s = k' tt (f s).
Proof. reflexivity. Qed.

Lemma bind_ok (m : M S A) k s s' (a : A) : m s = (s', Ok a) -> bind m k s = k a s'.
Proof. intros E. unfold bind. now rewrite E. Qed.

Lemma bind_fail (m : M S A) k s s' (e : exn) :
  m s = (s', Raise e) -> bind m k s = (s', Raise e).
Proof. intros E. unfold bind. now rewrite E. Qed.

End MonadLaws.

Lemma bind_assoc {S A B C : Type} (m : M S A) (f : A -> M S B) (k : B -> M S C) (s : S) :
  bind (bind m f) k s = bind m (fun x => bind (f x) k) s.
Proof. unfold bind. destruct (m s) as [s' [a | e |]]; reflexivity. Qed.

Ltac step :=
  repeat (rewrite bind_assoc || rewrite bind_gets || rewrite bind_ret ||
          rewrite bind_lift_ok || rewrite bind_lift_raise || rewrite bind_raise ||
          rewrite bind_modify);
  er_simpl.

Section LastN.
Context {A : Type}.
Implicit Types (l a b : list A).

Lemma lastn_all (k : nat) l : (length l <= k)%nat -> lastn k l = l.
Proof.
  intros H. unfold lastn. replace (length l - k)%nat with 0%nat by lia. reflexivity.
Qed.

Lemma lastn_length (k : nat) l : length (lastn k l) = Nat.min k (length l).
Proof. unfold lastn. rewrite length_skipn. lia. Qed.

Lemma skipn_app_left (n : nat) a b :
  (n <= length a)%nat -> skipn n (a ++ b) = skipn n a ++ b.
Proof.
  intros H. rewrite skipn_app. replace (n - length a)%nat with 0%nat by lia.
  reflexivity.
Qed.

Lemma lastn_app_lastn (k : nat) a b : lastn k (lastn k a ++ b) = lastn k (a ++ b).
Proof.
  unfold lastn at 1 3. rewrite !length_app, lastn_length.
  unfold lastn. rewrite <- skipn_app_left by lia.
  rewrite skipn_skipn. f_equal. lia.
Qed.

Lemma lastn_snoc_tail (k : nat) a (x : A) :
  (length a <= k)%nat ->
  (if Z.of_nat k <? len (a ++ [x]) then tl (a ++ [x]) else a ++ [x]) = lastn k (a ++ [x]).
Proof.
  intros H. unfold len. rewrite length_app. cbn [length].
  destruct (Z.ltb_spec (Z.of_nat k) (Z.of_nat (length a + 1))) as [Hlt | Hge].
  - assert (length a = k) by lia. unfold lastn. rewrite length_app. cbn [length].
    replace (length a + 1 - k)%nat with 1%nat by lia.
    destruct a; reflexivity.
  - rewrite lastn_all; [reflexivity |]. rewrite length_app. cbn [length]. lia.
Qed.

End LastN.

Section UniformBuffer.
Context {R : Type}.
Implicit Types (w : ExperienceReplay.world R) (s : ExperienceReplay.t R).

(** [add] in uniform mode: the record goes to the right end, and the left
    end is dropped when the deque is full. *)
Lemma add_uniform w (items : list R) (r : R) :
  ExperienceReplay.prioritized (ExperienceReplay.self w) = false ->
  ExperienceReplay.buffer (ExperienceReplay.self w) =
    ExperienceReplay.Deque items (ExperienceReplay.capacity (ExperienceReplay.self w)) ->
  0 <= ExperienceReplay.capacity (ExperienceReplay.self w) ->
  len items <= ExperienceReplay.capacity (ExperienceReplay.self w) ->
  ExperienceReplay.add r w =
  (ExperienceReplay.set_self
     (ExperienceReplay.set_buffer
        (ExperienceReplay.Deque
           (lastn (Z.to_nat (ExperienceReplay.capacity (ExperienceReplay.self w)))
                  (items ++ [r]))
           (ExperienceReplay.capacity (ExperienceReplay.self w)))
        (ExperienceReplay.self w)) w,
   Ok tt).
Proof.
  intros Hp Hb Hc Hl. destruct w as [s h d]. er_simpl.
  unfold ExperienceReplay.add. step. rewrite Hp. cbn [negb].
  set (c := ExperienceReplay.capacity s) in *.
  pose proof (lastn_snoc_tail (Z.to_nat c) items r ltac:(unfold len in Hl; lia)) as E.
  rewrite Z2Nat.id in E by lia.
  erewrite bind_ok;
    [| unfold ExperienceReplay.deque_append; er_simpl; rewrite Hb, E; reflexivity].
  unfold ExperienceReplay.buffer_size. step.
  unfold ExperienceReplay.buffer_size_of. er_simpl. fold c.
  assert (Hle : len (lastn (Z.to_nat c) (items ++ [r])) <= c).
  { unfold len. rewrite lastn_length. lia. }
  destruct (Z.ltb_spec c (len (lastn (Z.to_nat c) (items ++ [r])))); [lia |].
  reflexivity.
Qed.

Lemma add_seq_uniform (rs : list R) : forall w (items : list R),
  ExperienceReplay.prioritized (ExperienceReplay.self w) = false ->
  ExperienceReplay.buffer (ExperienceReplay.self w) =
    ExperienceReplay.Deque items (ExperienceReplay.capacity (ExperienceReplay.self w)) ->
  0 <= ExperienceReplay.capacity (ExperienceReplay.self w) ->
  len items <= ExperienceReplay.capacity (ExperienceReplay.self w) ->
  add_seq rs w =
  (ExperienceReplay.set_self
     (ExperienceReplay.set_buffer
        (ExperienceReplay.Deque
           (lastn (Z.to_nat (ExperienceReplay.capacity (ExperienceReplay.self w)))
                  (items ++ rs))
           (ExperienceReplay.capacity (ExperienceReplay.self w)))
        (ExperienceReplay.self w)) w,
   Ok tt).
Proof.
  induction rs as [| r rs IH]; intros w items Hp Hb Hc Hl.
  - cbn [add_seq]. unfold ret. rewrite app_nil_r.
    rewrite lastn_all by (unfold len in Hl; lia).
    destruct w as [s h d], s. er_simpl. subst. reflexivity.
  - cbn [add_seq]. unfold bind.
    rewrite (add_uniform w items r Hp Hb Hc Hl).
    rewrite (IH _ (lastn (Z.to_nat (ExperienceReplay.capacity (ExperienceReplay.self w)))
                         (items ++ [r]))); er_simpl; auto.
    + rewrite lastn_app_lastn, <- app_assoc. reflexivity.
    + unfold len. rewrite lastn_length. lia.
Qed.

End UniformBuffer.

(** ** ExperienceReplay.sample in uniform mode *)

Lemma range_length (n : Z) : len (range n) = Z.max 0 n.
Proof. unfold range, len. rewrite length_map, length_seq. lia. Qed.

Lemma random_sample_too_large {A : Type} (population : list A) (k : Z) (rnd : nat -> nat) :
  len population < k -> random_sample population k rnd = Raise ValueError.
Proof.
  intros H. unfold random_sample.
  destruct (Z.ltb_spec (len population) k); [| lia].
  now rewrite orb_true_r.
Qed.

Lemma draw_pool_length {A : Type} (k : nat) : forall (pool : list A) (rnd : nat -> nat),
  (k <= length pool)%nat -> length (draw_pool k pool rnd) = k.
Proof.
  induction k as [| k IH]; intros pool rnd H; [reflexivity |].
  cbn [draw_pool].
  assert (Hj : (rnd 0%nat mod length pool < length pool)%nat)
    by (apply Nat.mod_upper_bound; lia).
  destruct (nth_error pool (rnd 0%nat mod length pool)) eqn:E.
  - cbn [length]. f_equal. apply IH.
    assert (L : forall (j : nat) (l : list A),
               (j < length l)%nat -> length (remove_nth j l) = (length l - 1)%nat).
    { clear. intros j l. revert j. induction l as [| x l IHl]; intros [| j] H; cbn in *;
        try lia. rewrite IHl by lia. lia. }
    rewrite L by assumption. lia.
  - apply nth_error_None in E. lia.
Qed.

Lemma random_sample_ok {A : Type} (population : list A) (k : Z) (rnd : nat -> nat) :
  0 <= k <= len population ->
  exists batch, random_sample population k rnd = Ok batch /\ len batch = k.
Proof.
  intros H. unfold random_sample.
  destruct (Z.ltb_spec k 0); [lia |].
  destruct (Z.ltb_spec (len population) k); [lia |]. cbn [orb].
  eexists. split; [reflexivity |].
  unfold len in *. rewrite draw_pool_length; lia.
Qed.

(** The recency loop after [k] rounds: the last [k] positions of the batch
    hold the last [k] entries of the buffer, the others are untouched. *)
Lemma replace_last {A : Type} (l : list A) (x : A) (k : nat) :
  (k < length l)%nat ->
  replace_nth (length l - S k) x l =
  firstn (length l - S k) l ++ x :: skipn (length l - k) l.
Proof.
  intros H.
  assert (G : forall (n : nat) (m : list A), (n < length m)%nat ->
            replace_nth n x m = firstn n m ++ x :: skipn (S n) m).
  { clear. intros n m. revert n. induction m as [| y m IH]; intros [| n] H; cbn in *;
      try lia; [reflexivity |]. now rewrite IH by lia. }
  rewrite G by lia. repeat f_equal. lia.
Qed.

Lemma skipn_nth_cons {A : Type} (l : list A) (n : nat) (d : A) :
  (n < length l)%nat -> skipn n l = nth n l d :: skipn (S n) l.
Proof.
  revert n. induction l as [| x l IH]; intros [| n] H; cbn in *; try lia;
    [reflexivity |]. apply IH. lia.
Qed.

Lemma force_last_spec {R : Type} (buf : list R) (n : nat) : forall (k : nat) (batch : list R),
  (k + n <= length batch)%nat -> (k + n <= length buf)%nat ->
  skipn (length batch - k) batch = skipn (length buf - k) buf ->
  exists batch',
    ExperienceReplay.force_last (map Z.of_nat (seq k n)) buf batch = Ok batch' /\
    length batch' = length batch /\
    firstn (length batch - (k + n)) batch' = firstn (length batch - (k + n)) batch /\
    skipn (length batch - (k + n)) batch' = skipn (length buf - (k + n)) buf.
Proof.
  induction n as [| n IH]; intros k batch Hb Hbuf Hsuf.
  - exists batch. rewrite Nat.add_0_r. cbn. auto.
  - cbn [seq map ExperienceReplay.force_last].
    destruct buf as [| d buf']; [cbn in Hbuf; lia |].
    set (buf := d :: buf') in *.
    rewrite (getitem_negative buf _ d) by (unfold len; lia).
    rewrite setitem_negative by (unfold len; lia).
    replace (Z.to_nat (- (Z.of_nat k + 1) + len batch)) with (length batch - S k)%nat
      by (unfold len; lia).
    replace (Z.to_nat (- (Z.of_nat k + 1) + len buf)) with (length buf - S k)%nat
      by (unfold len; lia).
    set (x := nth (length buf - S k) buf d).
    set (batch1 := replace_nth (length batch - S k) x batch).
    assert (L1 : length batch1 = length batch) by apply replace_nth_length.
    assert (E1 : batch1 = firstn (length batch - S k) batch ++ x :: skipn (length batch - k) batch)
      by (apply replace_last; lia).
    destruct (IH (S k) batch1) as (batch' & E & L & F & S'); try lia.
    + rewrite L1. rewrite E1 at 1.
      rewrite skipn_app, skipn_all2 by (rewrite length_firstn; lia).
      rewrite length_firstn.
      replace (length batch - S k - Nat.min (length batch - S k) (length batch))%nat
        with 0%nat by lia.
      cbn [app skipn]. rewrite Hsuf.
      rewrite (skipn_nth_cons buf (length buf - S k) d) by lia.
      unfold x. do 2 f_equal. lia.
    + exists batch'. rewrite E. rewrite L1 in *.
      replace (k + S n)%nat with (S k + n)%nat by lia.
      repeat split; auto.
      rewrite F. rewrite E1.
      rewrite firstn_app, firstn_firstn, length_firstn.
      replace (length batch - (S k + n) - Nat.min (length batch - S k) (length batch))%nat
        with 0%nat by lia.
      rewrite Nat.min_l by lia. cbn [firstn]. now rewrite app_nil_r.
Qed.

Section UniformSample.
Context {R : Type}.
Variable np_power : Q -> Q -> Q.
Implicit Types (w : ExperienceReplay.world R).

Lemma as_sequence_deque w (items : list R) (maxlen : Z) :
  ExperienceReplay.buffer (ExperienceReplay.self w) = ExperienceReplay.Deque items maxlen ->
  ExperienceReplay.as_sequence w = (w, Ok items).
Proof. intros Hb. unfold ExperienceReplay.as_sequence. now rewrite Hb. Qed.

Lemma buffer_size_deque w (items : list R) (maxlen : Z) :
  ExperienceReplay.buffer (ExperienceReplay.self w) = ExperienceReplay.Deque items maxlen ->
  ExperienceReplay.buffer_size_of (ExperienceReplay.self w) = len items.
Proof. intros Hb. unfold ExperienceReplay.buffer_size_of. now rewrite Hb. Qed.

(** Uniform sampling of single records, when the buffer holds enough. *)
Lemma sample_uniform_ok w (items : list R) (maxlen batch_size trace_length : Z)
  (rnd : nat -> nat) (unif : nat -> Q) :
  ExperienceReplay.prioritized (ExperienceReplay.self w) = false ->
  ExperienceReplay.buffer (ExperienceReplay.self w) = ExperienceReplay.Deque items maxlen ->
  trace_length <= 1 ->
  0 <= ExperienceReplay.include_last (ExperienceReplay.self w) <= batch_size ->
  batch_size <= len items ->
  exists batch,
    ExperienceReplay.sample np_power batch_size trace_length rnd unif w =
      (w, Ok (None, ExperienceReplay.Flat batch, None)) /\
    len batch = batch_size /\
    lastn (Z.to_nat (ExperienceReplay.include_last (ExperienceReplay.self w))) batch =
    lastn (Z.to_nat (ExperienceReplay.include_last (ExperienceReplay.self w))) items.
Proof.
  intros Hp Hb Htl Hil Hbs.
  destruct (random_sample_ok items batch_size rnd ltac:(lia)) as (batch0 & E0 & L0).
  set (il := ExperienceReplay.include_last (ExperienceReplay.self w)) in *.
  destruct (force_last_spec items (Z.to_nat il) 0 batch0) as (batch & E & L & _ & S').
  - unfold len in *. lia.
  - unfold len in *. lia.
  - rewrite !Nat.sub_0_r, !skipn_all. reflexivity.
  - exists batch. unfold ExperienceReplay.sample.
    rewrite bind_gets, Hp. cbn [negb].
    destruct (Z.ltb_spec 1 trace_length); [lia |].
    rewrite (bind_ok _ _ _ _ _ (as_sequence_deque w items maxlen Hb)).
    rewrite E0, bind_lift_ok, bind_gets. fold il.
    unfold range. rewrite E, bind_lift_ok. unfold ret.
    split; [reflexivity |]. split; [unfold len in *; lia |].
    unfold lastn. rewrite L. exact S'.
Qed.

(** Uniform sampling with a batch larger than the buffer. *)
Lemma sample_uniform_short w (items : list R) (maxlen batch_size trace_length : Z)
  (rnd : nat -> nat) (unif : nat -> Q) :
  ExperienceReplay.prioritized (ExperienceReplay.self w) = false ->
  ExperienceReplay.buffer (ExperienceReplay.self w) = ExperienceReplay.Deque items maxlen ->
  len items < batch_size ->
  ExperienceReplay.sample np_power batch_size trace_length rnd unif w = (w, Raise ValueError).
Proof.
  intros Hp Hb Hbs. unfold ExperienceReplay.sample.
  rewrite bind_gets, Hp. cbn [negb].
  pose proof (len_nonneg items) as Hn.
  destruct (Z.ltb_spec 1 trace_length) as [Htl | Htl].
  - unfold ExperienceReplay.buffer_size. rewrite bind_gets.
    rewrite (buffer_size_deque w items maxlen Hb).
    rewrite random_sample_too_large by (rewrite range_length; lia).
    reflexivity.
  - rewrite (bind_ok _ _ _ _ _ (as_sequence_deque w items maxlen Hb)).
    rewrite random_sample_too_large by lia.
    reflexivity.
Qed.

End UniformSample.

(** C8.  In uniform mode with [trace_length = 1] and
    [include_last <= batch_size]: whenever [sample] returns, the batch has
    [batch_size] records and its last [include_last] positions hold the
    [include_last] most recent entries of the buffer, in the order of the
    buffer (most recent last), whatever the random draw; and it does return
    whenever the buffer holds at least [batch_size] records. *)
Theorem sample_uniform_forces_recent (R : Type) (np_power : Q -> Q -> Q)
  (w : ExperienceReplay.world R) (items : list R) (maxlen batch_size : Z)
  (rnd : nat -> nat) (unif : nat -> Q) :
  ExperienceReplay.prioritized (ExperienceReplay.self w) = false ->
  ExperienceReplay.buffer (ExperienceReplay.self w) = ExperienceReplay.Deque items maxlen ->
  0 <= ExperienceReplay.include_last (ExperienceReplay.self w) <= batch_size ->
  (forall res,
     snd (ExperienceReplay.sample np_power batch_size 1 rnd unif w) = Ok res ->
     exists batch,
       res = (None, ExperienceReplay.Flat batch, None) /\
       len batch = batch_size /\
       lastn (Z.to_nat (ExperienceReplay.include_last (ExperienceReplay.self w))) batch =
       lastn (Z.to_nat (ExperienceReplay.include_last (ExperienceReplay.self w))) items) /\
  (batch_size <= len items ->
   exists res, ExperienceReplay.sample np_power batch_size 1 rnd unif w = (w, Ok res)).
Proof.
  intros Hp Hb Hil.
  destruct (Z.le_gt_cases batch_size (len items)) as [Hle | Hgt].
  - destruct (sample_uniform_ok np_power w items maxlen batch_size 1 rnd unif
                Hp Hb ltac:(lia) Hil Hle) as (batch & E & L & S').
    split.
    + intros res Hres. rewrite E in Hres. cbn [snd] in Hres.
      exists batch. split; [congruence | auto].
    + intros _. eexists. exact E.
  - split; [| lia].
    intros res Hres.
    rewrite (sample_uniform_short np_power w items maxlen batch_size 1 rnd unif Hp Hb)
      in Hres by lia.
    discriminate.
Qed.

Lemma sample_uniform_forces_recent_witness :
  (forall res,
     snd (ExperienceReplay.sample sample_power 5 1 (fun n => n) (fun _ => 0%Q)
            (uniform_world [1; 2; 3; 4; 5]%nat)) = Ok res ->
     exists batch,
       res = (None, ExperienceReplay.Flat batch, None) /\
       len batch = 5 /\
       lastn 2 batch = lastn 2 [1; 2; 3; 4; 5]%nat) /\
  (5 <= len [1; 2; 3; 4; 5]%nat ->
   exists res,
     ExperienceReplay.sample sample_power 5 1 (fun n => n) (fun _ => 0%Q)
       (uniform_world [1; 2; 3; 4; 5]%nat)
     = (uniform_world [1; 2; 3; 4; 5]%nat, Ok res)).
Proof.
  refine (sample_uniform_forces_recent nat sample_power
            (uniform_world [1; 2; 3; 4; 5]%nat) [1; 2; 3; 4; 5]%nat 5 5
            (fun n => n) (fun _ => 0%Q) eq_refl eq_refl _).
  cbn. lia.
Defined.

(** C2, as the code has it.  In uniform mode a [sample] call whose
    [batch_size] exceeds the number of stored records raises [ValueError],
    whatever the trace length, and leaves the store as it was: the error
    is the one [random.sample] raises for a sample larger than its
    population, there is no check in the method itself. *)
Theorem sample_uniform_insufficient (R : Type) (np_power : Q -> Q -> Q)
  (w : ExperienceReplay.world R) (items : list R) (maxlen batch_size trace_length : Z)
  (rnd : nat -> nat) (unif : nat -> Q) :
  ExperienceReplay.prioritized (ExperienceReplay.self w) = false ->
  ExperienceReplay.buffer (ExperienceReplay.self w) = ExperienceReplay.Deque items maxlen ->
  ExperienceReplay.buffer_size_of (ExperienceReplay.self w) < batch_size ->
  ExperienceReplay.sample np_power batch_size trace_length rnd unif w = (w, Raise ValueError).
Proof.
  intros Hp Hb Hbs. rewrite (buffer_size_deque w items maxlen Hb) in Hbs.
  now apply (sample_uniform_short np_power w items maxlen).
Qed.

Lemma sample_uniform_insufficient_witness :
  ExperienceReplay.sample sample_power 4 1 (fun n => n) (fun _ => 0%Q)
    (uniform_world [1; 2; 3]%nat)
  = (uniform_world [1; 2; 3]%nat, Raise ValueError).
Proof.
  refine (sample_uniform_insufficient nat sample_power (uniform_world [1; 2; 3]%nat)
            [1; 2; 3]%nat 5 4 1 (fun n => n) (fun _ => 0%Q) eq_refl eq_refl _).
  cbn. lia.
Defined.

(** C2, as stated, fails in prioritized mode: a store of capacity 2 that
    holds one record (size 1) answers [sample(2)] with a batch of two. *)
Lemma sample_prioritized_no_size_check :
  exists s0 : ExperienceReplay.t nat,
    ExperienceReplay.init true true 2 5000 3 = Ok s0 /\
    let w := fst (ExperienceReplay.add 7%nat (new_world s0)) in
    ExperienceReplay.buffer_size_of (ExperienceReplay.self w) = 1 /\
    1 < 2 /\
    exists w' idx ws,
      ExperienceReplay.sample sample_power 2 1 (fun n => n) (fun _ => (1 # 2)%Q) w
      = (w', Ok (Some idx, ExperienceReplay.Cells [SumTree.Item 7%nat; SumTree.Item 7%nat],
                 Some ws)).
Proof.
  eexists. split; [reflexivity |]. cbv zeta.
  split; [reflexivity |]. split; [lia |].
  do 3 eexists. vm_compute. reflexivity.
Qed.

(** ** Insertion in prioritized mode *)

Section PrioritizedAdd.
Context {R : Type}.
Implicit Types (st : SumTree.t R) (w : ExperienceReplay.world R).

Lemma data_set_in st (i : Z) (x : SumTree.slot R) :
  0 <= i < len (SumTree.data st) ->
  SumTree.data_set i x st =
  (SumTree.set_data (replace_nth (Z.to_nat i) x (SumTree.data st)) st, Ok tt).
Proof.
  intros H. unfold SumTree.data_set. now rewrite setitem_nonneg.
Qed.

(** [SumTree.add] on a well-formed tree: the record replaces the one at
    [data_pointer], its leaf takes the priority, and the pointer moves on
    around the ring. *)
Lemma sumtree_add_ok st (p : Q) (r : R) :
  wf_tree st ->
  exists st',
    SumTree.add p r st = (st', Ok tt) /\
    wf_tree st' /\
    SumTree.capacity st' = SumTree.capacity st /\
    SumTree.data_pointer st' = (SumTree.data_pointer st + 1) mod SumTree.capacity st /\
    SumTree.data st' =
      replace_nth (Z.to_nat (SumTree.data_pointer st)) (SumTree.Item r) (SumTree.data st) /\
    prio (SumTree.tree st') (SumTree.data_pointer st + SumTree.capacity st - 1) = p /\
    (sum_invariant (SumTree.tree st) -> sum_invariant (SumTree.tree st')).
Proof.
  intros WF. pose proof WF as (Hc & Hlen & Hd & Hp).
  set (dp := SumTree.data_pointer st) in *. set (c := SumTree.capacity st) in *.
  set (st1 := SumTree.set_data (replace_nth (Z.to_nat dp) (SumTree.Item r) (SumTree.data st)) st).
  assert (WF1 : wf_tree st1).
  { unfold wf_tree, st1. st_simpl. rewrite replace_nth_len. auto. }
  destruct (update_leaf st1 (dp + c - 1) p WF1) as (st2 & E2 & WF2 & C2 & D2 & P2 & Pr & _ & I2).
  { unfold is_leaf, st1. st_simpl. fold c. lia. }
  unfold st1 in C2, D2, P2, I2. st_simpl. fold c dp in C2, P2.
  pose proof WF2 as (Hc2 & Hlen2 & Hd2 & Hp2). rewrite C2, P2 in *.
  exists (SumTree.set_data_pointer ((dp + 1) mod c) st2).
  split.
  - unfold SumTree.add. rewrite !bind_gets. fold dp c.
    rewrite (bind_ok _ _ _ _ _ (data_set_in st dp (SumTree.Item r) ltac:(lia))).
    fold st1. rewrite (bind_ok _ _ _ _ _ E2).
    rewrite bind_modify, !bind_gets. st_simpl. rewrite C2, P2.
    destruct (Z.leb_spec c (dp + 1)) as [Hw | Hw].
    + assert (dp + 1 = c) by lia.
      replace ((dp + 1) mod c) with 0 by (replace (dp + 1) with c by lia; now rewrite Z.mod_same by lia).
      destruct st2; reflexivity.
    + rewrite Z.mod_small by lia. destruct st2; reflexivity.
  - assert (0 <= (dp + 1) mod c < c) by (apply Z.mod_pos_bound; lia).
    unfold wf_tree. st_simpl. rewrite C2. repeat split; auto; lia.
Qed.

Lemma leaf_priorities_nonempty st :
  wf_tree st -> exists x xs, leaf_priorities st = x :: xs.
Proof.
  intros (Hc & Hlen & _). unfold leaf_priorities.
  rewrite slice_last by lia.
  destruct (skipn (Z.to_nat (len (SumTree.tree st) - SumTree.capacity st)) (SumTree.tree st))
    as [| x xs] eqn:E.
  - apply (f_equal (@length Q)) in E. rewrite length_skipn in E.
    unfold len in *. cbn [length] in E. lia.
  - eauto.
Qed.

Lemma on_tree_run {A : Type} (m : M (SumTree.t R) A) w st st' (r : outcome A) :
  ExperienceReplay.buffer (ExperienceReplay.self w) = ExperienceReplay.Tree st ->
  m st = (st', r) ->
  ExperienceReplay.on_tree m w =
  (ExperienceReplay.set_self
     (ExperienceReplay.set_buffer (ExperienceReplay.Tree st') (ExperienceReplay.self w)) w, r).
Proof. intros Hb E. unfold ExperienceReplay.on_tree. now rewrite Hb, E. Qed.

(** A method that leaves the tree as it is leaves the world as it is. *)
Lemma on_tree_read {A : Type} (m : M (SumTree.t R) A) w st (r : outcome A) :
  ExperienceReplay.buffer (ExperienceReplay.self w) = ExperienceReplay.Tree st ->
  m st = (st, r) ->
  ExperienceReplay.on_tree m w = (w, r).
Proof.
  intros Hb E. rewrite (on_tree_run m w st st r Hb E).
  destruct w as [s h d], s. er_simpl. subst. reflexivity.
Qed.

(** [add] in prioritized mode on a well-formed store. *)
Lemma add_prioritized w st (r : R) :
  ExperienceReplay.prioritized (ExperienceReplay.self w) = true ->
  ExperienceReplay.buffer (ExperienceReplay.self w) = ExperienceReplay.Tree st ->
  wf_tree st ->
  exists st',
    ExperienceReplay.add r w =
      (ExperienceReplay.set_self
         (ExperienceReplay.set_buffer (ExperienceReplay.Tree st') (ExperienceReplay.self w)) w,
       Ok tt) /\
    wf_tree st' /\
    SumTree.capacity st' = SumTree.capacity st /\
    SumTree.data_pointer st' = (SumTree.data_pointer st + 1) mod SumTree.capacity st /\
    (sum_invariant (SumTree.tree st) -> sum_invariant (SumTree.tree st')).
Proof.
  intros Hp Hb WF.
  destruct (leaf_priorities_nonempty st WF) as (x & xs & El).
  set (m := fold_left Qmax xs x).
  destruct (sumtree_add_ok st
              (if Qeq_bool m 0 then ExperienceReplay.absolute_error_upper else m) r WF)
    as (st' & E & WF' & C' & D' & _ & _ & I').
  exists st'. split; [| auto].
  unfold ExperienceReplay.add. rewrite bind_gets, Hp. cbn [negb].
  erewrite bind_ok; [| apply (on_tree_read _ w st); [exact Hb | reflexivity]].
  fold (leaf_priorities st). rewrite El. cbn [np_max]. rewrite bind_lift_ok. fold m.
  apply (on_tree_run _ w st st' _ Hb E).
Qed.

Lemma add_seq_prioritized (rs : list R) : forall w st,
  ExperienceReplay.prioritized (ExperienceReplay.self w) = true ->
  ExperienceReplay.buffer (ExperienceReplay.self w) = ExperienceReplay.Tree st ->
  wf_tree st ->
  exists st',
    add_seq rs w =
      (ExperienceReplay.set_self
         (ExperienceReplay.set_buffer (ExperienceReplay.Tree st') (ExperienceReplay.self w)) w,
       Ok tt) /\
    wf_tree st' /\
    SumTree.capacity st' = SumTree.capacity st /\
    SumTree.data_pointer st' =
      (SumTree.data_pointer st + len rs) mod SumTree.capacity st /\
    (sum_invariant (SumTree.tree st) -> sum_invariant (SumTree.tree st')).
Proof.
  induction rs as [| r rs IH]; intros w st Hp Hb WF.
  - exists st. cbn [add_seq]. unfold ret, len. cbn [length].
    pose proof WF as (Hc & _ & _ & Hdp).
    rewrite Z.add_0_r, Z.mod_small by lia.
    split; [destruct w as [s h d], s; er_simpl; subst; reflexivity |].
    split; [exact WF |]. split; [reflexivity |]. split; [reflexivity | auto].
  - destruct (add_prioritized w st r Hp Hb WF) as (st1 & E1 & WF1 & C1 & D1 & I1).
    destruct (IH (ExperienceReplay.set_self
                    (ExperienceReplay.set_buffer (ExperienceReplay.Tree st1)
                       (ExperienceReplay.self w)) w) st1 Hp eq_refl WF1)
      as (st' & E' & WF' & C' & D' & I').
    exists st'. cbn [add_seq].
    rewrite (bind_ok _ _ _ _ _ E1), E'. er_simpl.
    split; [reflexivity |]. split; [assumption |]. split; [congruence |].
    split; [| tauto].
    rewrite D', D1, C1. unfold len. cbn [length].
    pose proof WF as (Hc & _).
    rewrite Zplus_mod_idemp_l. f_equal. lia.
Qed.

End PrioritizedAdd.

(** ** The size of the store *)

Section StoreSize.
Context {R : Type}.
Implicit Types (w : ExperienceReplay.world R) (s : ExperienceReplay.t R).

Lemma init_wf_store (save prioritized : bool) (c ss il : Z) s :
  ExperienceReplay.init save prioritized c ss il = Ok s ->
  wf_store s /\ ExperienceReplay.capacity s = c /\
  ExperienceReplay.prioritized s = prioritized /\
  ExperienceReplay.PER_b s = ExperienceReplay.PER_b0 /\
  ExperienceReplay.buffer_size_of s = 0.
Proof.
  unfold ExperienceReplay.init. destruct prioritized.
  - destruct (SumTree.init c) as [st | e |] eqn:Ei; try discriminate.
    intros E. assert (Es : s = ExperienceReplay.mk c ss il true save
                                 (ExperienceReplay.Tree st) ExperienceReplay.PER_b0)
      by congruence.
    subst s. clear E.
    destruct (init_wf c st Ei) as (WF & C & _ & _ & _ & Dp).
    unfold wf_store, ExperienceReplay.buffer_size_of. er_simpl. auto.
  - destruct (Z.ltb_spec c 0); [discriminate |].
    intros E. assert (Es : s = ExperienceReplay.mk c ss il false save
                                 (ExperienceReplay.Deque [] c) ExperienceReplay.PER_b0)
      by congruence.
    subst s. clear E.
    unfold wf_store, ExperienceReplay.buffer_size_of, len. er_simpl. cbn [length].
    repeat split; auto; lia.
Qed.

(** Uniform mode: after any sequence of [add] calls on a new store the
    buffer holds the last [capacity] records added, oldest first, so its
    size is the number of calls up to [capacity] and [capacity] beyond. *)
Lemma uniform_store_fifo (save : bool) (c ss il : Z) s (rs : list R) :
  ExperienceReplay.init save false c ss il = Ok s ->
  exists w',
    add_seq rs (new_world s) = (w', Ok tt) /\
    ExperienceReplay.buffer (ExperienceReplay.self w') =
      ExperienceReplay.Deque (lastn (Z.to_nat c) rs) c /\
    ExperienceReplay.buffer_size_of (ExperienceReplay.self w') = Z.min (len rs) c.
Proof.
  intros Hi. unfold ExperienceReplay.init in Hi.
  destruct (Z.ltb_spec c 0); [discriminate |].
  assert (Es : s = ExperienceReplay.mk c ss il false save
                     (ExperienceReplay.Deque [] c) ExperienceReplay.PER_b0)
    by congruence.
  subst s. clear Hi.
  eexists. split.
  - apply (add_seq_uniform rs _ []); unfold new_world; er_simpl; auto.
  - unfold new_world. er_simpl. cbn [app]. split; [reflexivity |].
    unfold ExperienceReplay.buffer_size_of. er_simpl.
    unfold len. rewrite lastn_length. lia.
Qed.

(** Prioritized mode: the size reported after [n] calls of [add] on a new
    store is [n mod capacity], the position of the insertion pointer. *)
Lemma prioritized_store_size (save : bool) (c ss il : Z) s (rs : list R) :
  ExperienceReplay.init save true c ss il = Ok s ->
  exists w',
    add_seq rs (new_world s) = (w', Ok tt) /\
    ExperienceReplay.buffer_size_of (ExperienceReplay.self w') = len rs mod c.
Proof.
  intros Hi. unfold ExperienceReplay.init in Hi.
  destruct (SumTree.init c) as [st | e |] eqn:Ei; try discriminate.
  assert (Es : s = ExperienceReplay.mk c ss il true save
                     (ExperienceReplay.Tree st) ExperienceReplay.PER_b0)
    by congruence.
  subst s. clear Hi.
  destruct (init_wf c st Ei) as (WF & C & _ & _ & _ & Dp).
  destruct (add_seq_prioritized rs (new_world
              (ExperienceReplay.mk c ss il true save (ExperienceReplay.Tree st)
                 ExperienceReplay.PER_b0)) st eq_refl eq_refl WF)
    as (st' & E & _ & _ & D & _).
  eexists. split; [exact E |].
  unfold ExperienceReplay.buffer_size_of. er_simpl.
  rewrite D, Dp, C. reflexivity.
Qed.

End StoreSize.

(** C1, the code at the failing input.  A prioritized store of capacity 2
    reports size 0 after two [add] calls and size 1 after three: the size
    is the insertion pointer, which returns to 0 when the ring wraps. *)
Theorem prioritized_size_wraps :
  exists s0 : ExperienceReplay.t nat,
    ExperienceReplay.init true true 2 5000 3 = Ok s0 /\
    snd (ExperienceReplay.buffer_size (fst (add_seq [7; 8]%nat (new_world s0)))) = Ok 0 /\
    snd (ExperienceReplay.buffer_size (fst (add_seq [7; 8; 9]%nat (new_world s0)))) = Ok 1.
Proof.
  eexists. split; [reflexivity |]. split; reflexivity.
Qed.

(** ** ExperienceReplay.save *)

Section Save.
Context {R : Type}.
Implicit Types (w : ExperienceReplay.world R).

Lemma save_disabled w :
  ExperienceReplay.save_experience (ExperienceReplay.self w) = false ->
  ExperienceReplay.save w = (w, Ok tt).
Proof.
  intros H. unfold ExperienceReplay.save. rewrite bind_gets, H. reflexivity.
Qed.

(** Uniform mode, enough records: the snapshot is the last [storage_size]
    records of the buffer. *)
Lemma save_uniform_ok w (items : list R) (maxlen : Z) :
  ExperienceReplay.save_experience (ExperienceReplay.self w) = true ->
  ExperienceReplay.prioritized (ExperienceReplay.self w) = false ->
  ExperienceReplay.buffer (ExperienceReplay.self w) = ExperienceReplay.Deque items maxlen ->
  0 <= ExperienceReplay.storage_size (ExperienceReplay.self w) <= len items ->
  ExperienceReplay.save w =
  (ExperienceReplay.set_disk
     (Some (ExperienceReplay.PList
              (lastn (Z.to_nat (ExperienceReplay.storage_size (ExperienceReplay.self w)))
                     items))) w,
   Ok tt).
Proof.
  intros Hs Hp Hb Hss. destruct w as [s h d]. er_simpl.
  unfold ExperienceReplay.save. step. rewrite Hs. cbn [negb].
  step. rewrite Hp.
  unfold ExperienceReplay.buffer_size. step.
  unfold ExperienceReplay.buffer_size_of. rewrite Hb.
  erewrite bind_ok; [| apply (as_sequence_deque _ items maxlen); exact Hb].
  set (ss := ExperienceReplay.storage_size s) in *.
  unfold islice.
  destruct (Z.ltb_spec (len items - ss) 0); [lia |].
  destruct (Z.ltb_spec (len items) 0); [lia |]. cbn [orb].
  step.
  replace (Z.to_nat (len items - (len items - ss))) with (Z.to_nat ss) by lia.
  rewrite firstn_all2 by (rewrite length_skipn; unfold len; lia).
  unfold lastn. replace (Z.to_nat (len items - ss)) with (length items - Z.to_nat ss)%nat
    by (unfold len; lia).
  reflexivity.
Qed.

(** Uniform mode, fewer records than [storage_size]: [islice] refuses the
    negative start, after the previous snapshot has been removed. *)
Lemma save_uniform_short w (items : list R) (maxlen : Z) :
  ExperienceReplay.save_experience (ExperienceReplay.self w) = true ->
  ExperienceReplay.prioritized (ExperienceReplay.self w) = false ->
  ExperienceReplay.buffer (ExperienceReplay.self w) = ExperienceReplay.Deque items maxlen ->
  len items < ExperienceReplay.storage_size (ExperienceReplay.self w) ->
  ExperienceReplay.save w = (ExperienceReplay.set_disk None w, Raise ValueError).
Proof.
  intros Hs Hp Hb Hss. destruct w as [s h d]. er_simpl.
  unfold ExperienceReplay.save. step. rewrite Hs. cbn [negb].
  step. rewrite Hp.
  unfold ExperienceReplay.buffer_size. step.
  unfold ExperienceReplay.buffer_size_of. rewrite Hb.
  erewrite bind_ok; [| apply (as_sequence_deque _ items maxlen); exact Hb].
  unfold islice.
  destruct (Z.ltb_spec (len items - ExperienceReplay.storage_size s) 0); [| lia].
  cbn [orb]. step. reflexivity.
Qed.

End Save.

(** C9, the code at the failing input.  A uniform store with persistence
    enabled and [storage_size = 5] that holds three records: [save] removes
    the snapshot that was on disk and then raises [ValueError], so nothing
    is serialized. *)
Theorem save_fails_below_storage_size :
  ExperienceReplay.save (saving_world [1; 2; 3]%nat (Some (ExperienceReplay.PList [1; 2]%nat)))
  = (saving_world [1; 2; 3]%nat None, Raise ValueError).
Proof. reflexivity. Qed.

(** ** Frame properties *)

Section Preserves.
Context {S X : Type}.
Variable f : S -> X.

Lemma preserves_ret {A : Type} (a : A) : preserves f (ret a).
Proof. intros s. reflexivity. Qed.

Lemma preserves_raise {A : Type} (e : exn) : preserves f (@raise S A e).
Proof. intros s. reflexivity. Qed.

Lemma preserves_gets {A : Type} (g : S -> A) : preserves f (gets g).
Proof. intros s. reflexivity. Qed.

Lemma preserves_lift {A : Type} (o : outcome A) : preserves f (lift o).
Proof. intros s. reflexivity. Qed.

Lemma preserves_modify (g : S -> S) :
  (forall s, f (g s) = f s) -> preserves f (modify g).
Proof. intros H s. apply H. Qed.

Lemma preserves_bind {A B : Type} (m : M S A) (k : A -> M S B) :
  preserves f m -> (forall a, preserves f (k a)) -> preserves f (bind m k).
Proof.
  intros Hm Hk s. unfold bind. specialize (Hm s).
  destruct (m s) as [s' [a | e |]]; cbn [fst] in *; try assumption.
  now rewrite Hk.
Qed.

Lemma preserves_if {A : Type} (b : bool) (m1 m2 : M S A) :
  preserves f m1 -> preserves f m2 -> preserves f (if b then m1 else m2).
Proof. destruct b; auto. Qed.

End Preserves.

Section StoreFrames.
Context {R : Type}.
Implicit Types (w : ExperienceReplay.world R).

Lemma on_tree_heap {A : Type} (m : M (SumTree.t R) A) :
  preserves (@ExperienceReplay.heap R) (ExperienceReplay.on_tree m).
Proof.
  intros w. unfold ExperienceReplay.on_tree.
  destruct (ExperienceReplay.buffer (ExperienceReplay.self w)); [reflexivity |].
  destruct (m st). reflexivity.
Qed.

Lemma on_tree_beta {A : Type} (m : M (SumTree.t R) A) :
  preserves (@beta R) (ExperienceReplay.on_tree m).
Proof.
  intros w. unfold ExperienceReplay.on_tree, beta.
  destruct (ExperienceReplay.buffer (ExperienceReplay.self w)); [reflexivity |].
  destruct (m st). reflexivity.
Qed.

Lemma update_all_heap (pairs : list (Z * Q)) :
  preserves (@ExperienceReplay.heap R) (ExperienceReplay.update_all pairs).
Proof.
  induction pairs as [| [ti p] pairs IH]; cbn [ExperienceReplay.update_all].
  - apply preserves_ret.
  - apply preserves_bind; [apply on_tree_heap | intros _; exact IH].
Qed.

Lemma update_all_beta (pairs : list (Z * Q)) :
  preserves (@beta R) (ExperienceReplay.update_all pairs).
Proof.
  induction pairs as [| [ti p] pairs IH]; cbn [ExperienceReplay.update_all].
  - apply preserves_ret.
  - apply preserves_bind; [apply on_tree_beta | intros _; exact IH].
Qed.

(** The loop of [batch_update] looks at the store only. *)
Lemma update_all_self (pairs : list (Z * Q)) : forall w1 w2,
  ExperienceReplay.self w1 = ExperienceReplay.self w2 ->
  ExperienceReplay.self (fst (ExperienceReplay.update_all pairs w1)) =
  ExperienceReplay.self (fst (ExperienceReplay.update_all pairs w2)) /\
  snd (ExperienceReplay.update_all pairs w1) = snd (ExperienceReplay.update_all pairs w2).
Proof.
  induction pairs as [| [ti p] pairs IH]; intros w1 w2 Hs;
    cbn [ExperienceReplay.update_all].
  - cbn. auto.
  - destruct w1 as [s1 h1 d1], w2 as [s2 h2 d2]. er_simpl. subst s2.
    unfold bind, ExperienceReplay.on_tree. er_simpl.
    destruct (ExperienceReplay.buffer s1) as [items ml | st].
    + cbn. auto.
    + destruct (SumTree.update ti p st) as [st' [[] | e |]]; er_simpl; auto.
Qed.

(** The loop of [batch_update] on leaves of a well-formed tree. *)
Lemma update_all_leaves (pairs : list (Z * Q)) : forall w st,
  ExperienceReplay.buffer (ExperienceReplay.self w) = ExperienceReplay.Tree st ->
  wf_tree st ->
  Forall (fun pr => is_leaf st (fst pr)) pairs ->
  exists st',
    ExperienceReplay.update_all pairs w =
      (ExperienceReplay.set_self
         (ExperienceReplay.set_buffer (ExperienceReplay.Tree st') (ExperienceReplay.self w)) w,
       Ok tt) /\
    wf_tree st' /\ SumTree.capacity st' = SumTree.capacity st /\
    (sum_invariant (SumTree.tree st) -> sum_invariant (SumTree.tree st')).
Proof.
  induction pairs as [| [ti p] pairs IH]; intros w st Hb WF F;
    cbn [ExperienceReplay.update_all].
  - exists st. split; [| auto]. unfold ret.
    destruct w as [s h d], s. er_simpl. subst. reflexivity.
  - inversion F as [| ? ? Hi F']; subst. cbn [fst] in Hi.
    destruct (update_leaf st ti p WF Hi) as (st1 & E1 & WF1 & C1 & _ & _ & _ & _ & I1).
    destruct (IH (ExperienceReplay.set_self
                    (ExperienceReplay.set_buffer (ExperienceReplay.Tree st1)
                       (ExperienceReplay.self w)) w) st1 eq_refl WF1)
      as (st' & E' & WF' & C' & I').
    { eapply Forall_impl; [| exact F']. intros [j q]. unfold is_leaf. now rewrite C1. }
    exists st'.
    rewrite (bind_ok _ _ _ _ _ (on_tree_run _ w st st1 _ Hb E1)), E'. er_simpl.
    split; [reflexivity |]. split; [assumption |]. split; [congruence | tauto].
Qed.

Lemma batch_update_run (np_power : Q -> Q -> Q) w (tree_idx : list Z) (loc : nat)
  (errs : list Q) :
  nth_error (ExperienceReplay.heap w) loc = Some errs ->
  ExperienceReplay.batch_update np_power tree_idx loc w =
  ExperienceReplay.update_all
    (zip tree_idx (map (priority_of_error np_power) errs))
    (ExperienceReplay.set_heap
       (replace_nth loc (map (fun e => (e + ExperienceReplay.PER_e)%Q) errs)
          (ExperienceReplay.heap w)) w).
Proof.
  intros Hh. unfold ExperienceReplay.batch_update.
  unfold bind at 1. rewrite Hh. rewrite bind_modify.
  rewrite !map_map. reflexivity.
Qed.

Lemma nth_error_replace_same {A : Type} (n : nat) (x : A) (l : list A) :
  (n < length l)%nat -> nth_error (replace_nth n x l) n = Some x.
Proof.
  revert n. induction l as [| h t IH]; intros [| n] H; cbn in *; try lia; auto.
  apply IH. lia.
Qed.

Lemma nth_error_replace_other {A : Type} (n m : nat) (x : A) (l : list A) :
  n <> m -> nth_error (replace_nth n x l) m = nth_error l m.
Proof.
  revert n m. induction l as [| h t IH]; intros [| n] [| m] H; cbn; auto; try lia.
Qed.

End StoreFrames.

(** ** ExperienceReplay.batch_update *)

Lemma combine_truncate {A B : Type} (a : list A) (b : list B) :
  combine a b =
  combine (firstn (Nat.min (length a) (length b)) a)
          (firstn (Nat.min (length a) (length b)) b).
Proof.
  rewrite <- combine_firstn. symmetry. apply firstn_all2.
  rewrite length_combine. lia.
Qed.

(** C10.  [batch_update] writes through its [abs_errors] argument: after
    the call, whatever its outcome, the array of the caller holds every
    element increased by [PER_e] (0.01); no other array changes. *)
Theorem batch_update_mutates_abs_errors (R : Type) (np_power : Q -> Q -> Q)
  (w : ExperienceReplay.world R) (tree_idx : list Z) (abs_errors : nat) (errs : list Q) :
  nth_error (ExperienceReplay.heap w) abs_errors = Some errs ->
  nth_error
    (ExperienceReplay.heap
       (fst (ExperienceReplay.batch_update np_power tree_idx abs_errors w)))
    abs_errors
  = Some (map (fun e => (e + ExperienceReplay.PER_e)%Q) errs) /\
  ExperienceReplay.PER_e = (1 # 100)%Q /\
  forall other, other <> abs_errors ->
    nth_error
      (ExperienceReplay.heap
         (fst (ExperienceReplay.batch_update np_power tree_idx abs_errors w)))
      other
    = nth_error (ExperienceReplay.heap w) other.
Proof.
  intros Hh. rewrite (batch_update_run np_power w tree_idx abs_errors errs Hh).
  rewrite update_all_heap. cbn [ExperienceReplay.heap ExperienceReplay.set_heap].
  split; [| split; [reflexivity |]].
  - apply nth_error_replace_same. apply nth_error_Some. congruence.
  - intros other Hne. rewrite update_all_heap.
    cbn [ExperienceReplay.heap ExperienceReplay.set_heap].
    apply nth_error_replace_other. congruence.
Qed.

Lemma batch_update_mutates_abs_errors_witness :
  nth_error
    (ExperienceReplay.heap
       (fst (ExperienceReplay.batch_update sample_power [1; 2] 0 prioritized_world)))
    0
  = Some (map (fun e => (e + ExperienceReplay.PER_e)%Q) [1 # 2; 3 # 10]%Q) /\
  ExperienceReplay.PER_e = (1 # 100)%Q /\
  forall other, other <> 0%nat ->
    nth_error
      (ExperienceReplay.heap
         (fst (ExperienceReplay.batch_update sample_power [1; 2] 0 prioritized_world)))
      other
    = nth_error (ExperienceReplay.heap prioritized_world) other.
Proof.
  exact (batch_update_mutates_abs_errors nat sample_power prioritized_world [1; 2] 0
           [1 # 2; 3 # 10]%Q eq_refl).
Defined.

(** C6, as the code has it.  [batch_update] does not compare the lengths
    of its arguments.  On a well-formed prioritized store and leaf indices
    the call returns normally whatever the two lengths, and it leaves the
    store exactly as the call on both sequences cut to the shorter length
    does: pairs are formed up to the shorter length and the surplus of the
    longer sequence is ignored. *)
Theorem batch_update_pairs_up_to_shorter (R : Type) (np_power : Q -> Q -> Q)
  (w : ExperienceReplay.world R) (st : SumTree.t R) (tree_idx : list Z)
  (abs_errors : nat) (errs : list Q) :
  ExperienceReplay.buffer (ExperienceReplay.self w) = ExperienceReplay.Tree st ->
  wf_tree st ->
  Forall (is_leaf st) tree_idx ->
  nth_error (ExperienceReplay.heap w) abs_errors = Some errs ->
  snd (ExperienceReplay.batch_update np_power tree_idx abs_errors w) = Ok tt /\
  ExperienceReplay.self
    (fst (ExperienceReplay.batch_update np_power tree_idx abs_errors w))
  = ExperienceReplay.self
      (fst (ExperienceReplay.batch_update np_power
              (firstn (Nat.min (length tree_idx) (length errs)) tree_idx) abs_errors
              (ExperienceReplay.set_heap
                 (replace_nth abs_errors
                    (firstn (Nat.min (length tree_idx) (length errs)) errs)
                    (ExperienceReplay.heap w)) w))).
Proof.
  intros Hb WF Hleaf Hh.
  set (n := Nat.min (length tree_idx) (length errs)).
  assert (Hloc : (abs_errors < length (ExperienceReplay.heap w))%nat)
    by (apply nth_error_Some; congruence).
  rewrite (batch_update_run np_power w tree_idx abs_errors errs Hh).
  rewrite (batch_update_run np_power _ (firstn n tree_idx) abs_errors (firstn n errs))
    by (cbn [ExperienceReplay.heap ExperienceReplay.set_heap];
        now apply nth_error_replace_same).
  split.
  - destruct (update_all_leaves
                (zip tree_idx (map (priority_of_error np_power) errs))
                (ExperienceReplay.set_heap
                   (replace_nth abs_errors
                      (map (fun e => (e + ExperienceReplay.PER_e)%Q) errs)
                      (ExperienceReplay.heap w)) w) st Hb WF) as (st' & E & _).
    + apply Forall_forall. intros [i p] Hin. cbn [fst].
      apply in_combine_l in Hin.
      rewrite Forall_forall in Hleaf. now apply Hleaf.
    + now rewrite E.
  - unfold zip.
    rewrite (combine_truncate tree_idx (map (priority_of_error np_power) errs)).
    rewrite length_map. fold n. rewrite firstn_map.
    apply update_all_self. reflexivity.
Qed.

Lemma batch_update_pairs_up_to_shorter_witness :
  snd (ExperienceReplay.batch_update sample_power [1] 0 prioritized_world) = Ok tt /\
  ExperienceReplay.self
    (fst (ExperienceReplay.batch_update sample_power [1] 0 prioritized_world))
  = ExperienceReplay.self
      (fst (ExperienceReplay.batch_update sample_power
              (firstn (Nat.min (length [1]) (length [1 # 2; 3 # 10]%Q)) [1]) 0
              (ExperienceReplay.set_heap
                 (replace_nth 0
                    (firstn (Nat.min (length [1]) (length [1 # 2; 3 # 10]%Q))
                       [1 # 2; 3 # 10]%Q)
                    (ExperienceReplay.heap prioritized_world)) prioritized_world))).
Proof.
  refine (batch_update_pairs_up_to_shorter nat sample_power prioritized_world tree_1_1
            [1] 0 [1 # 2; 3 # 10]%Q eq_refl _ _ eq_refl).
  - unfold wf_tree, len, tree_1_1.
    cbn [SumTree.capacity SumTree.tree SumTree.data SumTree.data_pointer length]. lia.
  - repeat constructor; cbn; lia.
Defined.

(** C6, as stated, fails: one index against two errors is not refused;
    the call returns normally and only the first leaf is updated. *)
Lemma batch_update_mismatch_counterexample :
  length [1] <> length [1 # 2; 3 # 10]%Q /\
  nth_error (ExperienceReplay.heap prioritized_world) 0 = Some [1 # 2; 3 # 10]%Q /\
  snd (ExperienceReplay.batch_update sample_power [1] 0 prioritized_world) = Ok tt /\
  ExperienceReplay.buffer
    (ExperienceReplay.self
       (fst (ExperienceReplay.batch_update sample_power [1] 0 prioritized_world)))
  = ExperienceReplay.Tree
      (SumTree.mk 2 [2 + ((1 # 2) + (1 # 100) - 1); (1 # 2) + (1 # 100); 1]%Q
         [SumTree.Item 10%nat; SumTree.Item 11%nat] 0).
Proof.
  repeat split; try reflexivity. cbn. lia.
Qed.

(** ** What the methods leave unchanged *)

Section ReadOnly.
Context {R : Type}.
Implicit Types (st : SumTree.t R) (w : ExperienceReplay.world R).

Lemma tree_get_readonly (i : Z) : preserves (fun st => st) (SumTree.tree_get i).
Proof. intros st. reflexivity. Qed.

Lemma data_get_readonly (i : Z) : preserves (fun st => st) (SumTree.data_get i).
Proof. intros st. reflexivity. Qed.

Lemma descend_readonly (fuel : nat) : forall (node : Z) (v : Q),
  preserves (fun st => st) (SumTree.descend fuel node v).
Proof.
  induction fuel as [| fuel IH]; intros node v st; cbn [SumTree.descend].
  - destruct (len (SumTree.tree st) <=? 2 * node + 1); reflexivity.
  - destruct (len (SumTree.tree st) <=? 2 * node + 1); [reflexivity |].
    apply (preserves_bind (fun st => st)); [apply tree_get_readonly |].
    intros x. apply preserves_if; apply IH.
Qed.

Lemma get_leaf_readonly (v : Q) : preserves (fun st => st) (SumTree.get_leaf v).
Proof.
  unfold SumTree.get_leaf.
  repeat (apply preserves_bind; [| intros ?]);
    auto using preserves_gets, preserves_ret, tree_get_readonly, data_get_readonly,
      descend_readonly.
Qed.

Lemma total_priority_readonly : preserves (fun st => st) (@SumTree.total_priority R).
Proof. apply tree_get_readonly. Qed.

Lemma tree_set_shape (i : Z) (x : Q) : preserves (@shape R) (SumTree.tree_set i x).
Proof.
  intros st. unfold SumTree.tree_set, setitem.
  destruct (norm_index (len (SumTree.tree st)) i); [| reflexivity].
  unfold shape. st_simpl. now rewrite replace_nth_len.
Qed.

Lemma propagate_shape (fuel : nat) : forall (idx : Z) (change : Q),
  preserves (@shape R) (SumTree.propagate fuel idx change).
Proof.
  induction fuel as [| fuel IH]; intros idx change; cbn [SumTree.propagate].
  - destruct (idx =? 0); [apply preserves_ret | intros st; reflexivity].
  - destruct (idx =? 0); [apply preserves_ret |].
    apply preserves_bind; [intros st; reflexivity | intros x].
    apply preserves_bind; [apply tree_set_shape | intros _; apply IH].
Qed.

(** [update] keeps the shape of the tree for every index and outcome. *)
Lemma update_shape (i : Z) (p : Q) : preserves (@shape R) (SumTree.update i p).
Proof.
  unfold SumTree.update.
  apply preserves_bind; [intros st; reflexivity | intros old].
  apply preserves_bind; [apply tree_set_shape | intros _].
  apply preserves_bind; [apply preserves_gets | intros fuel].
  apply propagate_shape.
Qed.

Lemma wf_tree_shape st st' : shape st' = shape st -> wf_tree st -> wf_tree st'.
Proof.
  unfold shape, wf_tree. intros E. inversion E as [[E1 E2 E3 E4]].
  now rewrite E1, E2, E3, E4.
Qed.

(** A method that does not change the tree, run on the buffer, changes
    neither the store nor anything around it. *)
Lemma on_tree_readonly {A : Type} (m : M (SumTree.t R) A) :
  preserves (fun st => st) m ->
  preserves (fun w => w) (ExperienceReplay.on_tree m).
Proof.
  intros Hm w. unfold ExperienceReplay.on_tree.
  destruct (ExperienceReplay.buffer (ExperienceReplay.self w)) as [items ml | st] eqn:Hb;
    [reflexivity |].
  specialize (Hm st). destruct (m st) as [st' r]. cbn [fst] in *. subst st'.
  destruct w as [s h d], s. er_simpl. subst. reflexivity.
Qed.

End ReadOnly.

(** ** ExperienceReplay.sample in prioritized mode *)

Section PrioritizedSample.
Context {R : Type}.
Variable np_power : Q -> Q -> Q.
Implicit Types (st : SumTree.t R) (w : ExperienceReplay.world R).

Lemma draw_leaves_ok w st (batch_size : Z) (seg mw : Q) (unif : nat -> Q) :
  ExperienceReplay.buffer (ExperienceReplay.self w) = ExperienceReplay.Tree st ->
  wf_tree st ->
  forall ixs : list Z,
  exists idx mem ws,
    ExperienceReplay.draw_leaves np_power ixs batch_size seg mw unif w
      = (w, Ok (idx, mem, ws)) /\
    length idx = length ixs /\
    Forall (is_leaf st) idx /\
    ws = map (weight_of np_power st batch_size (beta w) mw) idx /\
    Forall2 (fun i leaf =>
               SumTree.descend (length (SumTree.tree st)) 0 (segment_value seg unif i) st
               = (st, Ok leaf)) ixs idx /\
    Forall2 (fun leaf d =>
               getitem (SumTree.data st) (leaf - SumTree.capacity st + 1) = Ok d) idx mem.
Proof.
  intros Hb WF ixs. induction ixs as [| i ixs IH].
  - exists [], [], []. cbn [ExperienceReplay.draw_leaves]. unfold ret.
    repeat split; auto.
  - destruct IH as (idx & mem & ws & E & L & F & W & D & C).
    destruct (get_leaf_total (segment_value seg unif i) st WF) as (leaf & d & G & Lf & Gd & Ds).
    exists (leaf :: idx), (d :: mem),
      (weight_of np_power st batch_size (beta w) mw leaf :: ws).
    split.
    + cbn [ExperienceReplay.draw_leaves].
      rewrite (bind_ok _ _ _ _ _ (on_tree_read _ w st _ Hb G)).
      rewrite (bind_ok _ _ _ _ _
                 (on_tree_read _ w st _ Hb (total_priority_wf st WF))).
      rewrite bind_gets, (bind_ok _ _ _ _ _ E). reflexivity.
    + cbn [length map]. repeat split; auto. congruence.
Qed.

(** A prioritized [sample] call on a well-formed store. *)
Lemma sample_prioritized_ok w st (batch_size trace_length : Z)
  (rnd : nat -> nat) (unif : nat -> Q) :
  ExperienceReplay.prioritized (ExperienceReplay.self w) = true ->
  ExperienceReplay.buffer (ExperienceReplay.self w) = ExperienceReplay.Tree st ->
  wf_tree st ->
  0 <= batch_size ->
  let beta' := Qmin 1 (beta w + ExperienceReplay.PER_b_increment) in
  let w' := ExperienceReplay.set_self
              (ExperienceReplay.set_PER_b beta' (ExperienceReplay.self w)) w in
  exists least idx mem ws,
    np_min (leaf_priorities st) = Ok least /\
    ExperienceReplay.sample np_power batch_size trace_length rnd unif w
      = (w', Ok (Some idx, ExperienceReplay.Cells mem, Some ws)) /\
    len idx = batch_size /\
    Forall (is_leaf st) idx /\
    ws = map (weight_of np_power st batch_size beta'
                (max_weight_of np_power (least / prio (SumTree.tree st) 0)
                   batch_size beta')) idx.
Proof.
  intros Hp Hb WF Hbs beta' w'.
  destruct (leaf_priorities_nonempty st WF) as (x & xs & El).
  assert (Hb' : ExperienceReplay.buffer (ExperienceReplay.self w') = ExperienceReplay.Tree st)
    by exact Hb.
  set (total := prio (SumTree.tree st) 0).
  set (least := fold_left Qmin xs x).
  set (mw := max_weight_of np_power (least / total) batch_size beta').
  destruct (draw_leaves_ok w' st batch_size (total / inject_Z batch_size) mw unif Hb' WF
              (range batch_size)) as (idx & mem & ws & E & L & F & W & _).
  exists least, idx, mem, ws.
  split; [rewrite El; reflexivity |]. split; [| split; [| split]].
  - unfold ExperienceReplay.sample. rewrite bind_gets, Hp. cbn [negb].
    destruct (Z.ltb_spec batch_size 0); [lia |]. rewrite bind_ret.
    rewrite (bind_ok _ _ _ _ _
               (on_tree_read _ w st _ Hb (total_priority_wf st WF))).
    rewrite bind_modify. fold (beta w). fold beta'. fold w'.
    erewrite bind_ok; [| apply (on_tree_read _ w' st); [exact Hb' | reflexivity]].
    fold (leaf_priorities st). rewrite El. cbn [np_min]. rewrite bind_lift_ok.
    rewrite (bind_ok _ _ _ _ _
               (on_tree_read _ w' st _ Hb' (total_priority_wf st WF))).
    rewrite bind_gets. fold total least.
    change (ExperienceReplay.PER_b (ExperienceReplay.self w')) with beta'.
    fold (max_weight_of np_power (least / total) batch_size beta'). fold mw.
    rewrite (bind_ok _ _ _ _ _ E). reflexivity.
  - unfold len. rewrite L. unfold range. rewrite length_map, length_seq. lia.
  - exact F.
  - exact W.
Qed.

End PrioritizedSample.

(** C5, as the code has it.  A prioritized [sample] call on a well-formed
    store whose total priority is not 0 first anneals beta, then takes [p_min] as the least priority
    over all [capacity] leaves of the tree (the leaves that never received
    a record, of priority 0, included) divided by [total_priority];
    [max_weight] is [(p_min * batch_size)^(-beta)], or [1e-7] when [p_min]
    is 0; and the weight returned for each drawn leaf [i] is
    [(batch_size * P(i))^(-beta) / max_weight] with
    [P(i) = priority_i / total_priority].  (With a total of 0 the code
    divides by zero and works on [nan]; the statement leaves that out.) *)
Theorem sample_weights (R : Type) (np_power : Q -> Q -> Q)
  (w : ExperienceReplay.world R) (st : SumTree.t R) (batch_size trace_length : Z)
  (rnd : nat -> nat) (unif : nat -> Q) :
  ExperienceReplay.prioritized (ExperienceReplay.self w) = true ->
  ExperienceReplay.buffer (ExperienceReplay.self w) = ExperienceReplay.Tree st ->
  wf_tree st ->
  ~ (prio (SumTree.tree st) 0 == 0)%Q ->
  0 <= batch_size ->
  exists p_min idx mem ws,
    p_min_code st = Ok p_min /\
    snd (ExperienceReplay.sample np_power batch_size trace_length rnd unif w)
      = Ok (Some idx, ExperienceReplay.Cells mem, Some ws) /\
    len idx = batch_size /\
    ws = map (weight_of np_power st batch_size
                (Qmin 1 (beta w + ExperienceReplay.PER_b_increment))
                (max_weight_of np_power p_min batch_size
                   (Qmin 1 (beta w + ExperienceReplay.PER_b_increment)))) idx.
Proof.
  intros Hp Hb WF _ Hbs.
  destruct (sample_prioritized_ok np_power w st batch_size trace_length rnd unif
              Hp Hb WF Hbs) as (least & idx & mem & ws & El & E & L & _ & W).
  exists (least / prio (SumTree.tree st) 0)%Q, idx, mem, ws.
  split; [unfold p_min_code; now rewrite El |].
  split; [now rewrite E |]. split; [exact L | exact W].
Qed.

Lemma sample_weights_witness :
  exists p_min idx mem ws,
    p_min_code tree_1_1 = Ok p_min /\
    snd (ExperienceReplay.sample sample_power 2 1 (fun n => n) (fun _ => (1 # 2)%Q)
           prioritized_world)
      = Ok (Some idx, ExperienceReplay.Cells mem, Some ws) /\
    len idx = 2 /\
    ws = map (weight_of sample_power tree_1_1 2
                (Qmin 1 (beta prioritized_world + ExperienceReplay.PER_b_increment))
                (max_weight_of sample_power p_min 2
                   (Qmin 1 (beta prioritized_world + ExperienceReplay.PER_b_increment))))
             idx.
Proof.
  refine (sample_weights nat sample_power prioritized_world tree_1_1 2 1
            (fun n => n) (fun _ => (1 # 2)%Q) eq_refl eq_refl _ _ _).
  - unfold wf_tree, len, tree_1_1.
    cbn [SumTree.capacity SumTree.tree SumTree.data SumTree.data_pointer length]. lia.
  - discriminate.
  - lia.
Defined.

(** C5, as stated, fails while the tree is not full.  In a store of
    capacity 2 holding one record, of priority 1, the least selection
    probability over the active leaves is 1, but the code takes the
    minimum over both leaves and finds 0: [max_weight] is the floor
    [1e-7], and the weight returned for the record is [1 / 1e-7], not 1.
    (The power function of the example maps 1 to 1, as every power does.) *)
Lemma p_min_over_all_leaves_counterexample :
  (exists s0 : ExperienceReplay.t nat,
     ExperienceReplay.init false true 2 5000 3 = Ok s0 /\
     fst (ExperienceReplay.add 7%nat (new_world s0)) = one_record_world) /\
  p_min_active_spec (SumTree.mk 2 [1; 1; 0]%Q [SumTree.Item 7%nat; SumTree.Zero] 1)
    = Ok (1 / 1)%Q /\
  p_min_code (SumTree.mk 2 [1; 1; 0]%Q [SumTree.Item 7%nat; SumTree.Zero] 1)
    = Ok (0 / 1)%Q /\
  ~ (0 / 1 == 1 / 1)%Q /\
  snd (ExperienceReplay.sample sample_power 1 1 (fun n => n) (fun _ => (1 # 2)%Q)
         one_record_world)
    = Ok (Some [1], ExperienceReplay.Cells [SumTree.Item 7%nat],
          Some [(sample_power (inject_Z 1 * (1 / 1)) (- Qmin 1 ((4 # 10) + (1 # 1000)))
                 / ExperienceReplay.weight_floor)%Q]) /\
  ~ (sample_power (inject_Z 1 * (1 / 1)) (- Qmin 1 ((4 # 10) + (1 # 1000)))
     / ExperienceReplay.weight_floor
     == sample_power (inject_Z 1 * (1 / 1)) (- Qmin 1 ((4 # 10) + (1 # 1000)))
        / sample_power (1 / 1 * inject_Z 1) (- Qmin 1 ((4 # 10) + (1 # 1000))))%Q.
Proof.
  split; [eexists; split; reflexivity |].
  repeat split; try reflexivity; discriminate.
Qed.

(** ** The lifetime of a store *)

Section Lifetime.
Context {R : Type}.
Variable np_power : Q -> Q -> Q.
Implicit Types (st : SumTree.t R) (w : ExperienceReplay.world R).

Lemma readonly_preserves {S A X : Type} (f : S -> X) (m : M S A) :
  preserves (fun s => s) m -> preserves f m.
Proof. intros H s. now rewrite H. Qed.

Lemma as_sequence_readonly : preserves (fun w => w) (@ExperienceReplay.as_sequence R).
Proof.
  intros w. unfold ExperienceReplay.as_sequence.
  destruct (ExperienceReplay.buffer (ExperienceReplay.self w)); reflexivity.
Qed.

Lemma draw_leaves_readonly (ixs : list Z) (batch_size : Z) (seg mw : Q) (unif : nat -> Q) :
  preserves (fun w => w)
    (ExperienceReplay.draw_leaves (R := R) np_power ixs batch_size seg mw unif).
Proof.
  induction ixs as [| i ixs IH]; cbn [ExperienceReplay.draw_leaves].
  - apply preserves_ret.
  - apply preserves_bind; [apply on_tree_readonly, get_leaf_readonly |].
    intros [[index priority] data].
    apply preserves_bind; [apply on_tree_readonly, total_priority_readonly | intros total].
    apply preserves_bind; [apply preserves_gets | intros b].
    apply preserves_bind; [exact IH |].
    intros [[idx mem] ws]. apply preserves_ret.
Qed.

(** [sample] changes nothing but beta. *)
Lemma sample_config (batch_size trace_length : Z) (rnd : nat -> nat) (unif : nat -> Q) :
  preserves (@config R)
    (ExperienceReplay.sample np_power batch_size trace_length rnd unif).
Proof.
  unfold ExperienceReplay.sample.
  apply preserves_bind; [apply preserves_gets | intros p].
  destruct (negb p).
  - destruct (1 <? trace_length).
    + apply preserves_bind; [apply preserves_gets | intros n].
      apply preserves_bind; [apply preserves_lift | intros points].
      apply preserves_bind; [apply readonly_preserves, as_sequence_readonly | intros buf].
      apply preserves_bind; [apply preserves_lift | intros batch]. apply preserves_ret.
    + apply preserves_bind; [apply readonly_preserves, as_sequence_readonly | intros buf].
      apply preserves_bind; [apply preserves_lift | intros batch].
      apply preserves_bind; [apply preserves_gets | intros il].
      apply preserves_bind; [apply preserves_lift | intros batch']. apply preserves_ret.
  - apply preserves_bind; [apply preserves_if; [apply preserves_raise | apply preserves_ret] |].
    intros _.
    apply preserves_bind;
      [apply readonly_preserves, on_tree_readonly, total_priority_readonly | intros total].
    apply preserves_bind; [apply preserves_modify; intros w; reflexivity | intros _].
    apply preserves_bind;
      [apply readonly_preserves, on_tree_readonly; intros st; reflexivity | intros leaves].
    apply preserves_bind; [apply preserves_lift | intros least].
    apply preserves_bind;
      [apply readonly_preserves, on_tree_readonly, total_priority_readonly | intros total'].
    apply preserves_bind; [apply preserves_gets | intros b].
    apply preserves_bind; [apply readonly_preserves, draw_leaves_readonly |].
    intros [[idx mem] ws]. apply preserves_ret.
Qed.

(** In uniform mode [sample] changes nothing at all. *)
Lemma sample_uniform_readonly w (batch_size trace_length : Z)
  (rnd : nat -> nat) (unif : nat -> Q) :
  ExperienceReplay.prioritized (ExperienceReplay.self w) = false ->
  fst (ExperienceReplay.sample np_power batch_size trace_length rnd unif w) = w.
Proof.
  intros Hp. unfold ExperienceReplay.sample. rewrite bind_gets, Hp. cbn [negb].
  destruct (1 <? trace_length).
  - apply (preserves_bind (fun w => w)); [apply preserves_gets | intros n].
    apply preserves_bind; [apply preserves_lift | intros points].
    apply preserves_bind; [apply as_sequence_readonly | intros buf].
    apply preserves_bind; [apply preserves_lift | intros batch]. apply preserves_ret.
  - apply (preserves_bind (fun w => w)); [apply as_sequence_readonly | intros buf].
    apply preserves_bind; [apply preserves_lift | intros batch].
    apply preserves_bind; [apply preserves_gets | intros il].
    apply preserves_bind; [apply preserves_lift | intros batch']. apply preserves_ret.
Qed.

(** With a negative batch size the prioritized branch stops at once. *)
Lemma sample_negative w (batch_size trace_length : Z) (rnd : nat -> nat) (unif : nat -> Q) :
  ExperienceReplay.prioritized (ExperienceReplay.self w) = true ->
  batch_size < 0 ->
  ExperienceReplay.sample np_power batch_size trace_length rnd unif w = (w, Raise ValueError).
Proof.
  intros Hp Hbs. unfold ExperienceReplay.sample. rewrite bind_gets, Hp. cbn [negb].
  destruct (Z.ltb_spec batch_size 0); [| lia]. reflexivity.
Qed.

Lemma wf_store_config w w' :
  config w' = config w ->
  wf_store (ExperienceReplay.self w) -> wf_store (ExperienceReplay.self w').
Proof.
  unfold config, wf_store. intros E. inversion E as [[E1 E2 E3 E4 E5 E6]].
  now rewrite E1, E4, E6.
Qed.

Lemma save_self : preserves (@ExperienceReplay.self R) ExperienceReplay.save.
Proof.
  unfold ExperienceReplay.save.
  apply preserves_bind; [apply preserves_gets | intros se].
  destruct (negb se); [apply preserves_ret |].
  apply preserves_bind; [apply preserves_modify; intros w; reflexivity | intros _].
  apply preserves_bind; [apply preserves_gets | intros p].
  apply preserves_bind; [| intros x; apply preserves_modify; intros w; reflexivity].
  destruct p.
  - apply preserves_bind; [apply preserves_gets | intros b]. apply preserves_ret.
  - apply preserves_bind; [apply preserves_gets | intros n].
    apply preserves_bind; [apply preserves_gets | intros ss].
    apply preserves_bind; [apply readonly_preserves, as_sequence_readonly | intros buf].
    apply preserves_bind; [apply preserves_lift | intros l]. apply preserves_ret.
Qed.

(** The loop of [batch_update] keeps the store well formed, in its mode,
    for every list of pairs and every outcome. *)
Lemma update_all_wf (pairs : list (Z * Q)) : forall w,
  wf_store (ExperienceReplay.self w) ->
  wf_store (ExperienceReplay.self (fst (ExperienceReplay.update_all pairs w))) /\
  ExperienceReplay.prioritized (ExperienceReplay.self (fst (ExperienceReplay.update_all pairs w)))
  = ExperienceReplay.prioritized (ExperienceReplay.self w).
Proof.
  induction pairs as [| [ti p] pairs IH]; intros w WF; cbn [ExperienceReplay.update_all].
  - cbn. auto.
  - unfold bind, ExperienceReplay.on_tree.
    destruct (ExperienceReplay.buffer (ExperienceReplay.self w)) as [items ml | st] eqn:Hb.
    + cbn. auto.
    + pose proof (update_shape ti p st) as Hsh.
      destruct (SumTree.update ti p st) as [st' o]. cbn [fst] in Hsh.
      assert (WF' : wf_store (ExperienceReplay.self
                      (ExperienceReplay.set_self
                         (ExperienceReplay.set_buffer (ExperienceReplay.Tree st')
                            (ExperienceReplay.self w)) w))).
      { unfold wf_store in *. er_simpl. rewrite Hb in WF.
        destruct WF as (Hp & WFt & Hc). split; [exact Hp |].
        split; [now apply (wf_tree_shape st) |].
        unfold shape in Hsh. inversion Hsh as [[E1 E2 E3 E4]]. congruence. }
      destruct o as [[] | e |]; er_simpl; auto.
      destruct (IH (ExperienceReplay.set_self
                      (ExperienceReplay.set_buffer (ExperienceReplay.Tree st')
                         (ExperienceReplay.self w)) w) WF') as (W1 & P1).
      er_simpl. auto.
Qed.

End Lifetime.

Section LifetimeInvariant.
Context {R : Type}.
Variable np_power : Q -> Q -> Q.
Implicit Types (st : SumTree.t R) (w : ExperienceReplay.world R).

Lemma annealed_bounds (b : Q) :
  (ExperienceReplay.PER_b0 <= b)%Q -> (b <= 1)%Q ->
  (ExperienceReplay.PER_b0 <= Qmin 1 (b + ExperienceReplay.PER_b_increment))%Q /\
  (Qmin 1 (b + ExperienceReplay.PER_b_increment) <= 1)%Q /\
  (b <= Qmin 1 (b + ExperienceReplay.PER_b_increment))%Q.
Proof.
  unfold ExperienceReplay.PER_b0, ExperienceReplay.PER_b_increment.
  intros H0 H1.
  destruct (Q.min_spec 1 (b + (1 # 1000))) as [[Hlt E] | [Hle E]];
    rewrite E; repeat split; lra.
Qed.

(** Every call keeps the invariant and does not decrease beta. *)
Lemma after_call_invariant (p : bool) (c : call) w :
  lifetime_invariant p w ->
  lifetime_invariant p (after_call np_power c w) /\
  (beta w <= beta (after_call np_power c w))%Q.
Proof.
  intros (WF & Hp & B0 & B1).
  destruct c as [r | bs tl rnd unif | idx loc | | h]; cbn [after_call].
  - (* add *)
    unfold wf_store in WF.
    destruct (ExperienceReplay.buffer (ExperienceReplay.self w)) as [items ml | st] eqn:Hb.
    + destruct WF as (Hpf & Hml & Hlen). subst ml.
      pose proof (len_nonneg items).
      rewrite (add_uniform w items r Hpf Hb ltac:(lia) Hlen). cbn [fst].
      unfold lifetime_invariant, wf_store, beta in *. er_simpl.
      repeat split; auto; try lra.
      unfold len. rewrite lastn_length. lia.
    + destruct WF as (Hpt & WFt & Hc).
      destruct (add_prioritized w st r Hpt Hb WFt) as (st' & E & WF' & C' & _).
      rewrite E. cbn [fst].
      unfold lifetime_invariant, wf_store, beta in *. er_simpl.
      pose proof WF' as (? & ? & ? & ?).
      repeat split; auto; try lra; try lia; congruence.
  - (* sample *)
    pose proof (sample_config np_power bs tl rnd unif w) as Hcfg.
    set (w' := fst (ExperienceReplay.sample np_power bs tl rnd unif w)) in *.
    assert (Hpw : ExperienceReplay.prioritized (ExperienceReplay.self w')
                  = ExperienceReplay.prioritized (ExperienceReplay.self w)).
    { unfold config in Hcfg. now inversion Hcfg. }
    assert (WF' : wf_store (ExperienceReplay.self w')) by now apply (wf_store_config w).
    assert (Hbeta : (ExperienceReplay.PER_b0 <= beta w')%Q /\ (beta w' <= 1)%Q /\
                    (beta w <= beta w')%Q).
    { destruct p.
      - destruct (Z.ltb_spec bs 0) as [Hneg | Hnn].
        + unfold w'. rewrite (sample_negative np_power w bs tl rnd unif Hp Hneg).
          cbn [fst]. repeat split; auto; lra.
        + unfold wf_store in WF.
          destruct (ExperienceReplay.buffer (ExperienceReplay.self w)) as [items ml | st] eqn:Hb.
          * destruct WF as (Hpf & _). congruence.
          * destruct WF as (_ & WFt & _).
            destruct (sample_prioritized_ok np_power w st bs tl rnd unif Hp Hb WFt Hnn)
              as (least & idx & mem & ws & _ & E & _).
            unfold w'. rewrite E. cbn [fst]. unfold beta at 1 3 5. er_simpl.
            fold (beta w). now apply annealed_bounds.
      - unfold w'. rewrite (sample_uniform_readonly np_power w bs tl rnd unif Hp).
        repeat split; auto; lra. }
    unfold lifetime_invariant. rewrite Hpw. tauto.
  - (* batch_update *)
    unfold ExperienceReplay.batch_update.
    destruct (nth_error (ExperienceReplay.heap w) loc) as [errs |] eqn:Hh.
    + fold (ExperienceReplay.batch_update np_power idx loc w).
      rewrite (batch_update_run np_power w idx loc errs Hh).
      set (w1 := ExperienceReplay.set_heap _ w).
      destruct (update_all_wf (zip idx (map (priority_of_error np_power) errs)) w1 WF)
        as (WF' & Hp').
      pose proof (update_all_beta (zip idx (map (priority_of_error np_power) errs)) w1) as Hb.
      unfold lifetime_invariant. rewrite Hb, Hp'.
      change (beta w1) with (beta w).
      change (ExperienceReplay.prioritized (ExperienceReplay.self w1))
        with (ExperienceReplay.prioritized (ExperienceReplay.self w)).
      repeat split; auto; lra.
    + fold (ExperienceReplay.batch_update np_power idx loc w).
      assert (E : ExperienceReplay.batch_update np_power idx loc w = (w, Raise TypeError)).
      { unfold ExperienceReplay.batch_update. unfold bind at 1. now rewrite Hh. }
      rewrite E. cbn [fst].
      unfold lifetime_invariant. repeat split; auto; lra.
  - (* save *)
    pose proof (save_self w) as Hs.
    unfold lifetime_invariant, beta. rewrite Hs. fold (beta w).
    repeat split; auto; lra.
  - (* the caller *)
    unfold lifetime_invariant, beta. er_simpl. fold (beta w).
    repeat split; auto; lra.
Qed.

Lemma after_calls_invariant (p : bool) (cs : list call) : forall w,
  lifetime_invariant p w ->
  lifetime_invariant p (after_calls np_power cs w) /\
  (beta w <= beta (after_calls np_power cs w))%Q.
Proof.
  induction cs as [| c cs IH]; intros w Inv; cbn [after_calls fold_left].
  - split; [assumption | lra].
  - destruct (after_call_invariant p c w Inv) as (Inv1 & M1).
    destruct (IH _ Inv1) as (Inv2 & M2).
    fold (after_calls np_power cs (after_call np_power c w)).
    split; [assumption | lra].
Qed.

Lemma new_world_invariant (save prioritized : bool) (c ss il : Z) (s : ExperienceReplay.t R) :
  ExperienceReplay.init save prioritized c ss il = Ok s ->
  lifetime_invariant prioritized (new_world s) /\ beta (new_world s) = ExperienceReplay.PER_b0.
Proof.
  intros Hi. destruct (init_wf_store save prioritized c ss il s Hi) as (WF & _ & Hp & Hb & _).
  unfold lifetime_invariant, beta, new_world. er_simpl. rewrite Hb.
  repeat split; auto; try lra. discriminate.
Qed.

End LifetimeInvariant.

Lemma after_calls_app {R : Type} (np_power : Q -> Q -> Q) (cs more : list (call (R := R)))
  (w : ExperienceReplay.world R) :
  after_calls np_power (cs ++ more) w = after_calls np_power more (after_calls np_power cs w).
Proof. unfold after_calls. apply fold_left_app. Qed.

(** C7.  On a constructed store beta starts at [PER_b0] (0.4) and, after
    any sequence of calls ([add], [sample], [batch_update], [save], in any
    order and whatever their outcomes): it lies in [[PER_b0, 1]]; it never
    decreases as further calls are made; and a prioritized [sample] call
    (with a batch size that is not negative) sets it to
    [min(1, beta + PER_b_increment)]: one fixed step, clamped at 1. *)
Theorem beta_annealing (R : Type) (np_power : Q -> Q -> Q) (save prioritized : bool)
  (capacity storage_size n_last : Z) (s0 : ExperienceReplay.t R)
  (cs : list (call (R := R))) :
  ExperienceReplay.init save prioritized capacity storage_size n_last = Ok s0 ->
  beta (new_world s0) = ExperienceReplay.PER_b0 /\
  (ExperienceReplay.PER_b0 <= beta (after_calls np_power cs (new_world s0)))%Q /\
  (beta (after_calls np_power cs (new_world s0)) <= 1)%Q /\
  (forall more,
     (beta (after_calls np_power cs (new_world s0))
      <= beta (after_calls np_power (cs ++ more) (new_world s0)))%Q) /\
  (forall batch_size trace_length rnd unif,
     prioritized = true -> 0 <= batch_size ->
     beta (after_calls np_power (cs ++ [CallSample batch_size trace_length rnd unif])
             (new_world s0))
     = Qmin 1 (beta (after_calls np_power cs (new_world s0))
               + ExperienceReplay.PER_b_increment)).
Proof.
  intros Hi.
  destruct (new_world_invariant save prioritized capacity storage_size n_last s0 Hi)
    as (Inv0 & B0).
  destruct (after_calls_invariant np_power prioritized cs (new_world s0) Inv0)
    as (Inv & _).
  set (w := after_calls np_power cs (new_world s0)) in *.
  pose proof Inv as (WF & Hp & L0 & L1).
  split; [exact B0 |]. split; [exact L0 |]. split; [exact L1 |]. split.
  - intros more. rewrite after_calls_app. fold w.
    apply (after_calls_invariant np_power prioritized more w Inv).
  - intros bs tl rnd unif Hpt Hbs. rewrite after_calls_app. fold w.
    cbn [after_calls fold_left after_call]. rewrite Hpt in Hp.
    unfold wf_store in WF.
    destruct (ExperienceReplay.buffer (ExperienceReplay.self w)) as [items ml | st] eqn:Hb.
    + destruct WF as (Hpf & _). congruence.
    + destruct WF as (_ & WFt & _).
      destruct (sample_prioritized_ok np_power w st bs tl rnd unif Hp Hb WFt Hbs)
        as (least & idx & mem & ws & _ & E & _).
      rewrite E. reflexivity.
Qed.

Lemma beta_annealing_witness :
  beta (new_world new_prioritized_store) = ExperienceReplay.PER_b0 /\
  (ExperienceReplay.PER_b0
   <= beta (after_calls sample_power add_then_sample (new_world new_prioritized_store)))%Q /\
  (beta (after_calls sample_power add_then_sample (new_world new_prioritized_store)) <= 1)%Q /\
  (forall more,
     (beta (after_calls sample_power add_then_sample (new_world new_prioritized_store))
      <= beta (after_calls sample_power (add_then_sample ++ more)
                 (new_world new_prioritized_store)))%Q) /\
  (forall batch_size trace_length rnd unif,
     true = true -> 0 <= batch_size ->
     beta (after_calls sample_power
             (add_then_sample ++ [CallSample batch_size trace_length rnd unif])
             (new_world new_prioritized_store))
     = Qmin 1 (beta (after_calls sample_power add_then_sample
                       (new_world new_prioritized_store))
               + ExperienceReplay.PER_b_increment)).
Proof.
  exact (beta_annealing nat sample_power false true 2 5000 3 new_prioritized_store
           add_then_sample eq_refl).
Defined.

(** * Further properties of the record store *)

(** ** Insertion *)

Lemma fold_max_upper (xs : list Q) : forall (x : Q),
  (x <= fold_left Qmax xs x)%Q /\ Forall (fun z => (z <= fold_left Qmax xs x)%Q) xs.
Proof.
  induction xs as [| y xs IH]; intros x; cbn [fold_left].
  - split; [lra | constructor].
  - destruct (IH (Qmax x y)) as (H1 & H2).
    pose proof (Q.le_max_l x y). pose proof (Q.le_max_r x y).
    split; [lra |]. constructor; [lra | exact H2].
Qed.

Lemma fold_max_zero (xs : list Q) : forall (x : Q),
  (x == 0)%Q -> Forall (fun z => (z == 0)%Q) xs -> (fold_left Qmax xs x == 0)%Q.
Proof.
  induction xs as [| y xs IH]; intros x Hx F; cbn [fold_left]; [exact Hx |].
  inversion F as [| ? ? Hy F']; subst. apply IH; [| exact F'].
  destruct (Q.max_spec x y) as [[_ E] | [_ E]]; rewrite E; assumption.
Qed.

Lemma nth_skipn_shift {A : Type} (l : list A) (n k : nat) (d : A) :
  nth k (skipn n l) d = nth (n + k) l d.
Proof.
  revert l. induction n as [| n IH]; intros l; [reflexivity |].
  destruct l as [| x l]; [now destruct k | apply IH].
Qed.

Section TopPriority.
Context {R : Type}.
Implicit Types (st : SumTree.t R) (w : ExperienceReplay.world R).

(** The priority of a leaf is one of the values [tree[-capacity:]]. *)
Lemma leaf_in_leaf_priorities st (j : Z) :
  wf_tree st -> is_leaf st j -> In (prio (SumTree.tree st) j) (leaf_priorities st).
Proof.
  intros (Hc & Hlen & _) Hj. unfold is_leaf in Hj. unfold leaf_priorities.
  rewrite slice_last by lia.
  replace (Z.to_nat (len (SumTree.tree st) - SumTree.capacity st))
    with (Z.to_nat (SumTree.capacity st - 1)) by lia.
  unfold prio.
  replace (Z.to_nat j)
    with (Z.to_nat (SumTree.capacity st - 1) + Z.to_nat (j - (SumTree.capacity st - 1)))%nat
    by lia.
  rewrite <- nth_skipn_shift. apply nth_In.
  rewrite length_skipn. unfold len in Hlen. lia.
Qed.

Lemma sumtree_add_spec st (p : Q) (r : R) :
  wf_tree st ->
  exists st',
    SumTree.add p r st = (st', Ok tt) /\
    wf_tree st' /\
    SumTree.capacity st' = SumTree.capacity st /\
    SumTree.data_pointer st' = (SumTree.data_pointer st + 1) mod SumTree.capacity st /\
    SumTree.data st' =
      replace_nth (Z.to_nat (SumTree.data_pointer st)) (SumTree.Item r) (SumTree.data st) /\
    prio (SumTree.tree st') (SumTree.data_pointer st + SumTree.capacity st - 1) = p /\
    (forall j, is_leaf st j -> j <> SumTree.data_pointer st + SumTree.capacity st - 1 ->
       prio (SumTree.tree st') j = prio (SumTree.tree st) j) /\
    (sum_invariant (SumTree.tree st) -> sum_invariant (SumTree.tree st')).
Proof.
  intros WF. pose proof WF as (Hc & Hlen & Hd & Hp).
  set (dp := SumTree.data_pointer st) in *. set (c := SumTree.capacity st) in *.
  set (st1 := SumTree.set_data (replace_nth (Z.to_nat dp) (SumTree.Item r) (SumTree.data st)) st).
  assert (WF1 : wf_tree st1).
  { unfold wf_tree, st1. st_simpl. rewrite replace_nth_len. auto. }
  destruct (update_leaf st1 (dp + c - 1) p WF1) as (st2 & E2 & WF2 & C2 & D2 & P2 & Pr & U2 & I2).
  { unfold is_leaf, st1. st_simpl. fold c. lia. }
  unfold st1 in C2, D2, P2, I2, U2. unfold is_leaf in U2. st_simpl. fold c dp in C2, P2, U2.
  pose proof WF2 as (Hc2 & Hlen2 & Hd2 & Hp2). rewrite C2, P2 in *.
  exists (SumTree.set_data_pointer ((dp + 1) mod c) st2).
  split.
  - unfold SumTree.add. rewrite !bind_gets. fold dp c.
    rewrite (bind_ok _ _ _ _ _ (data_set_in st dp (SumTree.Item r) ltac:(lia))).
    fold st1. rewrite (bind_ok _ _ _ _ _ E2).
    rewrite bind_modify, !bind_gets. st_simpl. rewrite C2, P2.
    destruct (Z.leb_spec c (dp + 1)) as [Hw | Hw].
    + assert (dp + 1 = c) by lia.
      replace ((dp + 1) mod c) with 0
        by (replace (dp + 1) with c by lia; now rewrite Z.mod_same by lia).
      destruct st2; reflexivity.
    + rewrite Z.mod_small by lia. destruct st2; reflexivity.
  - assert (0 <= (dp + 1) mod c < c) by (apply Z.mod_pos_bound; lia).
    unfold wf_tree, is_leaf. st_simpl. rewrite C2. fold c.
    split; [repeat split; auto; lia |]. repeat split; auto.
Qed.

End TopPriority.



Section Ring.
Context {R : Type}.
Implicit Types (st : SumTree.t R) (w : ExperienceReplay.world R).

Lemma add_prioritized_data w st (r : R) :
  ExperienceReplay.prioritized (ExperienceReplay.self w) = true ->
  ExperienceReplay.buffer (ExperienceReplay.self w) = ExperienceReplay.Tree st ->
  wf_tree st ->
  exists st',
    ExperienceReplay.add r w =
      (ExperienceReplay.set_self
         (ExperienceReplay.set_buffer (ExperienceReplay.Tree st') (ExperienceReplay.self w)) w,
       Ok tt) /\
    wf_tree st' /\
    SumTree.capacity st' = SumTree.capacity st /\
    SumTree.data_pointer st' = (SumTree.data_pointer st + 1) mod SumTree.capacity st /\
    SumTree.data st' =
      replace_nth (Z.to_nat (SumTree.data_pointer st)) (SumTree.Item r) (SumTree.data st).
Proof.
  intros Hp Hb WF.
  destruct (leaf_priorities_nonempty st WF) as (x & xs & El).
  set (m := fold_left Qmax xs x).
  destruct (sumtree_add_spec st
              (if Qeq_bool m 0 then ExperienceReplay.absolute_error_upper else m) r WF)
    as (st' & E & WF' & C' & D' & Da & _).
  exists st'. split; [| auto].
  unfold ExperienceReplay.add. rewrite bind_gets, Hp. cbn [negb].
  erewrite bind_ok; [| apply (on_tree_read _ w st); [exact Hb | reflexivity]].
  fold (leaf_priorities st). rewrite El. cbn [np_max]. rewrite bind_lift_ok. fold m.
  apply (on_tree_run _ w st st' _ Hb E).
Qed.

(** The data cells after a sequence of insertions: the [k]-th record of
    the sequence sits [k] cells after the first insertion point, around
    the ring, unless a later record has overwritten it; cells that no
    insertion reached are unchanged. *)
Lemma add_seq_ring (rs : list R) : forall w st (d : R),
  ExperienceReplay.prioritized (ExperienceReplay.self w) = true ->
  ExperienceReplay.buffer (ExperienceReplay.self w) = ExperienceReplay.Tree st ->
  wf_tree st ->
  exists st',
    add_seq rs w =
      (ExperienceReplay.set_self
         (ExperienceReplay.set_buffer (ExperienceReplay.Tree st') (ExperienceReplay.self w)) w,
       Ok tt) /\
    wf_tree st' /\
    SumTree.capacity st' = SumTree.capacity st /\
    (forall k : nat,
       len rs - SumTree.capacity st <= Z.of_nat k < len rs ->
       nth (Z.to_nat ((SumTree.data_pointer st + Z.of_nat k) mod SumTree.capacity st))
           (SumTree.data st') SumTree.Zero
       = SumTree.Item (nth k rs d)) /\
    (forall i : Z,
       0 <= i < SumTree.capacity st ->
       (forall k : nat, Z.of_nat k < len rs ->
          (SumTree.data_pointer st + Z.of_nat k) mod SumTree.capacity st <> i) ->
       nth (Z.to_nat i) (SumTree.data st') SumTree.Zero
       = nth (Z.to_nat i) (SumTree.data st) SumTree.Zero).
Proof.
  induction rs as [| r rs IH]; intros w st d Hp Hb WF.
  - exists st. cbn [add_seq]. unfold ret, len. cbn [length].
    split; [destruct w as [s h dk], s; er_simpl; subst; reflexivity |].
    split; [exact WF |]. split; [reflexivity |]. split; [intros k Hk; lia | auto].
  - destruct (add_prioritized_data w st r Hp Hb WF) as (st1 & E1 & WF1 & C1 & D1 & Da1).
    destruct (IH (ExperienceReplay.set_self
                    (ExperienceReplay.set_buffer (ExperienceReplay.Tree st1)
                       (ExperienceReplay.self w)) w) st1 d Hp eq_refl WF1)
      as (st' & E' & WF' & C' & Hit & Miss).
    pose proof WF as (Hc & _ & Hd & Hdp).
    set (c := SumTree.capacity st) in *. set (dp := SumTree.data_pointer st) in *.
    rewrite C1, D1 in Hit, Miss.
    assert (Hshift : forall k : nat,
              ((dp + 1) mod c + Z.of_nat k) mod c = (dp + Z.of_nat (S k)) mod c).
    { intros k. rewrite Zplus_mod_idemp_l. f_equal. lia. }
    assert (Hlen : len (r :: rs) = len rs + 1) by (unfold len; cbn [length]; lia).
    exists st'. cbn [add_seq].
    rewrite (bind_ok _ _ _ _ _ E1), E'. er_simpl.
    split; [reflexivity |]. split; [exact WF' |]. split; [congruence |]. split.
    + intros [| k] Hk.
      * (* the first record: reached by no later insertion *)
        cbn [nth]. rewrite Z.add_0_r, Z.mod_small by lia.
        rewrite (Miss dp ltac:(lia)).
        -- rewrite Da1. apply nth_replace_nth_same. unfold len in Hd. lia.
        -- intros k Hk'. rewrite Hshift.
           intros Heq.
           assert (Hmod : (Z.of_nat (S k)) mod c = 0).
           { apply (f_equal (fun z => (z - dp) mod c)) in Heq.
             rewrite Zminus_mod_idemp_l in Heq.
             replace (dp + Z.of_nat (S k) - dp) with (Z.of_nat (S k)) in Heq by lia.
             rewrite Heq. replace (dp - dp) with 0 by lia. apply Z.mod_0_l. lia. }
           rewrite Z.mod_small in Hmod by lia. lia.
      * cbn [nth]. rewrite <- Hshift. apply Hit. lia.
    + intros i Hi Hmiss.
      rewrite (Miss i Hi).
      * rewrite Da1. apply nth_replace_nth_other.
        specialize (Hmiss 0%nat ltac:(pose proof (len_nonneg rs); lia)).
        rewrite Z.add_0_r, Z.mod_small in Hmiss by lia. lia.
      * intros k Hk. rewrite Hshift. apply Hmiss. lia.
Qed.

End Ring.

(** X3.  Prioritized mode keeps the most recent records: after any
    sequence of [add] calls on a new store of capacity [c], every call has
    returned, each of the last [c] records of the sequence sits in data
    cell [k mod c], [k] being its position in the sequence (older records
    have been overwritten, oldest first), and the cells that no record has
    reached still hold the initial 0. *)
Theorem prioritized_ring_keeps_most_recent (R : Type) (save : bool)
  (c ss il : Z) (s0 : ExperienceReplay.t R) (rs : list R) (d : R) :
  ExperienceReplay.init save true c ss il = Ok s0 ->
  exists w' st',
    add_seq rs (new_world s0) = (w', Ok tt) /\
    ExperienceReplay.buffer (ExperienceReplay.self w') = ExperienceReplay.Tree st' /\
    (forall k : nat,
       len rs - c <= Z.of_nat k < len rs ->
       nth (Z.to_nat (Z.of_nat k mod c)) (SumTree.data st') SumTree.Zero
       = SumTree.Item (nth k rs d)) /\
    (forall i : Z, len rs <= i < c ->
       nth (Z.to_nat i) (SumTree.data st') SumTree.Zero = SumTree.Zero).
Proof.
  intros Hi. unfold ExperienceReplay.init in Hi.
  destruct (SumTree.init c) as [st | e |] eqn:Ei; try discriminate.
  assert (Es : s0 = ExperienceReplay.mk c ss il true save
                      (ExperienceReplay.Tree st) ExperienceReplay.PER_b0)
    by congruence.
  subst s0. clear Hi.
  destruct (init_wf c st Ei) as (WF & C & _ & _ & Da & Dp).
  destruct (add_seq_ring rs (new_world
              (ExperienceReplay.mk c ss il true save (ExperienceReplay.Tree st)
                 ExperienceReplay.PER_b0)) st d eq_refl eq_refl WF)
    as (st' & E & _ & _ & Hit & Miss).
  rewrite C, Dp in *.
  eexists. exists st'. split; [exact E |]. split; [reflexivity |]. split.
  - intros k Hk. apply Hit. exact Hk.
  - intros i Hi. pose proof (len_nonneg rs).
    rewrite Miss.
    + rewrite Da. apply nth_repeat.
    + lia.
    + intros k Hk. cbn [Z.add]. rewrite Z.mod_small by lia. lia.
Qed.

Lemma prioritized_ring_keeps_most_recent_witness :
  exists w' st',
    add_seq [7; 8; 9]%nat (new_world new_prioritized_store) = (w', Ok tt) /\
    ExperienceReplay.buffer (ExperienceReplay.self w') = ExperienceReplay.Tree st' /\
    (forall k : nat,
       len [7; 8; 9]%nat - 2 <= Z.of_nat k < len [7; 8; 9]%nat ->
       nth (Z.to_nat (Z.of_nat k mod 2)) (SumTree.data st') SumTree.Zero
       = SumTree.Item (nth k [7; 8; 9]%nat 0%nat)) /\
    (forall i : Z, len [7; 8; 9]%nat <= i < 2 ->
       nth (Z.to_nat i) (SumTree.data st') SumTree.Zero = SumTree.Zero).
Proof.
  exact (prioritized_ring_keeps_most_recent nat false 2 5000 3 new_prioritized_store
           [7; 8; 9]%nat 0%nat eq_refl).
Defined.

(** X1.  Uniform mode keeps the most recent records: after any sequence
    of [add] calls on a new store of capacity [c], every call has returned,
    the buffer holds the last [c] records of the sequence in the order of
    their insertion (the oldest have left first), and [buffer_size] is the
    number of calls up to [c] and [c] beyond.  With [c = 0] the store
    stays empty. *)
Theorem uniform_store_keeps_most_recent (R : Type) (save : bool) (c ss il : Z)
  (s0 : ExperienceReplay.t R) (rs : list R) :
  ExperienceReplay.init save false c ss il = Ok s0 ->
  exists w',
    add_seq rs (new_world s0) = (w', Ok tt) /\
    ExperienceReplay.buffer (ExperienceReplay.self w') =
      ExperienceReplay.Deque (lastn (Z.to_nat c) rs) c /\
    ExperienceReplay.buffer_size w' = (w', Ok (Z.min (len rs) c)) /\
    (c = 0 -> ExperienceReplay.buffer (ExperienceReplay.self w') = ExperienceReplay.Deque [] 0).
Proof.
  intros Hi.
  destruct (uniform_store_fifo save c ss il s0 rs Hi) as (w' & E & Hb & Hs).
  exists w'. split; [exact E |]. split; [exact Hb |]. split.
  - unfold ExperienceReplay.buffer_size, gets. now rewrite Hs.
  - intros ->. rewrite Hb. unfold lastn. cbn [Z.to_nat].
    rewrite Nat.sub_0_r, skipn_all. reflexivity.
Qed.

Lemma uniform_store_keeps_most_recent_witness :
  exists w',
    add_seq [1; 2; 3]%nat
      (new_world (ExperienceReplay.mk 2 5000 3 false false (ExperienceReplay.Deque [] 2)
                    ExperienceReplay.PER_b0)) = (w', Ok tt) /\
    ExperienceReplay.buffer (ExperienceReplay.self w') =
      ExperienceReplay.Deque (lastn (Z.to_nat 2) [1; 2; 3]%nat) 2 /\
    ExperienceReplay.buffer_size w' = (w', Ok (Z.min (len [1; 2; 3]%nat) 2)) /\
    (2 = 0 -> ExperienceReplay.buffer (ExperienceReplay.self w') = ExperienceReplay.Deque [] 0).
Proof.
  exact (uniform_store_keeps_most_recent nat false 2 5000 3
           (ExperienceReplay.mk 2 5000 3 false false (ExperienceReplay.Deque [] 2)
              ExperienceReplay.PER_b0)
           [1; 2; 3]%nat eq_refl).
Defined.

(** ** Single updates *)

Section UpdateEffect.
Context {R : Type}.
Implicit Types (s st : SumTree.t R) (tr : list Q).

(** The walk adds [change] to the nodes it visits, once each, and to the
    root when it starts below it. *)
Lemma propagate_effect (fuel : nat) : forall (idx : Z) (change : Q) s,
  0 <= idx < len (SumTree.tree s) ->
  (Z.to_nat idx <= fuel)%nat ->
  exists tr',
    SumTree.propagate fuel idx change s = (SumTree.set_tree tr' s, Ok tt) /\
    (forall j, 0 <= j ->
       prio tr' j = prio (SumTree.tree s) j \/
       (prio tr' j == prio (SumTree.tree s) j + change)%Q) /\
    (0 < idx -> (prio tr' 0 == prio (SumTree.tree s) 0 + change)%Q).
Proof.
  induction fuel as [| fuel IH]; intros idx change s Hidx Hfuel.
  - assert (idx = 0) by lia. subst idx. cbn [SumTree.propagate Z.eqb].
    exists (SumTree.tree s).
    split; [destruct s; reflexivity |]. split; [intros j Hj; now left | lia].
  - cbn [SumTree.propagate].
    destruct (Z.eqb_spec idx 0) as [-> | Hne].
    + exists (SumTree.tree s).
      split; [destruct s; reflexivity |]. split; [intros j Hj; now left | lia].
    + pose proof (parent_bounds idx ltac:(lia)) as Hp.
      set (p := (idx - 1) / 2) in *.
      unfold bind at 1. rewrite tree_get_in by lia.
      unfold bind at 1. rewrite tree_set_in by lia.
      set (tr1 := replace_nth (Z.to_nat p) (prio (SumTree.tree s) p + change)%Q (SumTree.tree s)).
      destruct (IH p change (SumTree.set_tree tr1 s)) as (tr' & E & A & B).
      * cbn. unfold tr1. rewrite replace_nth_len. lia.
      * lia.
      * change (SumTree.tree (SumTree.set_tree tr1 s)) with tr1 in *.
        exists tr'. rewrite E. split; [reflexivity |].
        assert (P1 : forall j, 0 <= j ->
                  prio tr1 j = if j =? p then (prio (SumTree.tree s) p + change)%Q
                               else prio (SumTree.tree s) j).
        { intros j Hj. unfold tr1. apply prio_replace; lia. }
        split.
        -- intros j Hj. specialize (P1 j Hj).
           destruct (Z.eqb_spec j p) as [Ejp | Hjp].
           ++ (* the parent: the rest of the walk starts above it *)
              subst j. right. destruct (Z.eq_dec p 0) as [Hp0 | Hp0].
              ** rewrite Hp0 in *. clear B A.
                 assert (E0 : SumTree.propagate fuel 0 change (SumTree.set_tree tr1 s)
                              = (SumTree.set_tree tr1 s, Ok tt))
                   by (destruct fuel; reflexivity).
                 rewrite E0 in E.
                 assert (tr' = tr1) by (inversion E; reflexivity). subst tr'.
                 rewrite P1. reflexivity.
              ** destruct (propagate_ok fuel p change (SumTree.set_tree tr1 s))
                   as (tr'' & E' & _ & U & _).
                 { cbn. unfold tr1. rewrite replace_nth_len. lia. }
                 { lia. }
                 rewrite E in E'. assert (tr'' = tr') by (inversion E'; reflexivity).
                 subst tr''.
                 change (SumTree.tree (SumTree.set_tree tr1 s)) with tr1 in U.
                 rewrite (U p) by lia. rewrite P1. reflexivity.
           ++ destruct (A j Hj) as [Ha | Ha].
              ** left. rewrite Ha, P1. reflexivity.
              ** right. rewrite Ha, P1. reflexivity.
        -- intros _. destruct (Z.eq_dec p 0) as [Hp0 | Hp0].
           ++ assert (E0 : SumTree.propagate fuel p change (SumTree.set_tree tr1 s)
                           = (SumTree.set_tree tr1 s, Ok tt))
                by (rewrite Hp0; destruct fuel; reflexivity).
              rewrite E0 in E.
              assert (tr' = tr1) by (inversion E; reflexivity). subst tr'.
              rewrite (P1 0) by lia. rewrite Hp0. cbn [Z.eqb]. reflexivity.
           ++ rewrite (B ltac:(lia)). rewrite (P1 0) by lia.
              destruct (Z.eqb_spec 0 p); [lia | reflexivity].
Qed.

Lemma update_effect (idx : Z) (p : Q) s :
  0 <= idx < len (SumTree.tree s) ->
  exists tr',
    SumTree.update idx p s = (SumTree.set_tree tr' s, Ok tt) /\
    prio tr' idx = p /\
    (forall j, 0 <= j -> j <> idx ->
       prio tr' j = prio (SumTree.tree s) j \/
       (prio tr' j == prio (SumTree.tree s) j + (p - prio (SumTree.tree s) idx))%Q) /\
    (prio tr' 0 == prio (SumTree.tree s) 0 + (p - prio (SumTree.tree s) idx))%Q.
Proof.
  intros Hidx.
  destruct (update_ok idx p s Hidx) as (tr' & E & _ & Pi & _).
  exists tr'. split; [exact E |]. split; [exact Pi |].
  revert E. unfold SumTree.update.
  unfold bind at 1. rewrite tree_get_in by assumption.
  unfold bind at 1. rewrite tree_set_in by assumption.
  unfold bind at 1. unfold gets at 1.
  set (tr0 := replace_nth (Z.to_nat idx) p (SumTree.tree s)).
  assert (L0 : len tr0 = len (SumTree.tree s)) by apply replace_nth_len.
  change (SumTree.tree (SumTree.set_tree tr0 s)) with tr0.
  destruct (propagate_effect (length tr0) idx (p - prio (SumTree.tree s) idx)%Q
              (SumTree.set_tree tr0 s)) as (tr'' & E' & A & B).
  { change (SumTree.tree (SumTree.set_tree tr0 s)) with tr0. lia. }
  { unfold len in *. lia. }
  change (SumTree.tree (SumTree.set_tree tr0 s)) with tr0 in *.
  rewrite E'. intros E. assert (tr'' = tr') by (inversion E; reflexivity). subst tr''.
  assert (P0 : forall j, 0 <= j -> prio tr0 j = if j =? idx then p else prio (SumTree.tree s) j).
  { intros j Hj. unfold tr0. apply prio_replace; lia. }
  split.
  - intros j Hj Hne. specialize (P0 j Hj).
    destruct (Z.eqb_spec j idx); [lia |].
    destruct (A j Hj) as [Ha | Ha].
    + left. rewrite Ha, P0. reflexivity.
    + right. rewrite Ha, P0. reflexivity.
  - destruct (Z.eq_dec idx 0) as [-> | Hnz].
    + rewrite Pi. lra.
    + rewrite (B ltac:(lia)). rewrite (P0 0) by lia.
      destruct (Z.eqb_spec 0 idx); [lia | reflexivity].
Qed.

End UpdateEffect.



(** X5.  Updating a node twice in a row with the same priority: the second
    call returns and leaves every node of the tree at its value (the
    change it propagates is [p - p]). *)
Theorem update_twice_is_update_once (R : Type) (st : SumTree.t R) (idx : Z) (p : Q) :
  0 <= idx < len (SumTree.tree st) ->
  exists st1 st2,
    SumTree.update idx p st = (st1, Ok tt) /\
    SumTree.update idx p st1 = (st2, Ok tt) /\
    len (SumTree.tree st2) = len (SumTree.tree st1) /\
    (forall j, 0 <= j -> (prio (SumTree.tree st2) j == prio (SumTree.tree st1) j)%Q) /\
    SumTree.data st2 = SumTree.data st1 /\
    SumTree.data_pointer st2 = SumTree.data_pointer st1.
Proof.
  intros Hidx.
  destruct (update_ok idx p st Hidx) as (tr1 & E1 & L1 & P1 & _).
  set (st1 := SumTree.set_tree tr1 st) in *.
  assert (Hidx1 : 0 <= idx < len (SumTree.tree st1)) by (unfold st1; st_simpl; lia).
  destruct (update_ok idx p st1 Hidx1) as (tr2 & E2 & L2 & _).
  destruct (update_effect idx p st1 Hidx1) as (tr2' & E2' & P2 & A & _).
  rewrite E2 in E2'. assert (tr2' = tr2) by (inversion E2'; reflexivity). subst tr2'.
  exists st1, (SumTree.set_tree tr2 st1).
  split; [exact E1 |]. split; [exact E2 |]. st_simpl.
  split; [exact L2 |]. split; [| split; reflexivity].
  intros j Hj. unfold st1 in *. st_simpl.
  destruct (Z.eq_dec j idx) as [-> | Hne]; [rewrite P2, P1; reflexivity |].
  destruct (A j Hj Hne) as [Ha | Ha]; rewrite Ha; [reflexivity |].
  rewrite P1. lra.
Qed.

Lemma update_twice_is_update_once_witness :
  exists st1 st2,
    SumTree.update 1 (3 # 4) tree_1_1 = (st1, Ok tt) /\
    SumTree.update 1 (3 # 4) st1 = (st2, Ok tt) /\
    len (SumTree.tree st2) = len (SumTree.tree st1) /\
    (forall j, 0 <= j -> (prio (SumTree.tree st2) j == prio (SumTree.tree st1) j)%Q) /\
    SumTree.data st2 = SumTree.data st1 /\
    SumTree.data_pointer st2 = SumTree.data_pointer st1.
Proof.
  refine (update_twice_is_update_once nat tree_1_1 1 (3 # 4) _).
  unfold len, tree_1_1. cbn [SumTree.tree length]. lia.
Defined.

(** ** Draws outside the range *)

Section OutOfRange.
Context {R : Type}.
Implicit Types (s st : SumTree.t R).

Lemma prio_nonneg (tr : list Q) (j : Z) :
  Forall (fun x => (0 <= x)%Q) tr -> (0 <= prio tr j)%Q.
Proof.
  intros F. unfold prio.
  destruct (Nat.lt_ge_cases (Z.to_nat j) (length tr)) as [Hlt | Hge].
  - rewrite Forall_forall in F. apply F. now apply nth_In.
  - rewrite nth_overflow by assumption. lra.
Qed.

(** With no negative node, a draw at or below 0 descends to the left at
    every node. *)
Lemma descend_low (fuel : nat) : forall (node : Z) (v : Q) s (c : Z),
  len (SumTree.tree s) = 2 * c - 1 ->
  Forall (fun x => (0 <= x)%Q) (SumTree.tree s) ->
  0 <= node < len (SumTree.tree s) ->
  (Z.to_nat (len (SumTree.tree s) - node) <= fuel)%nat ->
  (v <= 0)%Q ->
  exists leaf after,
    SumTree.descend fuel node v s = (s, Ok leaf) /\
    inorder_leaves fuel (len (SumTree.tree s)) node = leaf :: after.
Proof.
  induction fuel as [| fuel IH]; intros node v s c Hlen F Hnode Hfuel Hv.
  - lia.
  - cbn [SumTree.descend inorder_leaves].
    destruct (Z.leb_spec (len (SumTree.tree s)) (2 * node + 1)) as [Hleaf | Hinner].
    + exists node, []. split; reflexivity.
    + unfold bind. rewrite tree_get_in by lia.
      pose proof (prio_nonneg (SumTree.tree s) (2 * node + 1) F) as Hl.
      assert (Hcmp : Qle_bool v (prio (SumTree.tree s) (2 * node + 1)) = true)
        by (apply Qle_bool_iff; lra).
      rewrite Hcmp.
      destruct (IH (2 * node + 1) v s c Hlen F) as (leaf & after & E & EL); try lia; auto.
      exists leaf, (after ++ inorder_leaves fuel (len (SumTree.tree s)) (2 * node + 2)).
      rewrite E, EL. split; reflexivity.
Qed.

(** With no negative node and the sums in place, a draw above the value
    of a node descends to the right at every node below it. *)
Lemma descend_high (fuel : nat) : forall (node : Z) (v : Q) s (c : Z),
  len (SumTree.tree s) = 2 * c - 1 ->
  Forall (fun x => (0 <= x)%Q) (SumTree.tree s) ->
  sum_invariant (SumTree.tree s) ->
  0 <= node < len (SumTree.tree s) ->
  (Z.to_nat (len (SumTree.tree s) - node) <= fuel)%nat ->
  (prio (SumTree.tree s) node < v)%Q ->
  exists leaf before,
    SumTree.descend fuel node v s = (s, Ok leaf) /\
    inorder_leaves fuel (len (SumTree.tree s)) node = before ++ [leaf].
Proof.
  induction fuel as [| fuel IH]; intros node v s c Hlen F SI Hnode Hfuel Hv.
  - lia.
  - cbn [SumTree.descend inorder_leaves].
    destruct (Z.leb_spec (len (SumTree.tree s)) (2 * node + 1)) as [Hleaf | Hinner].
    + exists node, []. split; reflexivity.
    + unfold bind. rewrite tree_get_in by lia.
      pose proof (SI node ltac:(lia) ltac:(lia)) as Hsum.
      pose proof (prio_nonneg (SumTree.tree s) (2 * node + 2) F) as Hr.
      assert (Hcmp : Qle_bool v (prio (SumTree.tree s) (2 * node + 1)) = false).
      { destruct (Qle_bool v (prio (SumTree.tree s) (2 * node + 1))) eqn:Eb; [| reflexivity].
        apply Qle_bool_iff in Eb. lra. }
      rewrite Hcmp.
      replace (2 * node + 1 + 1) with (2 * node + 2) by lia.
      destruct (IH (2 * node + 2) (v - prio (SumTree.tree s) (2 * node + 1))%Q s c Hlen F SI)
        as (leaf & before & E & EL); try lia; try lra.
      exists leaf, (inorder_leaves fuel (len (SumTree.tree s)) (2 * node + 1) ++ before).
      rewrite E, EL, <- app_assoc. split; reflexivity.
Qed.

(** The leaf reached by a descent is one of the leaves below its start. *)
Lemma descend_in_inorder (fuel : nat) : forall (node : Z) (v : Q) s (c leaf : Z),
  len (SumTree.tree s) = 2 * c - 1 ->
  0 <= node < len (SumTree.tree s) ->
  (Z.to_nat (len (SumTree.tree s) - node) <= fuel)%nat ->
  SumTree.descend fuel node v s = (s, Ok leaf) ->
  In leaf (inorder_leaves fuel (len (SumTree.tree s)) node).
Proof.
  induction fuel as [| fuel IH]; intros node v s c leaf Hlen Hnode Hfuel; [lia |].
  cbn [SumTree.descend inorder_leaves].
  destruct (Z.leb_spec (len (SumTree.tree s)) (2 * node + 1)) as [Hleaf | Hinner].
  - intros [= <-]. now left.
  - unfold bind. rewrite tree_get_in by lia.
    destruct (Qle_bool v (prio (SumTree.tree s) (2 * node + 1))); intros Ds;
      apply in_or_app.
    + left. apply (IH _ v s c); [assumption | lia | lia | exact Ds].
    + right. replace (2 * node + 2) with (2 * node + 1 + 1) by lia.
      apply (IH _ (v - prio (SumTree.tree s) (2 * node + 1))%Q s c);
        [assumption | lia | lia | exact Ds].
Qed.

End OutOfRange.

(** X6.  [get_leaf] on a well-formed tree returns for every value [v],
    in range or not: it raises nothing, leaves the tree as it is, and
    yields the index of a leaf, the priority stored there and the data
    cell of that leaf.  (The descent ends within [len(tree)] rounds for
    every capacity, a power of two or not.) *)
Theorem get_leaf_always_returns (R : Type) (st : SumTree.t R) (v : Q) :
  wf_tree st ->
  exists leaf d,
    SumTree.get_leaf v st = (st, Ok (leaf, prio (SumTree.tree st) leaf, d)) /\
    is_leaf st leaf /\
    getitem (SumTree.data st) (leaf - SumTree.capacity st + 1) = Ok d /\
    In leaf (leaves_left_to_right (SumTree.tree st)).
Proof.
  intros WF.
  destruct (get_leaf_total v st WF) as (leaf & d & E & L & D & Ds).
  exists leaf, d. split; [exact E |]. split; [exact L |]. split; [exact D |].
  destruct WF as (Hc & Hlen & _). unfold leaves_left_to_right.
  apply (descend_in_inorder _ 0 v st (SumTree.capacity st)); auto;
    unfold len in *; lia.
Qed.

Lemma get_leaf_always_returns_witness :
  exists leaf d,
    SumTree.get_leaf (-5) tree_1_1
      = (tree_1_1, Ok (leaf, prio (SumTree.tree tree_1_1) leaf, d)) /\
    is_leaf tree_1_1 leaf /\
    getitem (SumTree.data tree_1_1) (leaf - SumTree.capacity tree_1_1 + 1) = Ok d /\
    In leaf (leaves_left_to_right (SumTree.tree tree_1_1)).
Proof.
  refine (get_leaf_always_returns nat tree_1_1 (-5) _).
  unfold wf_tree, len, tree_1_1.
  cbn [SumTree.capacity SumTree.tree SumTree.data SumTree.data_pointer length]. lia.
Defined.

(** X7.  Draws outside [[0, total_priority]] are clamped to the ends of
    the tree: when no node is negative, [get_leaf v] with [v <= 0] returns
    the leftmost leaf, and, the sums of the inner nodes being in place,
    [get_leaf v] with [v > total_priority] returns the rightmost leaf. *)
Theorem get_leaf_clamps (R : Type) (st : SumTree.t R) (v : Q) :
  wf_tree st ->
  Forall (fun x => (0 <= x)%Q) (SumTree.tree st) ->
  sum_invariant (SumTree.tree st) ->
  ((v <= 0)%Q ->
   exists leaf d after,
     SumTree.get_leaf v st = (st, Ok (leaf, prio (SumTree.tree st) leaf, d)) /\
     leaves_left_to_right (SumTree.tree st) = leaf :: after) /\
  ((prio (SumTree.tree st) 0 < v)%Q ->
   exists leaf d before,
     SumTree.get_leaf v st = (st, Ok (leaf, prio (SumTree.tree st) leaf, d)) /\
     leaves_left_to_right (SumTree.tree st) = before ++ [leaf]).
Proof.
  intros WF F SI.
  destruct (get_leaf_total v st WF) as (leaf & d & E & _ & _ & Ds).
  pose proof WF as (Hc & Hlen & _).
  split; intros Hv.
  - destruct (descend_low (length (SumTree.tree st)) 0 v st (SumTree.capacity st) Hlen F)
      as (leaf' & after & E' & EL); try (unfold len in *; lia); auto.
    assert (leaf' = leaf) by congruence. subst leaf'.
    exists leaf, d, after. split; [exact E | exact EL].
  - destruct (descend_high (length (SumTree.tree st)) 0 v st (SumTree.capacity st) Hlen F SI)
      as (leaf' & before & E' & EL); try (unfold len in *; lia); auto.
    assert (leaf' = leaf) by congruence. subst leaf'.
    exists leaf, d, before. split; [exact E | exact EL].
Qed.

Lemma get_leaf_clamps_witness :
  ((-5 <= 0)%Q ->
   exists leaf d after,
     SumTree.get_leaf (-5) tree_1_1
       = (tree_1_1, Ok (leaf, prio (SumTree.tree tree_1_1) leaf, d)) /\
     leaves_left_to_right (SumTree.tree tree_1_1) = leaf :: after) /\
  ((prio (SumTree.tree tree_1_1) 0 < -5)%Q ->
   exists leaf d before,
     SumTree.get_leaf (-5) tree_1_1
       = (tree_1_1, Ok (leaf, prio (SumTree.tree tree_1_1) leaf, d)) /\
     leaves_left_to_right (SumTree.tree tree_1_1) = before ++ [leaf]).
Proof.
  refine (get_leaf_clamps nat tree_1_1 (-5) _ _ _).
  - unfold wf_tree, len, tree_1_1.
    cbn [SumTree.capacity SumTree.tree SumTree.data SumTree.data_pointer length]. lia.
  - unfold tree_1_1. cbn [SumTree.tree]. repeat constructor; discriminate.
  - intros i Hi Hc. unfold len, tree_1_1 in Hc. cbn [SumTree.tree length] in Hc.
    assert (i = 0) by lia. subst i. reflexivity.
Defined.

(** ** What a draw changes, and where it lands *)

Section SampleFrame.
Context {R : Type}.
Variable np_power : Q -> Q -> Q.
Implicit Types (w : ExperienceReplay.world R).

Lemma set_beta_same w :
  ExperienceReplay.set_self
    (ExperienceReplay.set_PER_b (ExperienceReplay.PER_b (ExperienceReplay.self w))
       (ExperienceReplay.self w)) w = w.
Proof. destruct w as [s h d], s. reflexivity. Qed.

Lemma readonly_run {A : Type} (m : M (ExperienceReplay.world R) A) w :
  preserves (fun w => w) m -> m w = (w, snd (m w)).
Proof. intros H. specialize (H w). destruct (m w) as [w' o]. cbn in *. now subst. Qed.

(** Whatever the mode and the outcome, a [sample] call changes at most
    beta. *)
Lemma sample_only_beta (batch_size trace_length : Z) (rnd : nat -> nat) (unif : nat -> Q) w :
  exists b,
    fst (ExperienceReplay.sample np_power batch_size trace_length rnd unif w)
    = ExperienceReplay.set_self
        (ExperienceReplay.set_PER_b b (ExperienceReplay.self w)) w.
Proof.
  destruct (ExperienceReplay.prioritized (ExperienceReplay.self w)) eqn:Hp.
  - unfold ExperienceReplay.sample. rewrite bind_gets, Hp. cbn [negb].
    destruct (batch_size <? 0).
    + exists (ExperienceReplay.PER_b (ExperienceReplay.self w)).
      rewrite bind_raise. cbn [fst]. now rewrite set_beta_same.
    + rewrite bind_ret. unfold bind at 1.
      rewrite (readonly_run (ExperienceReplay.on_tree SumTree.total_priority) w)
        by apply on_tree_readonly, total_priority_readonly.
      destruct (snd (ExperienceReplay.on_tree SumTree.total_priority w)) as [total | e |].
      * rewrite bind_modify.
        set (w1 := ExperienceReplay.set_self _ w).
        exists (ExperienceReplay.PER_b (ExperienceReplay.self w1)).
        assert (Hro : forall A (m : M (ExperienceReplay.world R) A),
                  preserves (fun w => w) m -> fst (m w1) = w1) by (intros A m H; apply H).
        rewrite Hro; [reflexivity |].
        apply preserves_bind;
          [apply on_tree_readonly; intros st; reflexivity | intros leaves].
        apply preserves_bind; [apply preserves_lift | intros least].
        apply preserves_bind;
          [apply on_tree_readonly, total_priority_readonly | intros total'].
        apply preserves_bind; [apply preserves_gets | intros b].
        apply preserves_bind; [apply draw_leaves_readonly |].
        intros [[idx mem] ws]. apply preserves_ret.
      * exists (ExperienceReplay.PER_b (ExperienceReplay.self w)).
        cbn [fst]. now rewrite set_beta_same.
      * exists (ExperienceReplay.PER_b (ExperienceReplay.self w)).
        cbn [fst]. now rewrite set_beta_same.
  - exists (ExperienceReplay.PER_b (ExperienceReplay.self w)).
    rewrite (sample_uniform_readonly np_power w batch_size trace_length rnd unif Hp).
    now rewrite set_beta_same.
Qed.

End SampleFrame.

(** X8.  [sample] never changes what is stored: in either mode, whatever
    the arguments, the random draws and the outcome, the world after the
    call is the world before it with beta possibly replaced (records,
    priorities, insertion pointer, the arrays of the caller and the
    snapshot on disk are untouched); in uniform mode beta is untouched
    too. *)
Theorem sample_changes_only_beta (R : Type) (np_power : Q -> Q -> Q)
  (w : ExperienceReplay.world R) (batch_size trace_length : Z)
  (rnd : nat -> nat) (unif : nat -> Q) :
  (exists b,
     fst (ExperienceReplay.sample np_power batch_size trace_length rnd unif w)
     = ExperienceReplay.mkw
         (ExperienceReplay.mk
            (ExperienceReplay.capacity (ExperienceReplay.self w))
            (ExperienceReplay.storage_size (ExperienceReplay.self w))
            (ExperienceReplay.include_last (ExperienceReplay.self w))
            (ExperienceReplay.prioritized (ExperienceReplay.self w))
            (ExperienceReplay.save_experience (ExperienceReplay.self w))
            (ExperienceReplay.buffer (ExperienceReplay.self w)) b)
         (ExperienceReplay.heap w) (ExperienceReplay.disk w)) /\
  (ExperienceReplay.prioritized (ExperienceReplay.self w) = false ->
   fst (ExperienceReplay.sample np_power batch_size trace_length rnd unif w) = w).
Proof.
  split.
  - destruct (sample_only_beta np_power batch_size trace_length rnd unif w) as (b & E).
    exists b. exact E.
  - apply sample_uniform_readonly.
Qed.

Section Stratified.
Context {R : Type}.
Variable np_power : Q -> Q -> Q.
Implicit Types (st : SumTree.t R) (w : ExperienceReplay.world R).

(** The leaves and cells a prioritized [sample] call returns: one descent
    per segment, and the data cell of each leaf reached. *)
Lemma sample_prioritized_draws w st (batch_size trace_length : Z)
  (rnd : nat -> nat) (unif : nat -> Q) :
  ExperienceReplay.prioritized (ExperienceReplay.self w) = true ->
  ExperienceReplay.buffer (ExperienceReplay.self w) = ExperienceReplay.Tree st ->
  wf_tree st ->
  0 <= batch_size ->
  exists idx mem ws,
    snd (ExperienceReplay.sample np_power batch_size trace_length rnd unif w)
      = Ok (Some idx, ExperienceReplay.Cells mem, Some ws) /\
    Forall2 (fun i leaf =>
               SumTree.descend (length (SumTree.tree st)) 0
                 (segment_value (prio (SumTree.tree st) 0 / inject_Z batch_size) unif i) st
               = (st, Ok leaf)) (range batch_size) idx /\
    Forall2 (fun leaf d =>
               getitem (SumTree.data st) (leaf - SumTree.capacity st + 1) = Ok d) idx mem.
Proof.
  intros Hp Hb WF Hbs.
  set (beta' := Qmin 1 (beta w + ExperienceReplay.PER_b_increment)).
  set (w' := ExperienceReplay.set_self
               (ExperienceReplay.set_PER_b beta' (ExperienceReplay.self w)) w).
  destruct (leaf_priorities_nonempty st WF) as (x & xs & El).
  assert (Hb' : ExperienceReplay.buffer (ExperienceReplay.self w') = ExperienceReplay.Tree st)
    by exact Hb.
  set (total := prio (SumTree.tree st) 0).
  set (least := fold_left Qmin xs x).
  set (mw := max_weight_of np_power (least / total) batch_size beta').
  destruct (draw_leaves_ok np_power w' st batch_size (total / inject_Z batch_size) mw unif
              Hb' WF (range batch_size)) as (idx & mem & ws & E & _ & _ & _ & D & C).
  exists idx, mem, ws. split; [| split; [exact D | exact C]].
  unfold ExperienceReplay.sample. rewrite bind_gets, Hp. cbn [negb].
  destruct (Z.ltb_spec batch_size 0); [lia |]. rewrite bind_ret.
  rewrite (bind_ok _ _ _ _ _
             (on_tree_read _ w st _ Hb (total_priority_wf st WF))).
  rewrite bind_modify. fold (beta w). fold beta'. fold w'.
  erewrite bind_ok; [| apply (on_tree_read _ w' st); [exact Hb' | reflexivity]].
  fold (leaf_priorities st). rewrite El. cbn [np_min]. rewrite bind_lift_ok.
  rewrite (bind_ok _ _ _ _ _
             (on_tree_read _ w' st _ Hb' (total_priority_wf st WF))).
  rewrite bind_gets. fold total least.
  change (ExperienceReplay.PER_b (ExperienceReplay.self w')) with beta'.
  fold (max_weight_of np_power (least / total) batch_size beta'). fold mw.
  rewrite (bind_ok _ _ _ _ _ E). reflexivity.
Qed.

(** The value drawn in segment [i] lies in that segment. *)
Lemma segment_value_bounds (total : Q) (batch_size i : Z) (unif : nat -> Q) :
  (0 < total)%Q -> 0 <= i < batch_size ->
  (0 <= unif (Z.to_nat i))%Q -> (unif (Z.to_nat i) < 1)%Q ->
  (total / inject_Z batch_size * inject_Z i
   <= segment_value (total / inject_Z batch_size) unif i)%Q /\
  (segment_value (total / inject_Z batch_size) unif i
   < total / inject_Z batch_size * inject_Z (i + 1))%Q /\
  (total / inject_Z batch_size * inject_Z (i + 1) <= total)%Q.
Proof.
  intros Ht Hi Hu0 Hu1.
  assert (Hbs : (0 < inject_Z batch_size)%Q).
  { change 0%Q with (inject_Z 0). rewrite <- Zlt_Qlt. lia. }
  assert (Hseg : (0 < total / inject_Z batch_size)%Q).
  { apply Qlt_shift_div_l; [exact Hbs | lra]. }
  assert (Hmul : (total / inject_Z batch_size * inject_Z batch_size == total)%Q).
  { rewrite Qmult_comm. apply Qmult_div_r. lra. }
  assert (Hi0 : (0 <= inject_Z i)%Q).
  { change 0%Q with (inject_Z 0). rewrite <- Zle_Qle. lia. }
  assert (Hi1 : (inject_Z (i + 1) == inject_Z i + 1)%Q) by (rewrite inject_Z_plus; reflexivity).
  assert (Hile : (inject_Z (i + 1) <= inject_Z batch_size)%Q) by (rewrite <- Zle_Qle; lia).
  set (seg := (total / inject_Z batch_size)%Q) in *.
  unfold segment_value, np_random_uniform. rewrite Hi1.
  set (u := unif (Z.to_nat i)) in *. set (qi := inject_Z i) in *.
  assert (H1 : (0 <= seg * u)%Q) by (apply Qmult_le_0_compat; lra).
  assert (H2 : (seg * u < seg * 1)%Q) by (apply Qmult_lt_l; assumption).
  assert (H3 : (seg * (qi + 1) <= seg * inject_Z batch_size)%Q).
  { apply Qmult_le_l; [exact Hseg | lra]. }
  repeat split; lra.
Qed.

End Stratified.

Lemma Forall2_refine {A B : Type} (P P' : A -> B -> Prop) (Q' : A -> Prop)
  (l : list A) (l' : list B) :
  (forall a b, Q' a -> P a b -> P' a b) ->
  Forall Q' l -> Forall2 P l l' -> Forall2 P' l l'.
Proof.
  intros H F F2. induction F2 as [| a b l l' Pab F2 IH]; constructor.
  - inversion F; subst. now apply H.
  - inversion F; subst. now apply IH.
Qed.

Lemma range_bounds (n : Z) : Forall (fun i => 0 <= i < n) (range n).
Proof.
  unfold range. apply Forall_forall. intros i Hin.
  apply in_map_iff in Hin. destruct Hin as (k & <- & Hk).
  apply in_seq in Hk. lia.
Qed.



(** ** Uniform sampling of traces *)

Lemma remove_nth_incl {A : Type} (j : nat) (l : list A) (x : A) :
  In x (remove_nth j l) -> In x l.
Proof.
  revert j. induction l as [| y l IH]; intros [| j] H; cbn in *; auto.
  destruct H as [-> | H]; [now left | right; eauto].
Qed.

Lemma remove_nth_nodup {A : Type} (j : nat) (l : list A) :
  NoDup l -> NoDup (remove_nth j l).
Proof.
  revert j. induction l as [| y l IH]; intros [| j] H; cbn; auto.
  - now inversion H.
  - inversion H as [| ? ? Hy Hl]; subst. constructor; [| now apply IH].
    intros Hin. apply Hy. eapply remove_nth_incl; eassumption.
Qed.

Lemma remove_nth_drops {A : Type} (j : nat) (l : list A) (x : A) :
  NoDup l -> nth_error l j = Some x -> ~ In x (remove_nth j l).
Proof.
  revert j. induction l as [| y l IH]; intros [| j] H E; cbn in *; try discriminate.
  - inversion H; subst. now injection E as ->.
  - inversion H as [| ? ? Hy Hl]; subst. intros [-> | Hin].
    + apply Hy. eapply nth_error_In; eassumption.
    + now apply (IH j Hl E).
Qed.

Lemma draw_pool_incl {A : Type} (k : nat) : forall (pool : list A) (rnd : nat -> nat) (x : A),
  In x (draw_pool k pool rnd) -> In x pool.
Proof.
  induction k as [| k IH]; intros pool rnd x H; cbn [draw_pool] in H; [contradiction |].
  destruct (nth_error pool (rnd 0%nat mod length pool)) eqn:E; [| contradiction].
  destruct H as [<- | H].
  - eapply nth_error_In; eassumption.
  - eapply remove_nth_incl, IH; eassumption.
Qed.

Lemma draw_pool_nodup {A : Type} (k : nat) : forall (pool : list A) (rnd : nat -> nat),
  NoDup pool -> NoDup (draw_pool k pool rnd).
Proof.
  induction k as [| k IH]; intros pool rnd H; cbn [draw_pool]; [constructor |].
  destruct (nth_error pool (rnd 0%nat mod length pool)) eqn:E; [| constructor].
  constructor.
  - intros Hin. apply draw_pool_incl in Hin. revert Hin. now apply remove_nth_drops.
  - apply IH. now apply remove_nth_nodup.
Qed.

Lemma map_inj_nodup {A B : Type} (f : A -> B) (l : list A) :
  (forall a b, f a = f b -> a = b) -> NoDup l -> NoDup (map f l).
Proof.
  intros Hf N. induction N as [| x l Hx N IH]; cbn [map]; constructor; [| exact IH].
  intros Hin. apply in_map_iff in Hin. destruct Hin as (y & E & Hy).
  apply Hf in E. now subst y.
Qed.

Lemma range_nodup (n : Z) : NoDup (range n).
Proof.
  unfold range. apply map_inj_nodup; [| apply seq_NoDup].
  intros a b. lia.
Qed.

Lemma range_in (n i : Z) : In i (range n) -> 0 <= i < n.
Proof.
  unfold range. intros Hin. apply in_map_iff in Hin. destruct Hin as (k & <- & Hk).
  apply in_seq in Hk. lia.
Qed.

Section Traces.
Context {R : Type}.
Variable np_power : Q -> Q -> Q.
Implicit Types (w : ExperienceReplay.world R).

Lemma traces_ok (buf : list R) (trace_length : Z) (points : list Z) :
  0 <= trace_length ->
  Forall (fun p => 0 <= p) points ->
  ExperienceReplay.traces buf trace_length points
  = Ok (map (fun p => firstn (Z.to_nat trace_length) (skipn (Z.to_nat p) buf)) points).
Proof.
  intros Htl F. induction F as [| p points Hp F IH]; [reflexivity |].
  cbn [ExperienceReplay.traces map]. unfold islice.
  destruct (Z.ltb_spec p 0); [lia |].
  destruct (Z.ltb_spec (p + trace_length) 0); [lia |]. cbn [orb].
  rewrite IH. replace (p + trace_length - p) with trace_length by lia. reflexivity.
Qed.

Lemma sample_traces_run w (items : list R) (maxlen batch_size trace_length : Z)
  (rnd : nat -> nat) (unif : nat -> Q) :
  ExperienceReplay.prioritized (ExperienceReplay.self w) = false ->
  ExperienceReplay.buffer (ExperienceReplay.self w) = ExperienceReplay.Deque items maxlen ->
  1 < trace_length ->
  0 <= batch_size <= len items - trace_length ->
  exists points,
    ExperienceReplay.sample np_power batch_size trace_length rnd unif w
    = (w, Ok (None,
              ExperienceReplay.Traces
                (map (fun p => firstn (Z.to_nat trace_length) (skipn (Z.to_nat p) items))
                   points),
              None)) /\
    len points = batch_size /\
    NoDup points /\
    Forall (fun p => 0 <= p /\ p + trace_length < len items) points.
Proof.
  intros Hp Hb Htl Hbs.
  destruct (random_sample_ok (range (len items - trace_length)) batch_size rnd)
    as (points & E & L); [rewrite range_length; lia |].
  assert (F : Forall (fun p => 0 <= p /\ p + trace_length < len items) points).
  { apply Forall_forall. intros p Hin.
    unfold random_sample in E.
    destruct ((batch_size <? 0) || (len (range (len items - trace_length)) <? batch_size));
      [discriminate |].
    assert (points = draw_pool (Z.to_nat batch_size) (range (len items - trace_length)) rnd)
      by congruence.
    subst points. apply draw_pool_incl, range_in in Hin. lia. }
  assert (N : NoDup points).
  { unfold random_sample in E.
    destruct ((batch_size <? 0) || (len (range (len items - trace_length)) <? batch_size));
      [discriminate |].
    assert (points = draw_pool (Z.to_nat batch_size) (range (len items - trace_length)) rnd)
      by congruence.
    subst points. apply draw_pool_nodup, range_nodup. }
  exists points. split; [| split; [exact L | split; [exact N | exact F]]].
  unfold ExperienceReplay.sample. rewrite bind_gets, Hp. cbn [negb].
  destruct (Z.ltb_spec 1 trace_length); [| lia].
  unfold ExperienceReplay.buffer_size. rewrite bind_gets.
  rewrite (buffer_size_deque w items maxlen Hb), E, bind_lift_ok.
  rewrite (bind_ok _ _ _ _ _ (as_sequence_deque w items maxlen Hb)).
  rewrite traces_ok; [reflexivity | lia |].
  eapply Forall_impl; [| exact F]. cbv beta. intros; lia.
Qed.

Lemma sample_traces_short w (items : list R) (maxlen batch_size trace_length : Z)
  (rnd : nat -> nat) (unif : nat -> Q) :
  ExperienceReplay.prioritized (ExperienceReplay.self w) = false ->
  ExperienceReplay.buffer (ExperienceReplay.self w) = ExperienceReplay.Deque items maxlen ->
  1 < trace_length ->
  Z.max 0 (len items - trace_length) < batch_size ->
  ExperienceReplay.sample np_power batch_size trace_length rnd unif w = (w, Raise ValueError).
Proof.
  intros Hp Hb Htl Hbs. unfold ExperienceReplay.sample.
  rewrite bind_gets, Hp. cbn [negb].
  destruct (Z.ltb_spec 1 trace_length); [| lia].
  unfold ExperienceReplay.buffer_size. rewrite bind_gets.
  rewrite (buffer_size_deque w items maxlen Hb).
  rewrite random_sample_too_large by (rewrite range_length; lia).
  reflexivity.
Qed.

End Traces.

(** X10.  Uniform sampling of traces ([trace_length > 1]).  The start
    points are drawn without repetition from [range(0, size -
    trace_length)].  When [0 <= batch_size <= size - trace_length] the
    call returns [batch_size] traces and leaves the store unchanged; each
    trace is the run of exactly [trace_length] consecutive records that
    starts at its point; the points are pairwise distinct and every trace
    ends before the last position of the buffer, so the newest record is
    in no trace.  When [batch_size] exceeds [max(0, size - trace_length)]
    the call raises [ValueError] and leaves the store unchanged: a buffer
    of exactly [batch_size + trace_length - 1] records is not enough. *)
Theorem sample_uniform_traces (R : Type) (np_power : Q -> Q -> Q)
  (w : ExperienceReplay.world R) (items : list R) (maxlen batch_size trace_length : Z)
  (rnd : nat -> nat) (unif : nat -> Q) :
  ExperienceReplay.prioritized (ExperienceReplay.self w) = false ->
  ExperienceReplay.buffer (ExperienceReplay.self w) = ExperienceReplay.Deque items maxlen ->
  1 < trace_length ->
  0 <= batch_size ->
  (batch_size <= len items - trace_length ->
   exists points batch,
     ExperienceReplay.sample np_power batch_size trace_length rnd unif w
     = (w, Ok (None, ExperienceReplay.Traces batch, None)) /\
     len batch = batch_size /\
     NoDup points /\
     Forall2 (fun p tr =>
                0 <= p /\ p + trace_length <= len items - 1 /\
                len tr = trace_length /\
                forall k, (k < Z.to_nat trace_length)%nat ->
                          nth_error tr k = nth_error items (Z.to_nat p + k))
       points batch) /\
  (Z.max 0 (len items - trace_length) < batch_size ->
   ExperienceReplay.sample np_power batch_size trace_length rnd unif w
   = (w, Raise ValueError)).
Proof.
  intros Hp Hb Htl Hbs0. split.
  - intros Hbs.
    destruct (sample_traces_run np_power w items maxlen batch_size trace_length rnd unif
                Hp Hb Htl ltac:(lia)) as (points & E & L & N & F).
    exists points, (map (fun p => firstn (Z.to_nat trace_length) (skipn (Z.to_nat p) items))
                      points).
    split; [exact E |]. split; [| split; [exact N |]].
    + unfold len in *. now rewrite length_map.
    + clear E L N. induction F as [| p points (Hp0 & Hp1) F IH]; cbn [map]; constructor;
        [| exact IH].
      split; [exact Hp0 |]. split; [lia |]. split.
      * unfold len in *. rewrite length_firstn, length_skipn. lia.
      * intros k Hk. rewrite nth_error_firstn.
        destruct (Nat.ltb_spec k (Z.to_nat trace_length)); [| lia].
        now rewrite nth_error_skipn.
  - intros Hbs. now apply (sample_traces_short np_power w items maxlen).
Qed.

Lemma sample_uniform_traces_witness :
  (1 <= len [1; 2; 3; 4]%nat - 2 ->
   exists points batch,
     ExperienceReplay.sample sample_power 1 2 (fun n => n) (fun _ => 0%Q)
       (uniform_world [1; 2; 3; 4]%nat)
     = (uniform_world [1; 2; 3; 4]%nat, Ok (None, ExperienceReplay.Traces batch, None)) /\
     len batch = 1 /\
     NoDup points /\
     Forall2 (fun p tr =>
                0 <= p /\ p + 2 <= len [1; 2; 3; 4]%nat - 1 /\
                len tr = 2 /\
                forall k, (k < Z.to_nat 2)%nat ->
                          nth_error tr k = nth_error [1; 2; 3; 4]%nat (Z.to_nat p + k))
       points batch) /\
  (Z.max 0 (len [1; 2; 3; 4]%nat - 2) < 1 ->
   ExperienceReplay.sample sample_power 1 2 (fun n => n) (fun _ => 0%Q)
     (uniform_world [1; 2; 3; 4]%nat)
   = (uniform_world [1; 2; 3; 4]%nat, Raise ValueError)).
Proof.
  refine (sample_uniform_traces nat sample_power (uniform_world [1; 2; 3; 4]%nat)
            [1; 2; 3; 4]%nat 5 1 2 (fun n => n) (fun _ => 0%Q) eq_refl eq_refl _ _); lia.
Defined.

(** ** The priorities [batch_update] leaves behind *)

Lemma nth_error_combine {A B : Type} (l1 : list A) (l2 : list B) (k : nat) (a : A) (b : B) :
  nth_error (combine l1 l2) k = Some (a, b) <->
  nth_error l1 k = Some a /\ nth_error l2 k = Some b.
Proof.
  revert l2 k. induction l1 as [| x l1 IH]; intros [| y l2] [| k]; cbn;
    try (split; [discriminate | intros [? ?]; discriminate]).
  - split; [intros [= -> ->]; auto | intros [[= ->] [= ->]]; reflexivity].
  - apply IH.
Qed.

Section BatchUpdateEffect.
Context {R : Type}.
Implicit Types (st : SumTree.t R) (w : ExperienceReplay.world R).

Lemma update_all_effect (pairs : list (Z * Q)) : forall w st,
  ExperienceReplay.buffer (ExperienceReplay.self w) = ExperienceReplay.Tree st ->
  wf_tree st ->
  Forall (fun pr => is_leaf st (fst pr)) pairs ->
  exists st',
    ExperienceReplay.update_all pairs w =
      (ExperienceReplay.set_self
         (ExperienceReplay.set_buffer (ExperienceReplay.Tree st') (ExperienceReplay.self w)) w,
       Ok tt) /\
    SumTree.capacity st' = SumTree.capacity st /\
    SumTree.data st' = SumTree.data st /\
    SumTree.data_pointer st' = SumTree.data_pointer st /\
    (forall j, is_leaf st j ->
       (forall k pr, nth_error pairs k = Some pr -> fst pr <> j) ->
       prio (SumTree.tree st') j = prio (SumTree.tree st) j) /\
    (forall k ti p, nth_error pairs k = Some (ti, p) ->
       (forall k' pr, (k < k')%nat -> nth_error pairs k' = Some pr -> fst pr <> ti) ->
       prio (SumTree.tree st') ti = p) /\
    (sum_invariant (SumTree.tree st) -> sum_invariant (SumTree.tree st')).
Proof.
  induction pairs as [| [ti p] pairs IH]; intros w st Hb WF F;
    cbn [ExperienceReplay.update_all].
  - exists st. split; [| repeat split; auto].
    + unfold ret. destruct w as [s h d], s. er_simpl. subst. reflexivity.
    + intros [| k] ti p H; discriminate.
  - inversion F as [| ? ? Hi F']; subst. cbn [fst] in Hi.
    destruct (update_leaf st ti p WF Hi) as (st1 & E1 & WF1 & C1 & D1 & P1 & Pi & U1 & I1).
    destruct (IH (ExperienceReplay.set_self
                    (ExperienceReplay.set_buffer (ExperienceReplay.Tree st1)
                       (ExperienceReplay.self w)) w) st1 eq_refl WF1)
      as (st' & E' & C' & D' & P' & U' & L' & I').
    { eapply Forall_impl; [| exact F']. intros [j q]. unfold is_leaf. now rewrite C1. }
    exists st'.
    split.
    { rewrite (bind_ok _ _ _ _ _ (on_tree_run _ w st st1 _ Hb E1)), E'.
      destruct w as [s h d], s. reflexivity. }
    split; [congruence |]. split; [congruence |]. split; [congruence |].
    split; [| split].
    + intros j Hj Hn. rewrite U'.
      * apply U1; [exact Hj |]. intros ->. now apply (Hn 0%nat (ti, p)).
      * unfold is_leaf in *. now rewrite C1.
      * intros k pr Hk. apply (Hn (S k) pr Hk).
    + intros [| k] ti' p' Hk Hlater.
      * cbn in Hk. assert (ti' = ti /\ p' = p) as [-> ->] by (split; congruence).
        rewrite U'; [exact Pi | unfold is_leaf in *; now rewrite C1 |].
        intros k pr Hk'. apply (Hlater (S k) pr); [lia | exact Hk'].
      * cbn in Hk. apply (L' k ti' p' Hk).
        intros k' pr Hlt Hk'. apply (Hlater (S k') pr); [lia | exact Hk'].
    + intros SI. auto.
Qed.

End BatchUpdateEffect.



(** X12.  [batch_update] on a uniform store.  The buffer is a deque, which
    has no [update]: when both [tree_idx] and [abs_errors] are not empty
    the call raises [AttributeError] at the first pair, and when one of
    them is empty it returns.  In both cases the store is unchanged, and
    every element of the caller's [abs_errors] has already been
    incremented by [PER_e]. *)
Theorem batch_update_uniform (R : Type) (np_power : Q -> Q -> Q)
  (w : ExperienceReplay.world R) (items : list R) (maxlen : Z) (tree_idx : list Z)
  (abs_errors : nat) (errs : list Q) :
  ExperienceReplay.buffer (ExperienceReplay.self w) = ExperienceReplay.Deque items maxlen ->
  nth_error (ExperienceReplay.heap w) abs_errors = Some errs ->
  ExperienceReplay.batch_update np_power tree_idx abs_errors w
  = (ExperienceReplay.set_heap
       (replace_nth abs_errors (map (fun e => (e + ExperienceReplay.PER_e)%Q) errs)
          (ExperienceReplay.heap w)) w,
     if (0 <? len tree_idx) && (0 <? len errs) then Raise AttributeError else Ok tt).
Proof.
  intros Hb Hh. rewrite (batch_update_run np_power w tree_idx abs_errors errs Hh).
  destruct tree_idx as [| ti tree_idx]; [reflexivity |].
  destruct errs as [| e errs].
  - unfold len. cbn [length map zip combine ExperienceReplay.update_all].
    rewrite andb_false_r. reflexivity.
  - cbn [map zip combine ExperienceReplay.update_all].
    unfold bind, ExperienceReplay.on_tree.
    cbn [ExperienceReplay.self ExperienceReplay.set_heap]. rewrite Hb.
    unfold len. cbn [length]. 
    destruct (Z.ltb_spec 0 (Z.of_nat (S (length tree_idx)))); [| lia].
    destruct (Z.ltb_spec 0 (Z.of_nat (S (length errs)))); [| lia].
    reflexivity.
Qed.

Lemma batch_update_uniform_witness :
  ExperienceReplay.batch_update sample_power [0] 0
    (ExperienceReplay.set_heap [[1 # 2]%Q] (uniform_world [1; 2; 3]%nat))
  = (ExperienceReplay.set_heap
       (replace_nth 0 (map (fun e => (e + ExperienceReplay.PER_e)%Q) [1 # 2]%Q)
          (ExperienceReplay.heap
             (ExperienceReplay.set_heap [[1 # 2]%Q] (uniform_world [1; 2; 3]%nat))))
       (ExperienceReplay.set_heap [[1 # 2]%Q] (uniform_world [1; 2; 3]%nat)),
     if (0 <? len [0]) && (0 <? len [1 # 2]%Q) then Raise AttributeError else Ok tt).
Proof.
  exact (batch_update_uniform nat sample_power
           (ExperienceReplay.set_heap [[1 # 2]%Q] (uniform_world [1; 2; 3]%nat))
           [1; 2; 3]%nat 5 [0] 0%nat [1 # 2]%Q eq_refl eq_refl).
Defined.

(** ** Snapshots *)

Lemma save_heap {R : Type} : preserves (@ExperienceReplay.heap R) ExperienceReplay.save.
Proof.
  unfold ExperienceReplay.save.
  apply preserves_bind; [apply preserves_gets | intros se].
  destruct (negb se); [apply preserves_ret |].
  apply preserves_bind; [apply preserves_modify; intros w; reflexivity | intros _].
  apply preserves_bind; [apply preserves_gets | intros p].
  apply preserves_bind; [| intros x; apply preserves_modify; intros w; reflexivity].
  destruct p.
  - apply preserves_bind; [apply preserves_gets | intros b]. apply preserves_ret.
  - apply preserves_bind; [apply preserves_gets | intros n].
    apply preserves_bind; [apply preserves_gets | intros ss].
    apply preserves_bind; [apply readonly_preserves, as_sequence_readonly | intros buf].
    apply preserves_bind; [apply preserves_lift | intros l]. apply preserves_ret.
Qed.

Lemma save_prioritized {R : Type} (w : ExperienceReplay.world R) :
  ExperienceReplay.save_experience (ExperienceReplay.self w) = true ->
  ExperienceReplay.prioritized (ExperienceReplay.self w) = true ->
  ExperienceReplay.save w
  = (ExperienceReplay.set_disk
       (Some (ExperienceReplay.PBuffer (ExperienceReplay.buffer (ExperienceReplay.self w)))) w,
     Ok tt).
Proof.
  intros Hs Hp. destruct w as [s h d]. er_simpl.
  unfold ExperienceReplay.save. step. rewrite Hs. cbn [negb].
  step. rewrite Hp. step. reflexivity.
Qed.

(** X13.  What [save] writes.  The call never changes the store or the
    arrays of the caller.  With persistence disabled it returns and
    changes nothing.  With persistence enabled, in prioritized mode it
    returns and the snapshot is the whole buffer object, whatever
    [storage_size] is; in uniform mode, when [0 <= storage_size <= size],
    it returns and the snapshot is the list of the last [storage_size]
    records of the buffer, oldest first. *)
Theorem save_snapshot (R : Type) (w : ExperienceReplay.world R) :
  ExperienceReplay.self (fst (ExperienceReplay.save w)) = ExperienceReplay.self w /\
  ExperienceReplay.heap (fst (ExperienceReplay.save w)) = ExperienceReplay.heap w /\
  (ExperienceReplay.save_experience (ExperienceReplay.self w) = false ->
   ExperienceReplay.save w = (w, Ok tt)) /\
  (ExperienceReplay.save_experience (ExperienceReplay.self w) = true ->
   ExperienceReplay.prioritized (ExperienceReplay.self w) = true ->
   ExperienceReplay.save w
   = (ExperienceReplay.set_disk
        (Some (ExperienceReplay.PBuffer (ExperienceReplay.buffer (ExperienceReplay.self w))))
        w,
      Ok tt)) /\
  (ExperienceReplay.save_experience (ExperienceReplay.self w) = true ->
   ExperienceReplay.prioritized (ExperienceReplay.self w) = false ->
   forall items maxlen,
     ExperienceReplay.buffer (ExperienceReplay.self w) = ExperienceReplay.Deque items maxlen ->
     0 <= ExperienceReplay.storage_size (ExperienceReplay.self w) <= len items ->
     exists stored,
       ExperienceReplay.save w
       = (ExperienceReplay.set_disk (Some (ExperienceReplay.PList stored)) w, Ok tt) /\
       len stored = ExperienceReplay.storage_size (ExperienceReplay.self w) /\
       exists older, items = older ++ stored).
Proof.
  split; [apply save_self |]. split; [apply save_heap |].
  split; [apply save_disabled |]. split; [apply save_prioritized |].
  intros Hs Hp items maxlen Hb Hss.
  exists (lastn (Z.to_nat (ExperienceReplay.storage_size (ExperienceReplay.self w))) items).
  split; [now apply (save_uniform_ok w items maxlen) |]. split.
  - unfold len, lastn in *. rewrite length_skipn. lia.
  - exists (firstn (length items
                    - Z.to_nat (ExperienceReplay.storage_size (ExperienceReplay.self w)))
              items).
    unfold lastn. now rewrite firstn_skipn.
Qed.

Lemma save_snapshot_witness :
  exists stored,
    ExperienceReplay.save (saving_world [1; 2; 3; 4; 5; 6]%nat None)
    = (ExperienceReplay.set_disk (Some (ExperienceReplay.PList stored))
         (saving_world [1; 2; 3; 4; 5; 6]%nat None), Ok tt) /\
    len stored = 5 /\
    exists older, [1; 2; 3; 4; 5; 6]%nat = older ++ stored.
Proof.
  refine (proj2 (proj2 (proj2 (proj2
            (save_snapshot nat (saving_world [1; 2; 3; 4; 5; 6]%nat None)))))
            eq_refl eq_refl [1; 2; 3; 4; 5; 6]%nat 10 eq_refl _).
  unfold len. cbn. lia.
Defined.

(** ** The sums over the lifetime of a prioritized store *)

Section LifetimeSums.
Context {R : Type}.
Variable np_power : Q -> Q -> Q.
Implicit Types (st : SumTree.t R) (w : ExperienceReplay.world R).

Lemma after_call_summed (c : Z) (cl : call) w :
  on_leaves c cl -> summed c w -> summed c (after_call np_power cl w).
Proof.
  intros Hl (st & Hp & Hb & WF & C & SI).
  destruct cl as [r | bs tl rnd unif | idx loc | | h]; cbn [after_call].
  - destruct (add_prioritized w st r Hp Hb WF) as (st' & E & WF' & C' & _ & SI').
    rewrite E. cbn [fst]. exists st'. er_simpl.
    split; [exact Hp |]. split; [reflexivity |]. split; [exact WF' |].
    split; [congruence | auto].
  - pose proof (sample_config np_power bs tl rnd unif w) as Hcfg.
    unfold config in Hcfg. inversion Hcfg as [[E1 E2 E3 E4 E5 E6]].
    exists st. rewrite E4, E6. auto.
  - destruct (nth_error (ExperienceReplay.heap w) loc) as [errs |] eqn:Hh.
    + rewrite (batch_update_run np_power w idx loc errs Hh).
      set (w1 := ExperienceReplay.set_heap _ w).
      assert (F : Forall (fun pr => is_leaf st (fst pr))
                    (zip idx (map (priority_of_error np_power) errs))).
      { apply Forall_forall. intros [ti p] Hin. apply in_combine_l in Hin.
        cbn [on_leaves] in Hl. rewrite Forall_forall in Hl.
        unfold is_leaf. cbn [fst]. rewrite C. now apply Hl. }
      destruct (update_all_leaves _ w1 st Hb WF F) as (st' & E & WF' & C' & SI').
      rewrite E. cbn [fst]. exists st'. er_simpl.
      split; [exact Hp |]. split; [reflexivity |]. split; [exact WF' |].
      split; [congruence | auto].
    + assert (E : ExperienceReplay.batch_update np_power idx loc w = (w, Raise TypeError)).
      { unfold ExperienceReplay.batch_update. unfold bind at 1. now rewrite Hh. }
      rewrite E. cbn [fst]. exists st. auto.
  - pose proof (save_self w) as Hs. exists st. rewrite Hs. auto.
  - exists st. er_simpl. auto.
Qed.

Lemma after_calls_summed (c : Z) (cs : list call) : forall w,
  Forall (on_leaves c) cs -> summed c w -> summed c (after_calls np_power cs w).
Proof.
  induction cs as [| cl cs IH]; intros w F S; cbn [after_calls fold_left]; [exact S |].
  inversion F as [| ? ? Hl F']; subst.
  apply (IH _ F'). now apply after_call_summed.
Qed.

Lemma lifetime_sums (save : bool) (capacity storage_size n_last : Z)
  (s0 : ExperienceReplay.t R) (cs : list (call (R := R))) :
  ExperienceReplay.init save true capacity storage_size n_last = Ok s0 ->
  Forall (fun cl => match cl with
                    | CallBatchUpdate idx _ =>
                        Forall (fun i => capacity - 1 <= i <= 2 * capacity - 2) idx
                    | _ => True
                    end) cs ->
  exists st,
    ExperienceReplay.buffer (ExperienceReplay.self (after_calls np_power cs (new_world s0)))
    = ExperienceReplay.Tree st /\
    wf_tree st /\ SumTree.capacity st = capacity /\ sum_invariant (SumTree.tree st).
Proof.
  intros Hi F.
  assert (S0 : summed capacity (new_world s0)).
  { revert Hi. unfold ExperienceReplay.init.
    destruct (SumTree.init capacity) as [st | e |] eqn:Ei; try discriminate.
    intros E.
    assert (Es : s0 = ExperienceReplay.mk capacity storage_size n_last true save
                        (ExperienceReplay.Tree st) ExperienceReplay.PER_b0) by congruence.
    subst s0. destruct (init_wf capacity st Ei) as (WF & C & SI & _).
    exists st. unfold new_world. er_simpl. auto. }
  destruct (after_calls_summed capacity cs (new_world s0) F S0)
    as (st & _ & Hb & WF & C & SI).
  exists st. auto.
Qed.

End LifetimeSums.



(** ** From [add] to [sample] *)

Lemma Qmax_choice (x y : Q) : Qmax x y = x \/ Qmax x y = y.
Proof. unfold Qmax, GenericMinMax.gmax. destruct (x ?= y)%Q; auto. Qed.

Lemma fold_max_in (xs : list Q) : forall x : Q, In (fold_left Qmax xs x) (x :: xs).
Proof.
  induction xs as [| y xs IH]; intros x; cbn [fold_left]; [now left |].
  destruct (IH (Qmax x y)) as [E | Hin].
  - cbn [In]. rewrite <- E.
    destruct (Qmax_choice x y) as [E' | E']; rewrite E'; auto.
  - right. now right.
Qed.

Lemma Qsum_ge_in (l : list Q) (x : Q) :
  Forall (fun z => (0 <= z)%Q) l -> In x l -> (x <= Qsum l)%Q.
Proof.
  intros F. induction F as [| y l Hy F IH]; intros Hin; [contradiction |].
  assert (Hs : (0 <= Qsum l)%Q).
  { clear IH Hin. induction F as [| z l Hz F IH]; unfold Qsum in *; cbn [fold_right]; lra. }
  unfold Qsum in *. cbn [fold_right]. destruct Hin as [<- | Hin]; [lra |].
  specialize (IH Hin). lra.
Qed.

Lemma Forall2_chain {A B C : Type} (P : A -> B -> Prop) (Q' : B -> C -> Prop)
  (T : C -> Prop) (l : list A) : forall (l1 : list B) (l2 : list C),
  (forall a b c, In a l -> P a b -> Q' b c -> T c) ->
  Forall2 P l l1 -> Forall2 Q' l1 l2 -> Forall T l2.
Proof.
  induction l as [| a l IH]; intros l1 l2 H F1 F2.
  - inversion F1; subst. inversion F2; subst. constructor.
  - inversion F1 as [| ? b ? l1' Pab F1']; subst.
    inversion F2 as [| ? c ? l2' Qbc F2']; subst.
    constructor.
    + apply (H a b c); [now left | assumption | assumption].
    + apply (IH l1' l2'); [| assumption | assumption].
      intros a' b' c' Hin. apply H. now right.
Qed.

Section AddThenSample.
Context {R : Type}.
Variable np_power : Q -> Q -> Q.
Implicit Types (st : SumTree.t R) (w : ExperienceReplay.world R).

(** Every value of [tree[-capacity:]] is the priority of a leaf. *)
Lemma leaf_priorities_are_leaves st (q : Q) :
  wf_tree st -> In q (leaf_priorities st) ->
  exists j, is_leaf st j /\ prio (SumTree.tree st) j = q.
Proof.
  intros (Hc & Hlen & _) Hin. unfold leaf_priorities in Hin.
  rewrite slice_last in Hin by lia.
  apply (In_nth _ _ 0%Q) in Hin. destruct Hin as (k & Hk & E).
  rewrite length_skipn in Hk. rewrite nth_skipn_shift in E.
  exists (Z.of_nat (Z.to_nat (len (SumTree.tree st) - SumTree.capacity st) + k)).
  split.
  - unfold is_leaf. unfold len in *. lia.
  - unfold prio. now rewrite Nat2Z.id.
Qed.

Lemma add_stored_only w st (r : R) (rs : list R) :
  ExperienceReplay.prioritized (ExperienceReplay.self w) = true ->
  ExperienceReplay.buffer (ExperienceReplay.self w) = ExperienceReplay.Tree st ->
  wf_tree st -> stored_only rs st ->
  exists st',
    ExperienceReplay.add r w =
      (ExperienceReplay.set_self
         (ExperienceReplay.set_buffer (ExperienceReplay.Tree st') (ExperienceReplay.self w)) w,
       Ok tt) /\
    wf_tree st' /\
    SumTree.capacity st' = SumTree.capacity st /\
    stored_only (rs ++ [r]) st' /\
    (exists j, is_leaf st' j /\
               prio (SumTree.tree st') j = ExperienceReplay.absolute_error_upper) /\
    (forall j, is_leaf st j ->
       prio (SumTree.tree st) j = ExperienceReplay.absolute_error_upper ->
       prio (SumTree.tree st') j = ExperienceReplay.absolute_error_upper) /\
    (sum_invariant (SumTree.tree st) -> sum_invariant (SumTree.tree st')).
Proof.
  intros Hp Hb WF Inv.
  destruct (leaf_priorities_nonempty st WF) as (x & xs & El).
  set (m := fold_left Qmax xs x).
  set (p := if Qeq_bool m 0 then ExperienceReplay.absolute_error_upper else m).
  assert (Hpv : p = ExperienceReplay.absolute_error_upper).
  { pose proof (fold_max_in xs x) as Hin. fold m in Hin. rewrite <- El in Hin.
    destruct (leaf_priorities_are_leaves st m WF Hin) as (j & Hj & Ej).
    destruct (Inv j Hj) as [(E1 & _) | E0]; rewrite Ej in *.
    - unfold p. rewrite E1. reflexivity.
    - unfold p. rewrite E0. reflexivity. }
  destruct (sumtree_add_spec st p r WF) as (st' & E & WF' & C' & D' & Da & Pl & U & I').
  pose proof WF as (Hc & Hlen & Hd & Hdp).
  set (leaf := SumTree.data_pointer st + SumTree.capacity st - 1) in *.
  exists st'. split.
  { unfold ExperienceReplay.add. rewrite bind_gets, Hp. cbn [negb].
    erewrite bind_ok; [| apply (on_tree_read _ w st); [exact Hb | reflexivity]].
    fold (leaf_priorities st). rewrite El. cbn [np_max]. rewrite bind_lift_ok. fold m.
    fold p. apply (on_tree_run _ w st st' _ Hb E). }
  split; [exact WF' |]. split; [exact C' |].
  assert (Hleaf : is_leaf st leaf) by (unfold is_leaf, leaf; lia).
  split; [| split; [| split; [| exact I']]].
  - intros j Hj. unfold is_leaf in Hj. rewrite C' in *.
    destruct (Z.eq_dec j leaf) as [Ej | Hne].
    + left. subst j. split; [congruence |].
      exists r. split; [apply in_or_app; right; now left |].
      rewrite Da. unfold leaf.
      replace (SumTree.data_pointer st + SumTree.capacity st - 1 - SumTree.capacity st + 1)
        with (SumTree.data_pointer st) by lia.
      apply nth_replace_nth_same. unfold len in Hd. lia.
    + rewrite (U j) by (unfold is_leaf; auto).
      destruct (Inv j ltac:(unfold is_leaf; lia)) as [(E1 & r0 & Hin & Hd0) | E0];
        [left | now right].
      split; [exact E1 |]. exists r0. split; [apply in_or_app; now left |].
      rewrite Da, nth_replace_nth_other; [exact Hd0 |]. unfold leaf in Hne. lia.
  - exists leaf. split; [unfold is_leaf in *; now rewrite C' | congruence].
  - intros j Hj E1. destruct (Z.eq_dec j leaf) as [-> | Hne]; [congruence |].
    now rewrite (U j Hj Hne).
Qed.

Lemma add_seq_stored_only (rs : list R) : forall w st (rs0 : list R),
  ExperienceReplay.prioritized (ExperienceReplay.self w) = true ->
  ExperienceReplay.buffer (ExperienceReplay.self w) = ExperienceReplay.Tree st ->
  wf_tree st -> stored_only rs0 st ->
  exists st',
    add_seq rs w =
      (ExperienceReplay.set_self
         (ExperienceReplay.set_buffer (ExperienceReplay.Tree st') (ExperienceReplay.self w)) w,
       Ok tt) /\
    wf_tree st' /\
    SumTree.capacity st' = SumTree.capacity st /\
    stored_only (rs0 ++ rs) st' /\
    (rs <> [] \/
     (exists j, is_leaf st j /\
                prio (SumTree.tree st) j = ExperienceReplay.absolute_error_upper) ->
     exists j, is_leaf st' j /\
               prio (SumTree.tree st') j = ExperienceReplay.absolute_error_upper) /\
    (sum_invariant (SumTree.tree st) -> sum_invariant (SumTree.tree st')).
Proof.
  induction rs as [| r rs IH]; intros w st rs0 Hp Hb WF Inv.
  - exists st. cbn [add_seq]. unfold ret. rewrite app_nil_r.
    split; [destruct w as [s h d], s; er_simpl; subst; reflexivity |].
    split; [exact WF |]. split; [reflexivity |]. split; [exact Inv |].
    split; [| auto]. intros [Hne | Hex]; [congruence | exact Hex].
  - destruct (add_stored_only w st r rs0 Hp Hb WF Inv)
      as (st1 & E1 & WF1 & C1 & Inv1 & Ex1 & _ & I1).
    destruct (IH (ExperienceReplay.set_self
                    (ExperienceReplay.set_buffer (ExperienceReplay.Tree st1)
                       (ExperienceReplay.self w)) w) st1 (rs0 ++ [r]) Hp eq_refl WF1 Inv1)
      as (st' & E' & WF' & C' & Inv' & Ex' & I').
    exists st'. cbn [add_seq].
    rewrite (bind_ok _ _ _ _ _ E1), E'. er_simpl.
    split; [reflexivity |]. split; [exact WF' |]. split; [congruence |].
    split; [now rewrite <- app_assoc in Inv' |].
    split; [intros _; apply Ex'; now right | auto].
Qed.

(** Sampling from a tree that insertions alone have filled. *)
Lemma sample_stored_only w st (rs : list R) (batch_size trace_length : Z)
  (rnd : nat -> nat) (unif : nat -> Q) :
  ExperienceReplay.prioritized (ExperienceReplay.self w) = true ->
  ExperienceReplay.buffer (ExperienceReplay.self w) = ExperienceReplay.Tree st ->
  wf_tree st -> sum_invariant (SumTree.tree st) -> stored_only rs st ->
  (exists j, is_leaf st j /\
             prio (SumTree.tree st) j = ExperienceReplay.absolute_error_upper) ->
  0 < batch_size ->
  (forall k, (0 < unif k)%Q /\ (unif k < 1)%Q) ->
  exists idx mem ws,
    snd (ExperienceReplay.sample np_power batch_size trace_length rnd unif w)
      = Ok (Some idx, ExperienceReplay.Cells mem, Some ws) /\
    len mem = batch_size /\
    Forall (fun d => exists r, In r rs /\ d = SumTree.Item r) mem.
Proof.
  intros Hp Hb WF SI Inv (j1 & Hj1 & E1) Hbs Hu.
  pose proof WF as (Hc & Hlen & Hd & _).
  assert (Ht : (0 < prio (SumTree.tree st) 0)%Q).
  { rewrite (root_is_leaf_total (SumTree.tree st) (SumTree.capacity st) Hc Hlen SI).
    fold (leaf_priorities st).
    assert (F : Forall (fun z => (0 <= z)%Q) (leaf_priorities st)).
    { apply Forall_forall. intros q Hin.
      destruct (leaf_priorities_are_leaves st q WF Hin) as (j & Hj & <-).
      destruct (Inv j Hj) as [(E & _) | E]; rewrite E; discriminate. }
    pose proof (Qsum_ge_in _ _ F (leaf_in_leaf_priorities st j1 WF Hj1)) as Hge.
    rewrite E1 in Hge. unfold ExperienceReplay.absolute_error_upper in Hge. lra. }
  destruct (sample_prioritized_draws np_power w st batch_size trace_length rnd unif
              Hp Hb WF ltac:(lia)) as (idx & mem & ws & E & D & C).
  exists idx, mem, ws. split; [exact E |]. split.
  - pose proof (Forall2_length D) as L1. pose proof (Forall2_length C) as L2.
    pose proof (range_length batch_size) as L3. unfold len in *. lia.
  - refine (Forall2_chain _ _ _ _ _ _ _ D C).
    cbv beta. intros i leaf d Hin Hdesc Hget.
    apply range_in in Hin.
    destruct (Hu (Z.to_nat i)) as (Hu0 & Hu1).
    destruct (segment_value_bounds (prio (SumTree.tree st) 0) batch_size i unif
                Ht Hin ltac:(lra) Hu1) as (B1 & B2 & B3).
    set (seg := (prio (SumTree.tree st) 0 / inject_Z batch_size)%Q) in *.
    assert (Hseg : (0 < seg)%Q).
    { unfold seg. apply Qlt_shift_div_l; [| lra].
      change 0%Q with (inject_Z 0). rewrite <- Zlt_Qlt. lia. }
    assert (Hv : (0 < segment_value seg unif i)%Q).
    { unfold segment_value, np_random_uniform.
      assert (Hi0 : (0 <= inject_Z i)%Q).
      { change 0%Q with (inject_Z 0). rewrite <- Zle_Qle. lia. }
      rewrite inject_Z_plus. change (inject_Z 1) with 1%Q.
      set (u := unif (Z.to_nat i)) in *. set (qi := inject_Z i) in *.
      assert (H1 : (0 <= seg * qi)%Q) by (apply Qmult_le_0_compat; lra).
      assert (H2 : (0 < seg * u)%Q) by (apply Qmult_lt_0_compat; lra).
      assert (H3 : (seg * qi + (seg * (qi + 1) - seg * qi) * u == seg * qi + seg * u)%Q)
        by ring.
      rewrite H3. lra. }
    destruct (descend_brackets (length (SumTree.tree st)) 0 (segment_value seg unif i) st
                (SumTree.capacity st) Hlen SI)
      as (leaf' & before & after & E' & _ & M1 & M2 & M3);
      try (unfold len in *; lia); try lra.
    assert (leaf' = leaf) by congruence. subst leaf'.
    specialize (M3 Hv).
    destruct (descend_total (length (SumTree.tree st)) 0 (segment_value seg unif i) st
                (SumTree.capacity st) Hlen)
      as (leaf' & E'' & L1 & L2); try (unfold len in *; lia).
    assert (leaf' = leaf) by congruence. subst leaf'.
    assert (Hleaf : is_leaf st leaf) by (unfold is_leaf; lia).
    destruct (Inv leaf Hleaf) as [(_ & r & Hr & Hcell) | E0].
    + exists r. split; [exact Hr |].
      rewrite (getitem_nonneg _ _ SumTree.Zero) in Hget by (unfold is_leaf in Hleaf; lia).
      congruence.
    + rewrite E0 in M2. lra.
Qed.

End AddThenSample.



(** ** The exploration schedule of the trainer *)

Section EpsilonSchedule.
Import AsynchronousTrainer.

Lemma Qle_bool_false (x y : Q) : Qle_bool x y = false -> (y < x)%Q.
Proof.
  intros H. apply Qnot_le_lt. intros Hle. apply Qle_bool_iff in Hle. congruence.
Qed.

Lemma schedule_closed_form (k : nat) : forall (s : t) (j : Q),
  (final_epsilon s <= initial_epsilon s)%Q ->
  (0 < agent_explore s)%Q ->
  (0 <= j)%Q ->
  (agent_epsilon s ==
   Qmax (final_epsilon s)
     (initial_epsilon s
      - j * ((initial_epsilon s - final_epsilon s) / agent_explore s)))%Q ->
  exists s',
    schedule k s = Returns s' /\
    initial_epsilon s' = initial_epsilon s /\
    final_epsilon s' = final_epsilon s /\
    agent_explore s' = agent_explore s /\
    (agent_epsilon s' ==
     Qmax (final_epsilon s)
       (initial_epsilon s
        - (j + inject_Z (Z.of_nat k))
          * ((initial_epsilon s - final_epsilon s) / agent_explore s)))%Q.
Proof.
  induction k as [| k IH]; intros s j Hfi Hex Hj He.
  - exists s. cbn [schedule]. repeat split; auto.
    rewrite He. change (inject_Z (Z.of_nat 0)) with 0%Q.
    apply Q.max_compat; [reflexivity | ring].
  - cbn [schedule]. unfold update_epsilon.
    set (d := ((initial_epsilon s - final_epsilon s) / agent_explore s)%Q) in *.
    assert (Hd : (0 <= d)%Q) by (unfold d; apply Qle_shift_div_l; lra).
    assert (Hk : (inject_Z (Z.of_nat (S k)) == 1 + inject_Z (Z.of_nat k))%Q).
    { rewrite Nat2Z.inj_succ. unfold Z.succ. rewrite inject_Z_plus. ring. }
    destruct (Qle_bool (agent_epsilon s) (final_epsilon s)) eqn:Hc; cbn [negb].
    + apply Qle_bool_iff in Hc.
      destruct (IH s (j + 1)%Q Hfi Hex ltac:(lra)) as (s' & E & F1 & F2 & F3 & F4).
      { fold d.
        assert (Hx : (agent_epsilon s == final_epsilon s)%Q /\
                     (initial_epsilon s - j * d <= final_epsilon s)%Q).
        { destruct (Q.max_spec (final_epsilon s) (initial_epsilon s - j * d))
            as [[H1 H2] | [H1 H2]]; rewrite H2 in He; split; lra. }
        destruct Hx as (Hx1 & Hx2).
        destruct (Q.max_spec (final_epsilon s) (initial_epsilon s - (j + 1) * d))
          as [[H3 H4] | [H3 H4]]; rewrite H4; lra. }
      exists s'. split; [exact E |]. repeat split; auto.
      rewrite F4. fold d. apply Q.max_compat; [reflexivity |]. rewrite Hk. ring.
    + apply Qle_bool_false in Hc. unfold py_div.
      destruct (Qeq_bool (agent_explore s) 0) eqn:Hz.
      { apply Qeq_bool_iff in Hz. lra. }
      fold d.
      set (s1 := set_agent_epsilon (Qmax (final_epsilon s) (agent_epsilon s - d)) s).
      destruct (IH s1 (j + 1)%Q Hfi Hex ltac:(lra)) as (s' & E & F1 & F2 & F3 & F4).
      { unfold s1. cbn [agent_epsilon set_agent_epsilon initial_epsilon final_epsilon
                        agent_explore]. fold d.
        apply Q.max_compat; [reflexivity |].
        destruct (Q.max_spec (final_epsilon s) (initial_epsilon s - j * d)) as [[H1 H2] | [H1 H2]].
        - rewrite He, H2. ring.
        - rewrite He, H2 in Hc. lra. }
      exists s'. split; [exact E |]. repeat split; auto.
      unfold s1 in F4. cbn [agent_epsilon set_agent_epsilon initial_epsilon final_epsilon
                             agent_explore] in F4. fold d in F4.
      rewrite F4. apply Q.max_compat; [reflexivity |]. rewrite Hk. ring.
Qed.

Lemma schedule_without_decay (k : nat) (s : t) :
  (agent_epsilon s <= final_epsilon s)%Q -> schedule k s = Returns s.
Proof.
  intros H. induction k as [| k IH]; [reflexivity |].
  cbn [schedule]. unfold update_epsilon.
  apply Qle_bool_iff in H. rewrite H. exact IH.
Qed.

End EpsilonSchedule.



(** ** The windows [play] hands to the replay memory *)

Lemma Forall_skipn_keep {A : Type} (P : A -> Prop) (n : nat) : forall l : list A,
  Forall P l -> Forall P (skipn n l).
Proof.
  induction n as [| n IH]; intros l F; [exact F |].
  destruct l as [| x l]; [constructor |]. inversion F; subst. cbn [skipn]. now apply IH.
Qed.

Lemma lastn_snoc {A : Type} (k : nat) (a : list A) (x : A) :
  (k <= length a)%nat -> lastn (S k) (a ++ [x]) = lastn k a ++ [x].
Proof.
  intros H. unfold lastn. rewrite length_app. cbn [length].
  replace (length a + 1 - S k)%nat with (length a - k)%nat by lia.
  apply skipn_app_left. lia.
Qed.

Lemma lastn_shorter {A : Type} (P : A -> Prop) (k k' : nat) (l : list A) :
  (k' <= k)%nat -> Forall P (lastn k l) -> Forall P (lastn k' l).
Proof.
  intros H F. unfold lastn in *.
  replace (length l - k')%nat with ((length l - k' - (length l - k)) + (length l - k))%nat
    by lia.
  rewrite <- skipn_skipn. now apply Forall_skipn_keep.
Qed.

(** On a well-formed store [add] returns, and the store stays well formed. *)
Lemma add_wf_ok {R : Type} (w : ExperienceReplay.world R) (r : R) :
  wf_store (ExperienceReplay.self w) ->
  exists w', ExperienceReplay.add r w = (w', Ok tt) /\
             wf_store (ExperienceReplay.self w').
Proof.
  intros WF. unfold wf_store in WF.
  destruct (ExperienceReplay.buffer (ExperienceReplay.self w)) as [items ml | st] eqn:Hb.
  - destruct WF as (Hpf & Hml & Hlen). subst ml.
    pose proof (len_nonneg items).
    eexists. split; [apply (add_uniform w items r Hpf Hb); lia |].
    unfold wf_store. er_simpl. split; [exact Hpf |]. split; [reflexivity |].
    unfold len. rewrite lastn_length. lia.
  - destruct WF as (Hpt & WFt & Hc).
    destruct (add_prioritized w st r Hpt Hb WFt) as (st' & E & WF' & C' & _).
    eexists. split; [exact E |].
    unfold wf_store. er_simpl. split; [exact Hpt |]. split; [exact WF' | congruence].
Qed.

Lemma add_seq_snoc {R : Type} (rs : list R) : forall (w w1 w2 : ExperienceReplay.world R) (r : R),
  add_seq rs w = (w1, Ok tt) -> ExperienceReplay.add r w1 = (w2, Ok tt) ->
  add_seq (rs ++ [r]) w = (w2, Ok tt).
Proof.
  induction rs as [| r0 rs IH]; intros w w1 w2 r E1 E2; cbn [add_seq app] in *.
  - unfold ret in E1. assert (w1 = w) by congruence. subst w1.
    unfold bind. rewrite E2. reflexivity.
  - unfold bind in *. destruct (ExperienceReplay.add r0 w) as [w' [[] | e |]];
      try discriminate.
    now apply (IH w' w1 w2 r).
Qed.

Section PlayWindows.
Context {X : Type}.
Implicit Types (s : Doom.locals X) (ev : Doom.transition X)
  (hist : list (Doom.transition X)) (ws : list (list (Doom.transition X)))
  (w : ExperienceReplay.world (list (Doom.transition X))).

Lemma live_window_app (n : Z) hist (more wdw : list (Doom.transition X)) :
  live_window n hist wdw -> live_window n (hist ++ more) wdw.
Proof.
  intros (L & F & before & after & E). split; [exact L |]. split; [exact F |].
  exists before, (after ++ more). rewrite E, <- !app_assoc. reflexivity.
Qed.

Lemma play_step_invariant (self : Doom.t) (mem0 : ExperienceReplay.world _) s ev hist ws :
  Doom.train self = true -> 0 < Doom.n_steps self ->
  play_invariant (Doom.n_steps self) mem0 s hist ws ->
  exists s' ws',
    Doom.step self ev s = (s', None) /\
    play_invariant (Doom.n_steps self) mem0 s' (hist ++ [ev]) ws'.
Proof.
  intros Ht Hn (It & Ifa & Il & Iwf & Iadd & Iw).
  set (n := Doom.n_steps self) in *.
  set (fa' := if Doom.terminated ev then 0 else Doom.frames_alive s + 1).
  set (tr' := lastn (Z.to_nat n) (hist ++ [ev])).
  assert (Etr : Doom.append n (Doom.transitions s) ev = tr').
  { unfold Doom.append, tr'. rewrite It.
    pose proof (lastn_snoc_tail (Z.to_nat n) (lastn (Z.to_nat n) hist) ev) as E.
    rewrite Z2Nat.id in E by lia. rewrite E by (rewrite lastn_length; lia).
    apply lastn_app_lastn. }
  assert (Hfa : 0 <= fa' <= len (hist ++ [ev])).
  { rewrite len_app. unfold fa'. unfold len in *. cbn [length].
    destruct (Doom.terminated ev); lia. }
  assert (Hl : Forall (fun tr => Doom.terminated tr = false)
                 (lastn (Z.to_nat fa') (hist ++ [ev]))).
  { unfold fa'. destruct (Doom.terminated ev) eqn:Hterm.
    - unfold lastn. cbn [Z.to_nat]. rewrite Nat.sub_0_r, skipn_all. constructor.
    - replace (Z.to_nat (Doom.frames_alive s + 1)) with (S (Z.to_nat (Doom.frames_alive s)))
        by lia.
      rewrite lastn_snoc by (unfold len in Ifa; lia).
      apply Forall_app. split; [exact Il | constructor; [exact Hterm | constructor]]. }
  assert (Iw' : Forall (live_window n (hist ++ [ev])) ws).
  { eapply Forall_impl; [| exact Iw]. intros wdw. apply live_window_app. }
  unfold Doom.step. rewrite Ht. fold n.
  assert (Efa : Doom.frames_alive
                  (if Doom.terminated ev
                   then Doom.mkl (Doom.time_step s) (Doom.n_game s + 1) 0 0
                          (Doom.transitions s) (Doom.memory s)
                          (Doom.reported s ++
                             [(Doom.n_game s + 1, Doom.time_step s, Doom.frames_alive s,
                               Doom.total_reward s)])
                   else Doom.mkl (Doom.time_step s) (Doom.n_game s) (Doom.total_reward s)
                          (Doom.frames_alive s + 1) (Doom.transitions s) (Doom.memory s)
                          (Doom.reported s)) = fa')
    by (unfold fa'; destruct (Doom.terminated ev); reflexivity).
  assert (Etr0 : Doom.transitions
                  (if Doom.terminated ev
                   then Doom.mkl (Doom.time_step s) (Doom.n_game s + 1) 0 0
                          (Doom.transitions s) (Doom.memory s)
                          (Doom.reported s ++
                             [(Doom.n_game s + 1, Doom.time_step s, Doom.frames_alive s,
                               Doom.total_reward s)])
                   else Doom.mkl (Doom.time_step s) (Doom.n_game s) (Doom.total_reward s)
                          (Doom.frames_alive s + 1) (Doom.transitions s) (Doom.memory s)
                          (Doom.reported s)) = Doom.transitions s)
    by (destruct (Doom.terminated ev); reflexivity).
  assert (Emem : Doom.memory
                  (if Doom.terminated ev
                   then Doom.mkl (Doom.time_step s) (Doom.n_game s + 1) 0 0
                          (Doom.transitions s) (Doom.memory s)
                          (Doom.reported s ++
                             [(Doom.n_game s + 1, Doom.time_step s, Doom.frames_alive s,
                               Doom.total_reward s)])
                   else Doom.mkl (Doom.time_step s) (Doom.n_game s) (Doom.total_reward s)
                          (Doom.frames_alive s + 1) (Doom.transitions s) (Doom.memory s)
                          (Doom.reported s)) = Doom.memory s)
    by (destruct (Doom.terminated ev); reflexivity).
  cbn [Doom.frames_alive Doom.transitions Doom.memory Doom.time_step Doom.n_game
       Doom.total_reward Doom.reported].
  rewrite Efa, Etr0, Emem, Etr.
  unfold Doom.py_mod. destruct (Z.eqb_spec n 0) as [| _]; [lia |].
  destruct ((fa' mod n =? 0) && negb (fa' =? 0)) eqn:Hcond.
  - apply andb_prop in Hcond. destruct Hcond as (Hm & Hz).
    apply Z.eqb_eq in Hm. apply negb_true_iff, Z.eqb_neq in Hz.
    assert (Hge : n <= fa').
    { apply Z.mod_divide in Hm; [| lia]. apply Z.divide_pos_le; [lia | exact Hm]. }
    destruct (add_wf_ok (Doom.memory s) tr' Iwf) as (mem' & Ea & WF').
    rewrite Ea.
    eexists. exists (ws ++ [tr']). split; [reflexivity |].
    unfold play_invariant.
    cbn [Doom.frames_alive Doom.transitions Doom.memory]. fold n.
    split; [reflexivity |]. split; [exact Hfa |]. split; [exact Hl |].
    split; [exact WF' |]. split; [now apply (add_seq_snoc ws mem0 (Doom.memory s)) |].
    apply Forall_app. split; [exact Iw' |]. constructor; [| constructor].
    unfold live_window, tr'. split; [| split].
    + unfold len in *. rewrite lastn_length. lia.
    + apply (lastn_shorter _ (Z.to_nat fa')); [lia | exact Hl].
    + exists (firstn (length (hist ++ [ev]) - Z.to_nat n) (hist ++ [ev])), [].
      rewrite app_nil_r. unfold lastn. now rewrite firstn_skipn.
  - eexists. exists ws. split; [reflexivity |].
    unfold play_invariant.
    cbn [Doom.frames_alive Doom.transitions Doom.memory]. fold n.
    split; [reflexivity |]. split; [exact Hfa |]. split; [exact Hl |].
    split; [exact Iwf |]. split; [exact Iadd | exact Iw'].
Qed.

Lemma play_loop_invariant (self : Doom.t) (mem0 : ExperienceReplay.world _)
  (events : list (Doom.transition X)) : forall s hist ws,
  Doom.train self = true -> 0 < Doom.n_steps self ->
  play_invariant (Doom.n_steps self) mem0 s hist ws ->
  exists s' ws' consumed later,
    events = consumed ++ later /\
    Doom.play_loop self events s = (s', None) /\
    play_invariant (Doom.n_steps self) mem0 s' (hist ++ consumed) ws'.
Proof.
  induction events as [| ev events IH]; intros s hist ws Ht Hn Inv.
  - exists s, ws, [], []. cbn [Doom.play_loop].
    split; [reflexivity |]. split; [| now rewrite app_nil_r].
    destruct (Doom.n_game s <? Doom.max_epochs self); reflexivity.
  - cbn [Doom.play_loop].
    destruct (Doom.n_game s <? Doom.max_epochs self).
    + destruct (play_step_invariant self mem0 s ev hist ws Ht Hn Inv)
        as (s1 & ws1 & E1 & Inv1).
      destruct (IH s1 (hist ++ [ev]) ws1 Ht Hn Inv1)
        as (s' & ws' & consumed & later & Ev & E' & Inv').
      exists s', ws', (ev :: consumed), later.
      split; [cbn [app]; congruence |]. split; [now rewrite E1 |].
      rewrite <- app_assoc in Inv'. exact Inv'.
    + exists s, ws, [], (ev :: events).
      split; [reflexivity |]. split; [reflexivity | now rewrite app_nil_r].
Qed.

End PlayWindows.

(** X17.  What [play] stores.  While training with [n_steps > 0] on a
    well-formed replay memory, whatever steps the environment produces,
    the loop does not fail, and the memory it leaves is the initial one
    after one [add] per stored window, each of which returned.  Every
    stored window holds exactly [n_steps] consecutive transitions of the
    run, and none of them has its [terminated] flag set: the transition
    that ends an episode is never handed to the replay memory. *)
Theorem play_stores_live_windows (X : Type) (self : Doom.t)
  (mem0 : ExperienceReplay.world (list (Doom.transition X))) (s0 : Doom.locals X)
  (events : list (Doom.transition X)) :
  Doom.train self = true ->
  0 < Doom.n_steps self ->
  wf_store (ExperienceReplay.self mem0) ->
  Doom.start self mem0 = Ok s0 ->
  exists s' windows,
    Doom.play_loop self events s0 = (s', None) /\
    add_seq windows mem0 = (Doom.memory s', Ok tt) /\
    Forall (fun wdw =>
              len wdw = Doom.n_steps self /\
              Forall (fun tr => Doom.terminated tr = false) wdw /\
              exists before after, events = before ++ wdw ++ after) windows.
Proof.
  intros Ht Hn WF Hs. unfold Doom.start in Hs.
  destruct (Z.ltb_spec (Doom.n_steps self) 0); [lia |].
  assert (Es : s0 = Doom.mkl 0 0 0 0 [] mem0 []) by congruence. subst s0. clear Hs.
  assert (Inv0 : play_invariant (Doom.n_steps self) mem0 (Doom.mkl 0 0 0 0 [] mem0 []) [] []).
  { unfold play_invariant. cbn [Doom.transitions Doom.frames_alive Doom.memory].
    unfold lastn, len. cbn [length Z.to_nat skipn Nat.sub].
    split; [now destruct (Z.to_nat (Doom.n_steps self)) |].
    split; [lia |]. split; [constructor |]. split; [exact WF |].
    split; [reflexivity | constructor]. }
  destruct (play_loop_invariant self mem0 events _ [] [] Ht Hn Inv0)
    as (s' & ws' & consumed & later & Ev & E & (_ & _ & _ & _ & Ia & Iw)).
  exists s', ws'. split; [exact E |]. split; [exact Ia |].
  eapply Forall_impl; [| exact Iw]. cbv beta. cbn [app]. intros wdw Hw.
  rewrite Ev. exact (live_window_app _ _ later _ Hw).
Qed.

Lemma play_stores_live_windows_witness :
  exists s' windows,
    Doom.play_loop (Doom.mk true 2 1)
      [Doom.mkt 1%nat 0 false; Doom.mkt 2%nat 0 false; Doom.mkt 3%nat 1 true]
      (Doom.mkl 0 0 0 0 [] (new_world (ExperienceReplay.mk 5 5000 2 false false
                                         (ExperienceReplay.Deque [] 5)
                                         ExperienceReplay.PER_b0)) [])
    = (s', None) /\
    add_seq windows (new_world (ExperienceReplay.mk 5 5000 2 false false
                                  (ExperienceReplay.Deque [] 5) ExperienceReplay.PER_b0))
    = (Doom.memory s', Ok tt) /\
    Forall (fun wdw =>
              len wdw = 2 /\
              Forall (fun tr => Doom.terminated tr = false) wdw /\
              exists before after,
                [Doom.mkt 1%nat 0 false; Doom.mkt 2%nat 0 false; Doom.mkt 3%nat 1 true]
                = before ++ wdw ++ after) windows.
Proof.
  refine (play_stores_live_windows nat (Doom.mk true 2 1)
            (new_world (ExperienceReplay.mk 5 5000 2 false false
                          (ExperienceReplay.Deque [] 5) ExperienceReplay.PER_b0))
            _ [Doom.mkt 1%nat 0 false; Doom.mkt 2%nat 0 false; Doom.mkt 3%nat 1 true]
            eq_refl _ _ eq_refl).
  - cbn [Doom.n_steps]. lia.
  - unfold wf_store, new_world, len. er_simpl. cbn [length]. repeat split; lia.
Defined.

(** ** The counters of [play] *)

Lemma exists_last_or_nil {A : Type} (l : list A) :
  l = [] \/ exists l' x, l = l' ++ [x].
Proof.
  induction l as [| x l' _] using rev_ind; [now left | right; eauto].
Qed.

Section PlayCounters.
Context {X : Type}.
Implicit Types (s : Doom.locals X) (ev : Doom.transition X)
  (hist : list (Doom.transition X)).

(** The counters after one iteration, whatever happens to the memory. *)
Lemma step_counters (self : Doom.t) ev s :
  let s' := fst (Doom.step self ev s) in
  Doom.time_step s' = Doom.time_step s + 1 /\
  Doom.n_game s' = (if Doom.terminated ev then Doom.n_game s + 1 else Doom.n_game s) /\
  Doom.frames_alive s' = (if Doom.terminated ev then 0 else Doom.frames_alive s + 1) /\
  Doom.total_reward s'
  = ((if Doom.terminated ev then 0 else Doom.total_reward s) + Doom.reward ev)%Q /\
  Doom.reported s'
  = (if Doom.terminated ev
     then Doom.reported s ++
            [(Doom.n_game s + 1, Doom.time_step s, Doom.frames_alive s, Doom.total_reward s)]
     else Doom.reported s).
Proof.
  unfold Doom.step.
  destruct (Doom.train self).
  - match goal with
    | |- context [Doom.py_mod ?a ?b] => destruct (Doom.py_mod a b) as [m |]
    end.
    + match goal with
      | |- context [if ?c then _ else _] =>
          lazymatch c with
          | andb _ _ => destruct c
          end
      end.
      * match goal with
        | |- context [ExperienceReplay.add ?a ?b] =>
            destruct (ExperienceReplay.add a b) as [mem' [[] | e |]]
        end; destruct (Doom.terminated ev); cbn; auto.
      * destruct (Doom.terminated ev); cbn; auto.
    + destruct (Doom.terminated ev); cbn; auto.
  - destruct (Doom.terminated ev); cbn; auto.
Qed.

Lemma terminal_count_snoc hist ev :
  terminal_count (hist ++ [ev])
  = terminal_count hist + (if Doom.terminated ev then 1 else 0).
Proof.
  unfold terminal_count. rewrite filter_app, len_app. cbn [filter].
  destruct (Doom.terminated ev); unfold len; cbn [length]; lia.
Qed.

Lemma Qsum_rewards_snoc hist ev :
  (Qsum (map Doom.reward (hist ++ [ev])) == Qsum (map Doom.reward hist) + Doom.reward ev)%Q.
Proof.
  rewrite map_app, Qsum_app. unfold Qsum at 2. cbn [map fold_right]. lra.
Qed.

Lemma play_step_accounts (self : Doom.t) ev s hist :
  Doom.n_game s < Doom.max_epochs self ->
  play_accounts (Doom.max_epochs self) s hist ->
  play_accounts (Doom.max_epochs self) (fst (Doom.step self ev s)) (hist ++ [ev]).
Proof.
  intros Hg (Its & Ing & Imax & Irep & IA & IB & IC & ID).
  destruct (step_counters self ev s) as (Ets & Eng & Efa & Etr & Erep).
  set (s' := fst (Doom.step self ev s)) in *.
  unfold play_accounts.
  rewrite Ets, Eng, Efa, Etr, Erep, terminal_count_snoc, len_app.
  split; [unfold len; cbn [length]; unfold len in Its; lia |].
  split; [destruct (Doom.terminated ev); lia |].
  split; [destruct (Doom.terminated ev); lia |].
  split.
  { destruct (Doom.terminated ev); [| lia]. rewrite len_app. unfold len. cbn [length].
    unfold len in Irep. lia. }
  split; [| split; [| split]].
  - intros F. apply Forall_app in F. destruct F as (Fh & Fe).
    inversion Fe as [| ? ? Hev _]; subst. rewrite Hev.
    destruct (IA Fh) as (A1 & A2).
    split; [unfold len in *; cbn [length]; lia |].
    rewrite Qsum_rewards_snoc, A2. reflexivity.
  - intros before t1 live Eh Ht1 Fl.
    destruct (exists_last_or_nil live) as [-> | (live0 & x & ->)].
    + change (before ++ [t1]) with (before ++ [t1]) in Eh.
      apply app_inj_tail in Eh. destruct Eh as (Eh1 & Eh2). subst.
      rewrite Ht1. unfold len, Qsum. cbn [length map fold_right].
      split; [reflexivity | lra].
    + rewrite app_comm_cons, app_assoc in Eh.
      apply app_inj_tail in Eh. destruct Eh as (Eh1 & Eh2). subst x.
      apply Forall_app in Fl. destruct Fl as (Fl0 & Fe).
      inversion Fe as [| ? ? Hev _]; subst. rewrite Hev.
      destruct (IB before t1 live0 eq_refl Ht1 Fl0) as (B1 & B2).
      split; [rewrite len_app; unfold len in *; cbn [length]; lia |].
      rewrite Qsum_rewards_snoc, B2. lra.
  - intros live t2 Eh Fl Ht2.
    apply app_inj_tail in Eh. destruct Eh as (Eh1 & Eh2). subst.
    rewrite Ht2. destruct (IA Fl) as (A1 & A2).
    exists (Doom.total_reward s). rewrite last_last.
    split; [congruence | exact A2].
  - intros before t1 live t2 Eh Ht1 Fl Ht2.
    rewrite app_comm_cons, app_assoc in Eh.
    apply app_inj_tail in Eh. destruct Eh as (Eh1 & Eh2). subst.
    rewrite Ht2. destruct (IB before t1 live eq_refl Ht1 Fl) as (B1 & B2).
    exists (Doom.total_reward s). rewrite last_last.
    split; [congruence | exact B2].
Qed.

Lemma play_loop_accounts (self : Doom.t) (events : list (Doom.transition X)) :
  forall s hist,
  play_accounts (Doom.max_epochs self) s hist ->
  exists consumed later,
    events = consumed ++ later /\
    play_accounts (Doom.max_epochs self) (fst (Doom.play_loop self events s))
      (hist ++ consumed) /\
    (snd (Doom.play_loop self events s) = None ->
     later = [] \/ Doom.max_epochs self <= Doom.n_game (fst (Doom.play_loop self events s))).
Proof.
  induction events as [| ev events IH]; intros s hist Inv; cbn [Doom.play_loop].
  - exists [], [].
    destruct (Doom.n_game s <? Doom.max_epochs self); cbn [fst snd];
      (split; [reflexivity |]; split; [now rewrite app_nil_r | intros _; now left]).
  - destruct (Z.ltb_spec (Doom.n_game s) (Doom.max_epochs self)) as [Hg | Hg].
    + pose proof (play_step_accounts self ev s hist Hg Inv) as Inv1.
      destruct (Doom.step self ev s) as [s1 [f |]]; cbn [fst] in Inv1.
      * exists [ev], events. cbn [fst snd]. split; [reflexivity |].
        split; [exact Inv1 | discriminate].
      * destruct (IH s1 (hist ++ [ev]) Inv1) as (consumed & later & Ev & Inv' & Hstop).
        exists (ev :: consumed), later.
        split; [cbn [app]; congruence |].
        rewrite <- app_assoc in Inv'. split; [exact Inv' | exact Hstop].
    + exists [], (ev :: events). cbn [fst snd].
      split; [reflexivity |]. split; [now rewrite app_nil_r | intros _; right; lia].
Qed.

(** Evaluation ([train] off): the loop never fails and never touches the
    memory. *)
Lemma play_loop_without_training (self : Doom.t) (events : list (Doom.transition X)) :
  forall s,
  Doom.train self = false ->
  snd (Doom.play_loop self events s) = None /\
  Doom.memory (fst (Doom.play_loop self events s)) = Doom.memory s /\
  Doom.transitions (fst (Doom.play_loop self events s)) = Doom.transitions s.
Proof.
  induction events as [| ev events IH]; intros s Ht; cbn [Doom.play_loop].
  - destruct (Doom.n_game s <? Doom.max_epochs self); cbn [fst snd]; auto.
  - destruct (Doom.n_game s <? Doom.max_epochs self); cbn [fst snd]; auto.
    unfold Doom.step. rewrite Ht.
    match goal with
    | |- context [Doom.play_loop self events ?s1] =>
        destruct (IH s1 Ht) as (I1 & I2 & I3); rewrite I1, I2, I3
    end.
    destruct (Doom.terminated ev); cbn; auto.
Qed.

End PlayCounters.



(** X19.  The counters of [play].  When the loop trains on a well-formed
    memory with [n_steps > 0], or does not train, it returns without
    failing after a prefix of the steps of the environment: all of them,
    or as many as it takes for [max_epochs] episodes to end; [n_game] is
    the number of terminal steps, never above [max_epochs] (when that is
    not negative), and one episode is reported per terminal step.  The
    reward of the step that ends an episode is added after the counters
    are reset: it is counted in [total_reward] of the following episode,
    and the total reported for an episode is the reward of the last step
    of the previous episode plus the rewards of its own steps but the
    last. *)
Theorem play_counts_episodes (X : Type) (self : Doom.t)
  (mem0 : ExperienceReplay.world (list (Doom.transition X))) (s0 : Doom.locals X)
  (events : list (Doom.transition X)) :
  Doom.train self = false \/
  (0 < Doom.n_steps self /\ wf_store (ExperienceReplay.self mem0)) ->
  Doom.start self mem0 = Ok s0 ->
  exists s' consumed later,
    Doom.play_loop self events s0 = (s', None) /\
    events = consumed ++ later /\
    (later = [] \/ Doom.max_epochs self <= Doom.n_game s') /\
    Doom.time_step s' = len consumed /\
    Doom.n_game s' = terminal_count consumed /\
    Doom.n_game s' <= Z.max 0 (Doom.max_epochs self) /\
    len (Doom.reported s') = Doom.n_game s' /\
    (forall before t1 live,
       consumed = before ++ t1 :: live ->
       Doom.terminated t1 = true ->
       Forall (fun tr => Doom.terminated tr = false) live ->
       Doom.frames_alive s' = len live /\
       (Doom.total_reward s' == Doom.reward t1 + Qsum (map Doom.reward live))%Q) /\
    (forall before t1 live t2,
       consumed = before ++ t1 :: live ++ [t2] ->
       Doom.terminated t1 = true ->
       Forall (fun tr => Doom.terminated tr = false) live ->
       Doom.terminated t2 = true ->
       exists r,
         last (Doom.reported s') (0, 0, 0, 0%Q)
         = (Doom.n_game s', len consumed - 1, len live, r) /\
         (r == Doom.reward t1 + Qsum (map Doom.reward live))%Q).
Proof.
  intros Hmode Hs.
  assert (Es : s0 = Doom.mkl 0 0 0 0 [] mem0 []).
  { unfold Doom.start in Hs. destruct (Doom.n_steps self <? 0); congruence. }
  assert (Acc0 : play_accounts (Doom.max_epochs self) s0 []).
  { subst s0. unfold play_accounts, terminal_count, len, Qsum.
    cbn [Doom.time_step Doom.n_game Doom.reported Doom.frames_alive Doom.total_reward
         filter length map fold_right].
    split; [reflexivity |]. split; [reflexivity |]. split; [lia |].
    split; [reflexivity |]. split; [intros _; split; [reflexivity | lra] |].
    split; [intros before t1 live E; now destruct before |].
    split; [intros live t2 E; now destruct live |].
    intros before t1 live t2 E. now destruct before. }
  assert (Hok : snd (Doom.play_loop self events s0) = None).
  { destruct Hmode as [Ht | (Hn & WF)].
    - now apply play_loop_without_training.
    - destruct (Doom.train self) eqn:Ht.
      + assert (Inv0 : play_invariant (Doom.n_steps self) mem0 s0 [] []).
        { subst s0. unfold play_invariant. cbn [Doom.transitions Doom.frames_alive Doom.memory].
          unfold lastn, len. cbn [length Z.to_nat skipn Nat.sub].
          split; [now destruct (Z.to_nat (Doom.n_steps self)) |].
          split; [lia |]. split; [constructor |]. split; [exact WF |].
          split; [reflexivity | constructor]. }
        destruct (play_loop_invariant self mem0 events s0 [] [] Ht Hn Inv0)
          as (s' & ws' & consumed & later & _ & E & _).
        now rewrite E.
      + now apply play_loop_without_training. }
  destruct (play_loop_accounts self events s0 [] Acc0)
    as (consumed & later & Ev & Acc & Hstop).
  cbn [app] in Acc.
  destruct (Doom.play_loop self events s0) as [s' o]. cbn [fst snd] in *. subst o.
  destruct Acc as (Its & Ing & Imax & Irep & _ & IB & _ & ID).
  exists s', consumed, later.
  split; [reflexivity |]. split; [exact Ev |]. split; [now apply Hstop |].
  split; [exact Its |]. split; [exact Ing |]. split; [exact Imax |].
  split; [congruence |]. split; [exact IB |].
  intros before t1 live t2 E Ht1 Fl Ht2.
  destruct (ID before t1 live t2 E Ht1 Fl Ht2) as (r & Er & Hr).
  exists r. split; [| exact Hr]. rewrite Er. f_equal. f_equal. f_equal.
  rewrite E. rewrite app_comm_cons, app_assoc, !len_app. unfold len. cbn [length]. lia.
Qed.

Lemma play_counts_episodes_witness :
  exists s' consumed later,
    Doom.play_loop (Doom.mk true 2 2)
      [Doom.mkt 1%nat (1 # 2) true; Doom.mkt 2%nat (1 # 4) false; Doom.mkt 3%nat 1 true]
      (Doom.mkl 0 0 0 0 [] (new_world (ExperienceReplay.mk 5 5000 2 false false (ExperienceReplay.Deque [] 5)
       ExperienceReplay.PER_b0)) [])
    = (s', None) /\
    [Doom.mkt 1%nat (1 # 2) true; Doom.mkt 2%nat (1 # 4) false; Doom.mkt 3%nat 1 true]
    = consumed ++ later /\
    (later = [] \/ Doom.max_epochs (Doom.mk true 2 2) <= Doom.n_game s') /\
    Doom.time_step s' = len consumed /\
    Doom.n_game s' = terminal_count consumed /\
    Doom.n_game s' <= Z.max 0 (Doom.max_epochs (Doom.mk true 2 2)) /\
    len (Doom.reported s') = Doom.n_game s' /\
    (forall before t1 live,
       consumed = before ++ t1 :: live ->
       Doom.terminated t1 = true ->
       Forall (fun tr => Doom.terminated tr = false) live ->
       Doom.frames_alive s' = len live /\
       (Doom.total_reward s' == Doom.reward t1 + Qsum (map Doom.reward live))%Q) /\
    (forall before t1 live t2,
       consumed = before ++ t1 :: live ++ [t2] ->
       Doom.terminated t1 = true ->
       Forall (fun tr => Doom.terminated tr = false) live ->
       Doom.terminated t2 = true ->
       exists r,
         last (Doom.reported s') (0, 0, 0, 0%Q)
         = (Doom.n_game s', len consumed - 1, len live, r) /\
         (r == Doom.reward t1 + Qsum (map Doom.reward live))%Q).
Proof.
  refine (play_counts_episodes nat (Doom.mk true 2 2) (new_world (ExperienceReplay.mk 5 5000 2 false false (ExperienceReplay.Deque [] 5)
       ExperienceReplay.PER_b0)) _
            [Doom.mkt 1%nat (1 # 2) true; Doom.mkt 2%nat (1 # 4) false; Doom.mkt 3%nat 1 true]
            _ eq_refl).
  right. split; [cbn [Doom.n_steps]; lia |].
  unfold wf_store, new_world, len. er_simpl. cbn [length]. repeat split; lia.
Defined.

(** ** [update] outside the leaves *)



Lemma sample_changes_only_beta_witness :
  fst (ExperienceReplay.sample sample_power 2 1 (fun n => n) (fun _ => 0%Q)
         (uniform_world [1; 2; 3]%nat))
  = uniform_world [1; 2; 3]%nat.
Proof.
  exact (proj2 (sample_changes_only_beta nat sample_power (uniform_world [1; 2; 3]%nat)
                  2 1 (fun n => n) (fun _ => 0%Q)) eq_refl).
Defined.
